(** * Chino kernel: process manager and thread scheduler

    A shallow embedding of [src/kernel/thread/ProcessManager.cpp] and the
    properties of its scheduling core: thread and process creation, the
    per-priority ready queues, the selection of the next thread and the
    context-switch entry point.

    The C++ code mutates one global [ProcessManager] (reached through
    [g_ProcessMgr]), heap-allocated list nodes named by [HANDLE]s, and the
    global [g_CurrentThreadContext].  All of it is gathered here in one
    record, [Kernel], threaded through a small state monad whose failures are
    the two ways the C++ can go wrong: a failed [kassert] and undefined
    behaviour.

    The second part embeds [src/kernel/graphics/DeviceContext.cpp]: the pixel
    sizes, the row-by-row copy and fill of pixel buffers, the software
    surface with its [Lock], and the copy and clear operations of the device
    context on surfaces in system memory. *)

From stdpp Require Import gmap strings list.
From Stdlib.Strings Require Import Byte.

Open Scope N_scope.

(** ** Values *)

(** [HANDLE] is a pointer-sized integer: the address of a list node,
    reinterpreted ([ToHandle], [HandleToListIt]).  Zero is the null handle.
    [uint32_t] priorities and [uintptr_t] values are naturals as well. *)
Abbreviation HANDLE := N (only parsing).
Abbreviation uint32_t := N (only parsing).
Abbreviation uintptr_t := N (only parsing).

(** Code addresses the scheduler passes around: a thread entry procedure
    ([ThreadMain_t]) or the exit handler. *)
Inductive CodeAddress :=
  | IdleThreadMain
  | OnThreadExit
  | EntryAt (address : uintptr_t).

Abbreviation ThreadMain_t := CodeAddress (only parsing).

(** The architecture's saved context is opaque to the scheduler; what it is
    initialised from is all that is recorded. *)
Record ThreadContext_Arch := {
  ctx_stackPointer : uintptr_t;
  ctx_entryPoint : CodeAddress;
  ctx_returnAddress : CodeAddress;
  ctx_parameter : uintptr_t
}.

Record Thread := {
  priority_ : uint32_t;
  threadContext_ : ThreadContext_Arch;
  stack_ : uintptr_t              (* the owned stack buffer *)
}.

Record Process := {
  name_ : string;
  threads_ : list HANDLE          (* the thread nodes, in creation order *)
}.

(** What lives at the address a handle names. *)
Inductive Node :=
  | ProcessNode (p : Process)
  | ThreadNode (t : Thread).

(** Modelled from the spec: [Chino::list<T>] and its iterator are declared in
    a header outside the sources.  The spec describes a ready-queue slot as an
    ordered sequence that only grows at its tail, and the running-thread
    cursor as either "no thread" or a reference to one entry of one slot,
    whose successor is the entry one position forward in the same slot, if
    there is one.  A slot is therefore a [list HANDLE] and an iterator is
    either null ([None]) or the slot index and the position of its entry:
    entries are never removed, so the position names the same entry for good
    and sees later appends, as the pointer to a node does. *)
Definition thread_handle_it : Type := option (nat * nat).

(** Calls into the architecture layer, kept as a trace. *)
Inductive ArchCall :=
  | ArchSetupSchedulerTimer
  | ArchHaltProcessor.

Record Kernel := {
  (* the free store *)
  heap : gmap N Node;
  heap_top : uintptr_t;
  (* ProcessManager members *)
  _processes : list HANDLE;
  readyThreads_ : list (list HANDLE);
  runningThread_ : thread_handle_it;
  idleProcess_ : HANDLE;
  (* extern "C" global *)
  g_CurrentThreadContext : uintptr_t;
  (* architecture layer *)
  archTrace : list ArchCall
}.

Definition set_heap (f : gmap N Node -> gmap N Node) (s : Kernel) : Kernel :=
  {| heap := f (heap s); heap_top := heap_top s; _processes := _processes s;
     readyThreads_ := readyThreads_ s; runningThread_ := runningThread_ s;
     idleProcess_ := idleProcess_ s;
     g_CurrentThreadContext := g_CurrentThreadContext s;
     archTrace := archTrace s |}.

Definition set_heap_top (a : uintptr_t) (s : Kernel) : Kernel :=
  {| heap := heap s; heap_top := a; _processes := _processes s;
     readyThreads_ := readyThreads_ s; runningThread_ := runningThread_ s;
     idleProcess_ := idleProcess_ s;
     g_CurrentThreadContext := g_CurrentThreadContext s;
     archTrace := archTrace s |}.

Definition set_processes (f : list HANDLE -> list HANDLE) (s : Kernel) : Kernel :=
  {| heap := heap s; heap_top := heap_top s; _processes := f (_processes s);
     readyThreads_ := readyThreads_ s; runningThread_ := runningThread_ s;
     idleProcess_ := idleProcess_ s;
     g_CurrentThreadContext := g_CurrentThreadContext s;
     archTrace := archTrace s |}.

Definition set_readyThreads (f : list (list HANDLE) -> list (list HANDLE))
    (s : Kernel) : Kernel :=
  {| heap := heap s; heap_top := heap_top s; _processes := _processes s;
     readyThreads_ := f (readyThreads_ s); runningThread_ := runningThread_ s;
     idleProcess_ := idleProcess_ s;
     g_CurrentThreadContext := g_CurrentThreadContext s;
     archTrace := archTrace s |}.

Definition set_runningThread (it : thread_handle_it) (s : Kernel) : Kernel :=
  {| heap := heap s; heap_top := heap_top s; _processes := _processes s;
     readyThreads_ := readyThreads_ s; runningThread_ := it;
     idleProcess_ := idleProcess_ s;
     g_CurrentThreadContext := g_CurrentThreadContext s;
     archTrace := archTrace s |}.

Definition set_idleProcess (h : HANDLE) (s : Kernel) : Kernel :=
  {| heap := heap s; heap_top := heap_top s; _processes := _processes s;
     readyThreads_ := readyThreads_ s; runningThread_ := runningThread_ s;
     idleProcess_ := h;
     g_CurrentThreadContext := g_CurrentThreadContext s;
     archTrace := archTrace s |}.

Definition set_CurrentThreadContext (a : uintptr_t) (s : Kernel) : Kernel :=
  {| heap := heap s; heap_top := heap_top s; _processes := _processes s;
     readyThreads_ := readyThreads_ s; runningThread_ := runningThread_ s;
     idleProcess_ := idleProcess_ s;
     g_CurrentThreadContext := a;
     archTrace := archTrace s |}.

Definition set_archTrace (f : list ArchCall -> list ArchCall) (s : Kernel) : Kernel :=
  {| heap := heap s; heap_top := heap_top s; _processes := _processes s;
     readyThreads_ := readyThreads_ s; runningThread_ := runningThread_ s;
     idleProcess_ := idleProcess_ s;
     g_CurrentThreadContext := g_CurrentThreadContext s;
     archTrace := f (archTrace s) |}.

(** ** The monad of kernel code *)

(** A run either returns, stops the system on a failed [kassert], or has no
    defined meaning (a handle that names no node of the expected kind). *)
Inductive outcome (A : Type) :=
  | Ok (a : A)
  | Fatal
  | Undefined.
Arguments Ok {A} a.
Arguments Fatal {A}.
Arguments Undefined {A}.

Definition M (A : Type) : Type := Kernel -> outcome (A * Kernel).

Definition ret {A} (a : A) : M A := fun s => Ok (a, s).

Definition bind {A B} (m : M A) (k : A -> M B) : M B :=
  fun s => match m s with
           | Ok (a, s') => k a s'
           | Fatal => Fatal
           | Undefined => Undefined
           end.

Declare Scope kernel_scope.
Delimit Scope kernel_scope with kernel.
Notation "x <- m ; k" := (bind m (fun x => k))
  (at level 100, m at next level, right associativity) : kernel_scope.
Notation "m ;; k" := (bind m (fun _ => k))
  (at level 100, right associativity) : kernel_scope.
Open Scope kernel_scope.

Definition get : M Kernel := fun s => Ok (s, s).
Definition modify (f : Kernel -> Kernel) : M unit := fun s => Ok (tt, f s).

(** Modelled from the spec: [kassert] is a macro of [kdebug.hpp], outside the
    sources.  The spec makes every failed assertion fatal: it halts the
    system where it is detected, and no error value is returned. *)
Definition kassert (cond : bool) : M unit :=
  fun s => if cond then Ok (tt, s) else Fatal.

(** [operator new]: nothing is ever freed, so a bump allocator.  The block
    starts just above everything allocated so far; it is never null. *)
Definition new (size : N) : M uintptr_t :=
  fun s => let a := N.succ (heap_top s) in Ok (a, set_heap_top (a + size) s).

Definition store (a : HANDLE) (n : Node) : M unit :=
  modify (set_heap <[a := n]>).

(** [*HandleToListIt<Thread>(handle)] and [*HandleToListIt<Process>(handle)]:
    the handle is reinterpreted as a node pointer, with no check. *)
Definition HandleToListIt_Thread (handle : HANDLE) : M Thread :=
  fun s => match heap s !! handle with
           | Some (ThreadNode t) => Ok (t, s)
           | _ => Undefined
           end.

Definition HandleToListIt_Process (handle : HANDLE) : M Process :=
  fun s => match heap s !! handle with
           | Some (ProcessNode p) => Ok (p, s)
           | _ => Undefined
           end.

(** ** Iterators over a ready-queue slot *)

(** [it.good()] *)
Definition good (it : thread_handle_it) : bool :=
  match it with Some _ => true | None => false end.

(** The handle stored in the entry an iterator designates ([*it]). *)
Definition entry_at (readyThreads : list (list HANDLE)) (it : thread_handle_it)
    : option HANDLE :=
  match it with
  | Some (slot, pos) => q ← readyThreads !! slot; q !! pos
  | None => None
  end.

(** [++it]: the next entry of the same slot, or the null iterator after the
    last one.  Incrementing an iterator that designates no entry is
    undefined. *)
Definition it_incr (it : thread_handle_it) : M thread_handle_it :=
  fun s => match it with
           | Some (slot, pos) =>
               match entry_at (readyThreads_ s) it with
               | Some _ =>
                   match entry_at (readyThreads_ s) (Some (slot, S pos)) with
                   | Some _ => Ok (Some (slot, S pos), s)
                   | None => Ok (None, s)
                   end
               | None => Undefined
               end
           | None => Undefined
           end.

(** [*it] *)
Definition it_deref (it : thread_handle_it) : M HANDLE :=
  fun s => match entry_at (readyThreads_ s) it with
           | Some h => Ok (h, s)
           | None => Undefined
           end.

(** [slot.empty()] and [slot.begin()] *)
Definition slot_empty (q : list HANDLE) : bool :=
  match q with [] => true | _ :: _ => false end.

Definition slot_begin (slot : nat) (q : list HANDLE) : thread_handle_it :=
  match q with [] => None | _ :: _ => Some (slot, O) end.

(** ** Platform constants *)

(** The constants and sizes the source takes from headers that are not part
    of the sources.  Nothing below depends on their values. *)
Class Platform := {
  MAX_THREAD_PRIORITY : uint32_t;
  (* number of elements of the array readyThreads_ *)
  READY_THREADS_SIZE : nat;
  DEFAULT_THREAD_STACK_SIZE : uintptr_t;
  (* sizeof of the list nodes, and where a thread's context sits in its node *)
  SIZEOF_PROCESS_NODE : uintptr_t;
  SIZEOF_THREAD_NODE : uintptr_t;
  OFFSETOF_threadContext : uintptr_t
}.

Section ProcessManager.
Context `{platform : Platform}.

(** Modelled from the spec: the architecture's context initialiser is
    supplied by the platform.  It is given the stack top, the entry address,
    the exit-handler address and one integer parameter, and makes a context
    that resumes at the entry with that parameter and returns to the exit
    handler. *)
Definition ArchInitializeThreadContextArch
    (stackPointer : uintptr_t) (entryPoint returnAddress : CodeAddress)
    (parameter : uintptr_t) : ThreadContext_Arch :=
  {| ctx_stackPointer := stackPointer; ctx_entryPoint := entryPoint;
     ctx_returnAddress := returnAddress; ctx_parameter := parameter |}.

(** Modelled from the spec: [ArchSetupSchedulerTimer] and
    [ArchHaltProcessor] are supplied by the platform and touch nothing the
    scheduler owns; a call is recorded in the trace. *)
Definition arch_call (c : ArchCall) : M unit :=
  modify (set_archTrace (fun t => t ++ [c])).

(** [&thread.GetContext()] for the thread in the node named by [handle]. *)
Definition context_address (handle : HANDLE) : uintptr_t :=
  handle + OFFSETOF_threadContext.

(** [ProcessManager::ProcessManager()], with the globals at their initial
    values. *)
Definition ProcessManager_new : Kernel :=
  {| heap := ∅; heap_top := 0; _processes := [];
     readyThreads_ := replicate READY_THREADS_SIZE [];
     runningThread_ := None; idleProcess_ := 0;
     g_CurrentThreadContext := 0; archTrace := [] |}.

(** [ProcessManager::Thread::Thread(entryPoint, priority, parameter)] *)
Definition Thread_new (entryPoint : ThreadMain_t) (priority : uint32_t)
    (parameter : uintptr_t) : M Thread :=
  kassert (priority <=? MAX_THREAD_PRIORITY);;
  let stackSize := DEFAULT_THREAD_STACK_SIZE in
  stack <- new stackSize;
  let stackPointer := (stack + stackSize) mod 2 ^ 64 in
  ret {| priority_ := priority;
         threadContext_ :=
           ArchInitializeThreadContextArch stackPointer entryPoint
             OnThreadExit parameter;
         stack_ := stack |}.

(** [ProcessManager::AddReadyThread(handle)] *)
Definition AddReadyThread (handle : HANDLE) : M unit :=
  it <- HandleToListIt_Thread handle;
  let priority := priority_ it in
  s <- get;
  kassert (priority <? N.of_nat (length (readyThreads_ s)));;
  modify (set_readyThreads
            (alter (fun q => q ++ [handle]) (N.to_nat priority)));;
  s <- get;
  kassert (negb (slot_empty
                   (default [] (readyThreads_ s !! N.to_nat priority)))).

(** [ProcessManager::Process::AddThread(entryPoint, priority, parameter)] on
    the process in the node [this].  [threads_.emplace_back] allocates a
    node, constructs the thread in it and links it at the tail. *)
Definition Process_AddThread (this : HANDLE) (entryPoint : ThreadMain_t)
    (priority : uint32_t) (parameter : uintptr_t) : M HANDLE :=
  self <- HandleToListIt_Process this;
  node <- new SIZEOF_THREAD_NODE;
  t <- Thread_new entryPoint priority parameter;
  store node (ThreadNode t);;
  store this (ProcessNode {| name_ := name_ self;
                             threads_ := threads_ self ++ [node] |});;
  let handle := node in
  AddReadyThread handle;;
  ret handle.

(** [ProcessManager::CreateProcess(name, mainThreadPriority, entryPoint)] *)
Definition CreateProcess (name : string) (mainThreadPriority : uint32_t)
    (entryPoint : ThreadMain_t) : M HANDLE :=
  it <- new SIZEOF_PROCESS_NODE;
  store it (ProcessNode {| name_ := name; threads_ := [] |});;
  modify (set_processes (fun l => l ++ [it]));;
  Process_AddThread it entryPoint mainThreadPriority 0;;
  ret it.

(** [ProcessManager::StartScheduler()] *)
Definition StartScheduler : M unit :=
  s <- get;
  kassert (idleProcess_ s =? 0);;
  h <- CreateProcess "System Idle" 0 IdleThreadMain;
  modify (set_idleProcess h);;
  arch_call ArchSetupSchedulerTimer;;
  arch_call ArchHaltProcessor.

(** The loop of [SelectNextSwitchToThread]: from [rbegin()] to [rend()],
    that is from the last slot down to slot 0, stopping at the first slot
    that is not empty.  [n] slots remain to be visited. *)
Fixpoint scan_ready (readyThreads : list (list HANDLE)) (n : nat)
    : thread_handle_it :=
  match n with
  | O => None
  | S k =>
      match readyThreads !! k with
      | Some q => if negb (slot_empty q) then slot_begin k q
                  else scan_ready readyThreads k
      | None => scan_ready readyThreads k
      end
  end.

(** [ProcessManager::SelectNextSwitchToThread()] *)
Definition SelectNextSwitchToThread : M thread_handle_it :=
  s <- get;
  let threadSwitchTo : thread_handle_it := None in
  threadSwitchTo <-
    (if good (runningThread_ s) then
       next <- it_incr (runningThread_ s);
       if good next then ret next else ret threadSwitchTo
     else ret threadSwitchTo);
  threadSwitchTo <-
    (if negb (good threadSwitchTo) then
       ret (scan_ready (readyThreads_ s) (length (readyThreads_ s)))
     else ret threadSwitchTo);
  kassert (good threadSwitchTo);;
  ret threadSwitchTo.

(** [ProcessManager::SwitchThreadContext()].  The reference it returns is
    the context inside a thread node; the node's handle stands for it. *)
Definition SwitchThreadContext : M HANDLE :=
  nextThread <- SelectNextSwitchToThread;
  modify (set_runningThread nextThread);;
  h <- it_deref nextThread;
  _ <- HandleToListIt_Thread h;
  ret h.

(** [Kernel_SwitchThreadContext()] *)
Definition Kernel_SwitchThreadContext : M unit :=
  arch <- SwitchThreadContext;
  modify (set_CurrentThreadContext (context_address arch)).

(** [ProcessManager::GetProcess(handle)] *)
Definition GetProcess (handle : HANDLE) : M Process :=
  kassert (negb (handle =? 0));;
  HandleToListIt_Process handle.

End ProcessManager.

(** ** Specification vocabulary *)

(** The contents of slot [k] of the ready-queue array (empty outside it). *)
Definition slot (s : Kernel) (k : nat) : list HANDLE :=
  default [] (readyThreads_ s !! k).

(** At least one slot holds a thread. *)
Definition has_ready (s : Kernel) : Prop :=
  ∃ k h q, readyThreads_ s !! k = Some (h :: q).

(** Slot [p] is the non-empty slot of highest index. *)
Definition highest_nonempty (s : Kernel) (p : nat) : Prop :=
  (∃ h q, readyThreads_ s !! p = Some (h :: q)) ∧
  ∀ k q, (p < k)%nat → readyThreads_ s !! k = Some q → q = [].

(** The running-thread cursor is null or designates an entry of a slot. *)
Definition cursor_valid (s : Kernel) : Prop :=
  runningThread_ s = None ∨ is_Some (entry_at (readyThreads_ s) (runningThread_ s)).

(** The cursor gives no successor: there is no running thread, or the
    running thread is the last entry of its slot. *)
Definition no_successor (s : Kernel) : Prop :=
  runningThread_ s = None ∨
  ∃ k i, runningThread_ s = Some (k, i) ∧
         is_Some (entry_at (readyThreads_ s) (Some (k, i))) ∧
         entry_at (readyThreads_ s) (Some (k, S i)) = None.

(** The selection algorithm in the words of the specification: the successor
    of the running thread in its slot if there is one, otherwise the front of
    the non-empty slot of highest index. *)
Inductive selection (s : Kernel) : thread_handle_it → Prop :=
  | selection_successor k i :
      runningThread_ s = Some (k, i) →
      is_Some (entry_at (readyThreads_ s) (Some (k, i))) →
      is_Some (entry_at (readyThreads_ s) (Some (k, S i))) →
      selection s (Some (k, S i))
  | selection_front p :
      no_successor s →
      highest_nonempty s p →
      selection s (Some (p, O)).

(** How many times a handle occurs in a slot. *)
Definition occurrences (h : HANDLE) (q : list HANDLE) : nat :=
  length (filter (eq h) q).

(** Every node lies below the allocation mark, so [new] returns addresses
    that name no node yet. *)
Definition heap_bounded (s : Kernel) : Prop :=
  ∀ a n, heap s !! a = Some n → a ≤ heap_top s.

(** Only handles of created threads are in the ready queues. *)
Definition ready_are_threads (s : Kernel) : Prop :=
  ∀ k q h, readyThreads_ s !! k = Some q → h ∈ q →
           ∃ t, heap s !! h = Some (ThreadNode t).

(** Thread [t], in the node named [h], is in the slot of its priority, once,
    and in no other slot. *)
Definition placed (s : Kernel) (h : HANDLE) (t : Thread) : Prop :=
  (N.to_nat (priority_ t) < length (readyThreads_ s))%nat ∧
  ∀ k, occurrences h (slot s k) =
       if decide (k = N.to_nat (priority_ t)) then 1%nat else 0%nat.

(** The ready-set invariant, up to one thread that has been created and is
    still to be enqueued ([pending]). *)
Record ready_inv_but (pending : option HANDLE) (s : Kernel) : Prop := {
  inv_bounded : heap_bounded s;
  inv_threads : ready_are_threads s;
  inv_placed : ∀ h t, heap s !! h = Some (ThreadNode t) →
                      pending ≠ Some h → placed s h t;
  inv_pending : ∀ h, pending = Some h → ∀ k, occurrences h (slot s k) = 0%nat
}.

(** The ready-set invariant: every created thread is in exactly one slot,
    the slot of its priority, exactly once. *)
Definition ready_inv (s : Kernel) : Prop := ready_inv_but None s.

(** No entry is removed from a slot, and the order is kept. *)
Definition slots_grow (s s' : Kernel) : Prop :=
  ∀ k, slot s k `prefix_of` slot s' k.

(** The operations that change the scheduler's state. *)
Inductive Operation :=
  | OpCreateProcess (name : string) (priority : uint32_t) (entryPoint : ThreadMain_t)
  | OpAddThread (process : HANDLE) (entryPoint : ThreadMain_t)
      (priority : uint32_t) (parameter : uintptr_t)
  | OpAddReadyThread (handle : HANDLE)
  | OpStartScheduler
  | OpSwitchThreadContext.

Section Operations.
Context `{platform : Platform}.

Definition exec (op : Operation) : M unit :=
  match op with
  | OpCreateProcess name priority entryPoint =>
      CreateProcess name priority entryPoint;; ret tt
  | OpAddThread process entryPoint priority parameter =>
      Process_AddThread process entryPoint priority parameter;; ret tt
  | OpAddReadyThread handle => AddReadyThread handle
  | OpStartScheduler => StartScheduler
  | OpSwitchThreadContext => SwitchThreadContext;; ret tt
  end.

(** The states the system can be in: the operations callers are given, run
    from the state the constructor leaves.  [AddReadyThread] is run by
    [AddThread] only. *)
Inductive reachable : Kernel → Prop :=
  | reachable_new : reachable ProcessManager_new
  | reachable_step op s s' :
      reachable s →
      (∀ handle, op ≠ OpAddReadyThread handle) →
      exec op s = Ok (tt, s') →
      reachable s'.

(** The thread [Thread_new] builds when its stack is allocated at [stack]. *)
Definition thread_built (entryPoint : ThreadMain_t) (priority : uint32_t)
    (parameter stack : uintptr_t) : Thread :=
  {| priority_ := priority;
     threadContext_ :=
       {| ctx_stackPointer := (stack + DEFAULT_THREAD_STACK_SIZE) mod 2 ^ 64;
          ctx_entryPoint := entryPoint;
          ctx_returnAddress := OnThreadExit;
          ctx_parameter := parameter |};
     stack_ := stack |}.

(** The states the creation operations leave behind, in closed form.
    [enqueue]: the handle is appended to the slot of the priority. *)
Definition enqueue (handle : HANDLE) (priority : uint32_t) (s : Kernel) : Kernel :=
  set_readyThreads (alter (λ q, q ++ [handle]) (N.to_nat priority)) s.

(** [emplace_thread]: a thread node is allocated just above the allocation
    mark, its stack above it, and the node is linked to the process at
    [this]. *)
Definition emplace_thread (this : HANDLE) (self : Process)
    (entryPoint : ThreadMain_t) (priority : uint32_t) (parameter : uintptr_t)
    (s : Kernel) : Kernel :=
  let node := N.succ (heap_top s) in
  let stack := N.succ (node + SIZEOF_THREAD_NODE) in
  {| heap := <[this := ProcessNode {| name_ := name_ self;
                                      threads_ := threads_ self ++ [node] |}]>
             (<[node := ThreadNode
                          (thread_built entryPoint priority parameter stack)]>
                (heap s));
     heap_top := stack + DEFAULT_THREAD_STACK_SIZE;
     _processes := _processes s;
     readyThreads_ := readyThreads_ s;
     runningThread_ := runningThread_ s;
     idleProcess_ := idleProcess_ s;
     g_CurrentThreadContext := g_CurrentThreadContext s;
     archTrace := archTrace s |}.

Definition after_AddThread (this : HANDLE) (self : Process)
    (entryPoint : ThreadMain_t) (priority : uint32_t) (parameter : uintptr_t)
    (s : Kernel) : Kernel :=
  enqueue (N.succ (heap_top s)) priority
    (emplace_thread this self entryPoint priority parameter s).

(** [emplace_process]: an empty process node is allocated and appended to
    the process collection. *)
Definition emplace_process (name : string) (s : Kernel) : Kernel :=
  let it := N.succ (heap_top s) in
  {| heap := <[it := ProcessNode {| name_ := name; threads_ := [] |}]> (heap s);
     heap_top := it + SIZEOF_PROCESS_NODE;
     _processes := _processes s ++ [it];
     readyThreads_ := readyThreads_ s;
     runningThread_ := runningThread_ s;
     idleProcess_ := idleProcess_ s;
     g_CurrentThreadContext := g_CurrentThreadContext s;
     archTrace := archTrace s |}.

Definition after_CreateProcess (name : string) (priority : uint32_t)
    (entryPoint : ThreadMain_t) (s : Kernel) : Kernel :=
  after_AddThread (N.succ (heap_top s)) {| name_ := name; threads_ := [] |}
    entryPoint priority 0 (emplace_process name s).

End Operations.

(** What each operation may assume about the ready set: [AddReadyThread] is
    handed a created thread that is in no slot yet. *)
Definition op_pre (op : Operation) (s : Kernel) : Prop :=
  match op with
  | OpAddReadyThread handle => ready_inv_but (Some handle) s
  | _ => ready_inv s
  end.

(** A platform to run the operations on. *)
Definition sample_platform : Platform :=
  {| MAX_THREAD_PRIORITY := 15; READY_THREADS_SIZE := 16;
     DEFAULT_THREAD_STACK_SIZE := 4096; SIZEOF_PROCESS_NODE := 64;
     SIZEOF_THREAD_NODE := 128; OFFSETOF_threadContext := 24 |}.

(** The state a run leaves (the state it started from if it does not
    return). *)
Definition state_after {A} (m : M A) (s : Kernel) : Kernel :=
  match m s with
  | Ok (_, s') => s'
  | _ => s
  end.

(** Processes A and B created at priority 3, then the scheduler started:
    slot 3 holds A's and B's threads, slot 0 the idle thread. *)
Definition sample_started : Kernel :=
  state_after (@StartScheduler sample_platform)
    (state_after (@CreateProcess sample_platform "B" 3 (EntryAt 200))
       (state_after (@CreateProcess sample_platform "A" 3 (EntryAt 100))
          (@ProcessManager_new sample_platform))).

(** After one and after two context switches: A's thread, then B's thread,
    is running. *)
Definition sample_running_A : Kernel :=
  state_after (@Kernel_SwitchThreadContext sample_platform) sample_started.

Definition sample_running_B : Kernel :=
  state_after (@Kernel_SwitchThreadContext sample_platform) sample_running_A.

(** ** Runs of the scheduler *)

Section Runs.
Context `{platform : Platform}.

(** [n] timer ticks: the context-switch entry point called [n] times in a
    row. *)
Fixpoint switch_n (n : nat) : M unit :=
  match n with
  | O => ret tt
  | S n' => Kernel_SwitchThreadContext;; switch_n n'
  end.

End Runs.

(** Two states that differ at most in the running-thread cursor and in
    [g_CurrentThreadContext]. *)
Definition only_switched (s s' : Kernel) : Prop :=
  heap s' = heap s ∧ heap_top s' = heap_top s ∧
  _processes s' = _processes s ∧ readyThreads_ s' = readyThreads_ s ∧
  idleProcess_ s' = idleProcess_ s ∧ archTrace s' = archTrace s.

(** The context published to the trampoline is the one of the thread the
    cursor designates. *)
Definition published `{platform : Platform} (s : Kernel) : Prop :=
  ∃ h, entry_at (readyThreads_ s) (runningThread_ s) = Some h ∧
       g_CurrentThreadContext s = context_address h.

(** Ownership: the process collection lists exactly the process nodes, each
    once; a process owns at least one thread; the handles in its thread list
    name thread nodes; every thread node is in the thread list of a listed
    process; no node is at the null address. *)
Record ownership (s : Kernel) : Prop := {
  own_listed : ∀ h, h ∈ _processes s ↔ ∃ p, heap s !! h = Some (ProcessNode p);
  own_nodup : NoDup (_processes s);
  own_nonempty : ∀ h p, heap s !! h = Some (ProcessNode p) → threads_ p ≠ [];
  own_threads : ∀ h p th, heap s !! h = Some (ProcessNode p) →
                          th ∈ threads_ p →
                          ∃ t, heap s !! th = Some (ThreadNode t);
  own_owned : ∀ th t, heap s !! th = Some (ThreadNode t) →
                      ∃ h p, heap s !! h = Some (ProcessNode p) ∧
                             th ∈ threads_ p;
  own_nonnull : heap s !! 0 = None
}.

(** What an operation leaves of the nodes that were there: threads are as
    they were, a process keeps its name and its thread list grows at the
    tail only, and the process collection grows at the tail only. *)
Definition nodes_kept (s s' : Kernel) : Prop :=
  (∀ h t, heap s !! h = Some (ThreadNode t) →
          heap s' !! h = Some (ThreadNode t)) ∧
  (∀ h p, heap s !! h = Some (ProcessNode p) →
          ∃ p', heap s' !! h = Some (ProcessNode p') ∧
                name_ p' = name_ p ∧ threads_ p `prefix_of` threads_ p') ∧
  _processes s `prefix_of` _processes s'.

(** Both creations put one fresh thread node at the tail of the thread list
    of one process, which is either a process that was there or a fresh one
    at the tail of the process collection. *)
Definition grown (s s' : Kernel) (h th : HANDLE) (name : string)
    (old : list HANDLE) (t : Thread) : Prop :=
  heap s' = <[th := ThreadNode t]>
              (<[h := ProcessNode {| name_ := name; threads_ := old ++ [th] |}]>
                 (heap s)) ∧
  heap s !! th = None ∧ th ≠ h ∧ th ≠ 0 ∧ h ≠ 0 ∧
  ((heap s !! h = Some (ProcessNode {| name_ := name; threads_ := old |}) ∧
    _processes s' = _processes s) ∨
   (heap s !! h = None ∧ old = [] ∧ _processes s' = _processes s ++ [h])).

(** The state [StartScheduler] leaves, in closed form, and the handle of the
    idle thread it creates. *)
Definition after_StartScheduler `{platform : Platform} (s : Kernel) : Kernel :=
  set_archTrace (λ t, (t ++ [ArchSetupSchedulerTimer]) ++ [ArchHaltProcessor])
    (set_idleProcess (N.succ (heap_top s))
       (after_CreateProcess "System Idle" 0 IdleThreadMain s)).

Definition idle_thread `{platform : Platform} (s : Kernel) : HANDLE :=
  N.succ (N.succ (heap_top s) + SIZEOF_PROCESS_NODE).

(** Process A alone, created at priority 3; the scheduler is not started. *)
Definition sample_created : Kernel :=
  state_after (@CreateProcess sample_platform "A" 3 (EntryAt 100))
    (@ProcessManager_new sample_platform).

(** * Graphics: surfaces in system memory *)

(** ** Memory and results *)

(** Pixel data lives in byte buffers.  A pointer is a buffer and an offset
    in it; [size_t] arithmetic wraps at 64 bits, as [uintptr_t] does in the
    thread constructor. *)
Record ptr := { ptr_buffer : N; ptr_offset : N }.

Definition ptr_add (p : ptr) (n : N) : ptr :=
  {| ptr_buffer := ptr_buffer p; ptr_offset := ptr_offset p + n |}.

Definition size_t (x : N) : N := x mod 2 ^ 64.

Record Memory := {
  buffers : gmap N (list byte);
  next_buffer : N
}.

Inductive exception :=
  | invalid_argument
  | runtime_error
  | out_of_range.

(** A run of graphics code returns, throws, stops on a failed [kassert], or
    has no defined meaning (an access outside a buffer, a span of negative
    size). *)
Inductive gresult (A : Type) :=
  | Returns (a : A)
  | Throws (e : exception)
  | AssertionFailed
  | UndefinedBehaviour.
Arguments Returns {A} a.
Arguments Throws {A} e.
Arguments AssertionFailed {A}.
Arguments UndefinedBehaviour {A}.

Definition G (A : Type) : Type := Memory -> gresult (A * Memory).

Definition gret {A} (a : A) : G A := fun m => Returns (a, m).

Definition gbind {A B} (c : G A) (k : A -> G B) : G B :=
  fun m => match c m with
           | Returns (a, m') => k a m'
           | Throws e => Throws e
           | AssertionFailed => AssertionFailed
           | UndefinedBehaviour => UndefinedBehaviour
           end.

Notation "'let*' x ':=' c 'in' k" := (gbind c (fun x => k))
  (at level 10, x name, c at level 100, k at level 200).

Definition throw {A} (e : exception) : G A := fun _ => Throws e.
Definition gassert (cond : bool) : G unit :=
  fun m => if cond then Returns (tt, m) else AssertionFailed.

(** The bytes at [p], [n] of them, if they all lie in the buffer. *)
Definition read_bytes (m : Memory) (p : ptr) (n : N) : option (list byte) :=
  b ← buffers m !! ptr_buffer p;
  if ptr_offset p + n <=? N.of_nat (length b)
  then Some (take (N.to_nat n) (drop (N.to_nat (ptr_offset p)) b))
  else None.

(** The buffer [b] with [bs] written at offset [off]. *)
Definition splice (b : list byte) (off : N) (bs : list byte) : list byte :=
  take (N.to_nat off) b ++ bs ++ drop (N.to_nat off + length bs) b.

Definition write_bytes (m : Memory) (p : ptr) (bs : list byte) : option Memory :=
  b ← buffers m !! ptr_buffer p;
  if ptr_offset p + N.of_nat (length bs) <=? N.of_nat (length b)
  then Some {| buffers := <[ptr_buffer p := splice b (ptr_offset p) bs]> (buffers m);
               next_buffer := next_buffer m |}
  else None.

(** [std::copy(first, first + n, out)] on bytes.  The standard leaves it
    undefined when [out] lies in the range copied from; elsewhere the bytes
    read are those that were there before the call. *)
Definition std_copy (first : ptr) (n : N) (out : ptr) : G unit :=
  fun m =>
    if bool_decide (ptr_buffer first = ptr_buffer out) &&
       (ptr_offset first <=? ptr_offset out) &&
       (ptr_offset out <? ptr_offset first + n)
    then UndefinedBehaviour
    else match read_bytes m first n with
         | Some bs =>
             match write_bytes m out bs with
             | Some m' => Returns (tt, m')
             | None => UndefinedBehaviour
             end
         | None => UndefinedBehaviour
         end.

(** [std::make_unique<uint8_t[]>(bytes)]: a fresh buffer of zero bytes.
    The allocation is taken to succeed. *)
Definition make_unique (bytes : N) : G ptr :=
  fun m =>
    let b := next_buffer m in
    Returns ({| ptr_buffer := b; ptr_offset := 0 |},
             {| buffers := <[b := replicate (N.to_nat bytes) "000"%byte]> (buffers m);
                next_buffer := N.succ b |}).

(** ** Pixel formats *)

(** The enumerators the source names, and any other value of the type. *)
Inductive ColorFormat :=
  | B5G6R5_UNORM
  | R32G32B32A32_FLOAT
  | OtherFormat (value : N).

Definition ColorFormat_eqb (a b : ColorFormat) : bool :=
  match a, b with
  | B5G6R5_UNORM, B5G6R5_UNORM => true
  | R32G32B32A32_FLOAT, R32G32B32A32_FLOAT => true
  | OtherFormat x, OtherFormat y => x =? y
  | _, _ => false
  end.

(** [GetPixelBytes(format)] *)
Definition GetPixelBytes (format : ColorFormat) : G N :=
  match format with
  | B5G6R5_UNORM => gret 2
  | R32G32B32A32_FLOAT => gret 16
  | OtherFormat _ => throw invalid_argument
  end.

(** ** Copying rows *)

(** The loop of [CopyBits], with [rows] rows still to copy from row [y]. *)
Fixpoint CopyBits_rows (rows : nat) (y : N) (src : ptr) (srcStride : N)
    (dest : ptr) (destStride lineSize : N) : G unit :=
  match rows with
  | O => gret tt
  | S rows' =>
      let begin := ptr_add src (size_t (y * srcStride)) in
      let* _ := std_copy begin lineSize
                  (ptr_add dest (size_t (y * destStride))) in
      CopyBits_rows rows' (y + 1) src srcStride dest destStride lineSize
  end.

(** [CopyBits(src, srcStride, dest, destStride, lineSize, height)] *)
Definition CopyBits (src : ptr) (srcStride : N) (dest : ptr)
    (destStride lineSize height : N) : G unit :=
  CopyBits_rows (N.to_nat height) 0 src srcStride dest destStride lineSize.

(** ** Sizes, rectangles, spans *)

(** [SizeU], [PointU] and [RectU] are declared in a header outside the
    sources.  The fields are the ones the source reads; they are taken to be
    32-bit unsigned, as the names and the cast [int32_t(rect.Bottom - 1)]
    suggest. *)
Record SizeU := { Width : N; Height : N }.
Record PointU := { X : N; Y : N }.
Record RectU := { Left : N; Top : N; Right : N; Bottom : N }.

Definition uint32_t_wrap (x : N) : N := x mod 2 ^ 32.

(** [int32_t(x)] of a 32-bit unsigned [x], and the conversion of a signed
    value to [size_t] that multiplying it with a [size_t] performs. *)
Definition int32_t (x : N) : Z :=
  let v := Z.of_N (x mod 2 ^ 32) in
  if (v <? 2 ^ 31)%Z then v else (v - 2 ^ 32)%Z.

Definition size_t_of_Z (z : Z) : N := Z.to_N (z mod 2 ^ 64).

(** [ptrdiff_t(x)] of a [size_t]. *)
Definition ptrdiff_t (x : N) : Z :=
  let v := Z.of_N (x mod 2 ^ 64) in
  if (v <? 2 ^ 63)%Z then v else (v - 2 ^ 64)%Z.

(** [gsl::span<uint8_t>]: a pointer and a size in bytes. *)
Record span := { span_data : ptr; span_size_bytes : N }.

(** Modelled from the spec: [gsl::span] is a library type outside the
    sources.  Its constructors take a pointer and a signed count, or two
    pointers, and a negative size violates their contract. *)
Definition make_span (data : ptr) (count : Z) : G span :=
  fun m => if (0 <=? count)%Z
           then Returns ({| span_data := data;
                            span_size_bytes := Z.to_N count |}, m)
           else UndefinedBehaviour.

Definition make_span_range (first last : ptr) : G span :=
  make_span first (Z.of_N (ptr_offset last) - Z.of_N (ptr_offset first)).

Record SurfaceData := { Data : span; Stride : N; Rect : RectU }.

Inductive SurfaceLocation :=
  | SystemMemory
  | DeviceMemory.

(** ** The software surface *)

Record SoftwareSurface := {
  format_ : ColorFormat;
  size_ : SizeU;
  stride_ : N;
  data_ : span;
  storage_ : option ptr
}.

(** [SoftwareSurface(format, size)] *)
Definition SoftwareSurface_new (format : ColorFormat) (size : SizeU)
    : G SoftwareSurface :=
  let* pixelBytes := GetPixelBytes format in
  let stride := size_t (Width size * pixelBytes) in
  let bytes := size_t (stride * Height size) in
  let* storage := make_unique bytes in
  let* data := make_span storage (ptrdiff_t bytes) in
  gret {| format_ := format; size_ := size; stride_ := stride;
          data_ := data; storage_ := Some storage |}.

(** [SoftwareSurface(format, size, data, copy)] *)
Definition SoftwareSurface_from (format : ColorFormat) (size : SizeU)
    (data : SurfaceData) (copy : bool) : G SoftwareSurface :=
  if negb copy then
    let stride := Stride data in
    let data_ := Data data in
    let bytes := size_t (stride * Height size) in
    let* _ := gassert (bytes =? span_size_bytes data_) in
    gret {| format_ := format; size_ := size; stride_ := stride;
            data_ := data_; storage_ := None |}
  else
    let* pixelBytes := GetPixelBytes format in
    let stride := size_t (Width size * pixelBytes) in
    let bytes := size_t (stride * Height size) in
    let* storage := make_unique bytes in
    let* data_ := make_span storage (ptrdiff_t bytes) in
    let* _ := CopyBits (span_data (Data data)) (Stride data)
                (span_data data_) stride stride (Height size) in
    gret {| format_ := format; size_ := size; stride_ := stride;
            data_ := data_; storage_ := Some storage |}.

Definition GetPixelSize (this : SoftwareSurface) : SizeU := size_ this.
Definition GetFormat (this : SoftwareSurface) : ColorFormat := format_ this.
Definition GetLocation (this : SoftwareSurface) : SurfaceLocation := SystemMemory.

Definition SurfaceLocation_eqb (a b : SurfaceLocation) : bool :=
  match a, b with
  | SystemMemory, SystemMemory | DeviceMemory, DeviceMemory => true
  | _, _ => false
  end.

(** [SoftwareSurface::Lock(rect)] *)
Definition Lock (this : SoftwareSurface) (rect : RectU) : G SurfaceData :=
  let* pixelBytes := GetPixelBytes (format_ this) in
  let begin := size_t (Top rect * stride_ this + pixelBytes * Left rect) in
  let end_ :=
    size_t (size_t_of_Z (int32_t (uint32_t_wrap (Bottom rect + 2 ^ 32 - 1)))
              * stride_ this
            + pixelBytes * Right rect) in
  if (span_size_bytes (data_ this) <? begin) ||
     (span_size_bytes (data_ this) <? end_)
  then throw out_of_range
  else
    let* data := make_span_range (ptr_add (span_data (data_ this)) begin)
                   (ptr_add (span_data (data_ this)) end_) in
    gret {| Data := data; Stride := stride_ this; Rect := rect |}.

(** [SoftwareSurface::Unlock(data)] *)
Definition Unlock (this : SoftwareSurface) (data : SurfaceData) : G unit :=
  gret tt.

(** ** Filling *)

(** What the source takes from headers outside the sources: the size of a
    rectangle, the rectangle at a position with a size, the colour type with
    its conversion to a 16-bit pixel, and the display device's own clear and
    copy, used for surfaces in device memory. *)
Class Display := {
  GetSize : RectU -> SizeU;
  RectU_at : PointU -> SizeU -> RectU;
  ColorValue : Type;
  Rgb565_From_Value : ColorValue -> N;
  device_Clear : SoftwareSurface -> RectU -> ColorValue -> G unit;
  device_CopySubresource :
    SoftwareSurface -> SoftwareSurface -> RectU -> PointU -> G unit
}.

Definition byte_of_N (n : N) : byte := default "000"%byte (Byte.of_N n).

(** A 16-bit store through a [uint16_t*], low byte first (the target is
    little-endian: the source names the x86-64 register [rsp]). *)
Definition store_uint16 (p : ptr) (value : N) : G unit :=
  fun m => match write_bytes m p [byte_of_N (value mod 256);
                                  byte_of_N (value / 256 mod 256)] with
           | Some m' => Returns (tt, m')
           | None => UndefinedBehaviour
           end.

(** The inner loop of [FillBits]: [src[x] = value] for the [cols] pixels
    from [x]; [src] points to 16-bit pixels. *)
Fixpoint FillBits_row (cols : nat) (x : N) (src : ptr) (value : N) : G unit :=
  match cols with
  | O => gret tt
  | S cols' =>
      let* _ := store_uint16 (ptr_add src (2 * x)) value in
      FillBits_row cols' (x + 1) src value
  end.

(** The outer loop: a row, then [src += data.Stride / 2]. *)
Fixpoint FillBits_rows (rows : nat) (src : ptr) (width stride value : N)
    : G unit :=
  match rows with
  | O => gret tt
  | S rows' =>
      let* _ := FillBits_row (N.to_nat width) 0 src value in
      FillBits_rows rows' (ptr_add src (2 * (stride / 2))) width stride value
  end.

Section DeviceContext.
Context `{display : Display}.

(** [FillBits(data, format, color)] *)
Definition FillBits (data : SurfaceData) (format : ColorFormat)
    (color : ColorValue) : G unit :=
  if ColorFormat_eqb format B5G6R5_UNORM then
    let src := span_data (Data data) in
    let value := Rgb565_From_Value color in
    FillBits_rows (N.to_nat (Height (GetSize (Rect data)))) src
      (Width (GetSize (Rect data))) (Stride data) value
  else throw runtime_error.

(** [DeviceContext::CreateOffscreenSurface], both overloads *)
Definition CreateOffscreenSurface (format : ColorFormat) (size : SizeU)
    : G SoftwareSurface :=
  SoftwareSurface_new format size.

Definition CreateOffscreenSurface_from (format : ColorFormat) (size : SizeU)
    (data : SurfaceData) (copy : bool) : G SoftwareSurface :=
  SoftwareSurface_from format size data copy.

(** [DeviceContext::Clear(src, srcRect, color)] *)
Definition Clear (src : SoftwareSurface) (srcRect : RectU)
    (color : ColorValue) : G unit :=
  if SurfaceLocation_eqb (GetLocation src) DeviceMemory then
    device_Clear src srcRect color
  else
    let* srcLocker := Lock src srcRect in
    let* _ := FillBits srcLocker (GetFormat src) color in
    Unlock src srcLocker.

(** [DeviceContext::CopySubresource(src, dest, srcRect, destPosition)] *)
Definition CopySubresource (src dest : SoftwareSurface) (srcRect : RectU)
    (destPosition : PointU) : G unit :=
  if negb (ColorFormat_eqb (GetFormat src) (GetFormat dest)) then
    throw invalid_argument
  else if SurfaceLocation_eqb (GetLocation src) SystemMemory &&
          SurfaceLocation_eqb (GetLocation dest) SystemMemory then
    let* srcLocker := Lock src srcRect in
    let* destLocker := Lock dest (RectU_at destPosition (GetSize srcRect)) in
    let* pixelBytes := GetPixelBytes (GetFormat src) in
    let lineSize := size_t (Width (GetSize srcRect) * pixelBytes) in
    let* _ := CopyBits (span_data (Data srcLocker)) (Stride srcLocker)
                (span_data (Data destLocker)) (Stride destLocker)
                lineSize (Height (GetSize srcRect)) in
    let* _ := Unlock dest destLocker in
    Unlock src srcLocker
  else device_CopySubresource src dest srcRect destPosition.

End DeviceContext.

(** ** Well-formed surfaces and rectangles *)

(** Buffers are allocated below [next_buffer], so that [make_unique]
    returns a buffer that was not there. *)
Definition memory_ok (m : Memory) : Prop :=
  ∀ b, next_buffer m ≤ b → buffers m !! b = None.

(** The surface's pixels take [pixelBytes] bytes each; its data span lies in
    the buffer [b]; a row of pixels fits in the stride and the rows fit in
    the span. *)
Record surface_over (m : Memory) (surface : SoftwareSurface) (pixelBytes : N)
    (b : list byte) : Prop := {
  so_format : GetPixelBytes (format_ surface) = gret pixelBytes;
  so_buffer : buffers m !! ptr_buffer (span_data (data_ surface)) = Some b;
  so_span : ptr_offset (span_data (data_ surface)) +
            span_size_bytes (data_ surface) ≤ N.of_nat (length b);
  so_small : N.of_nat (length b) < 2 ^ 63;
  so_row : pixelBytes * Width (size_ surface) ≤ stride_ surface;
  so_rows : stride_ surface * Height (size_ surface)
            ≤ span_size_bytes (data_ surface)
}.

(** A rectangle inside the surface. *)
Definition rect_inside (surface : SoftwareSurface) (rect : RectU) : Prop :=
  Left rect ≤ Right rect ∧ Right rect ≤ Width (size_ surface) ∧
  Top rect ≤ Bottom rect ∧ Bottom rect ≤ Height (size_ surface).

(** Where [Lock] puts the span of a rectangle. *)
Definition lock_begin (surface : SoftwareSurface) (pixelBytes : N)
    (rect : RectU) : N :=
  Top rect * stride_ surface + pixelBytes * Left rect.

Definition lock_end (surface : SoftwareSurface) (pixelBytes : N)
    (rect : RectU) : N :=
  (Bottom rect - 1) * stride_ surface + pixelBytes * Right rect.

Definition locked (surface : SoftwareSurface) (pixelBytes : N) (rect : RectU)
    : SurfaceData :=
  {| Data := {| span_data := ptr_add (span_data (data_ surface))
                               (lock_begin surface pixelBytes rect);
                span_size_bytes := lock_end surface pixelBytes rect -
                                   lock_begin surface pixelBytes rect |};
     Stride := stride_ surface;
     Rect := rect |}.

(** The position in the surface's buffer of byte [x] of row [y] of a
    rectangle. *)
Definition rect_byte (surface : SoftwareSurface) (pixelBytes : N)
    (rect : RectU) (y x : N) : N :=
  ptr_offset (span_data (data_ surface)) +
  (Top rect + y) * stride_ surface + pixelBytes * Left rect + x.

(** The position in the surface's buffer of the low byte of pixel [x] of
    row [y] of a rectangle as [FillBits] reaches it: rows are
    [2 * (stride / 2)] bytes apart, which is the stride when it is even. *)
Definition fill_byte (surface : SoftwareSurface) (rect : RectU) (y x : N) : N :=
  ptr_offset (span_data (data_ surface)) + lock_begin surface 2 rect +
  2 * (stride_ surface / 2) * y + 2 * x.

(** A display to run the device context on: rectangles sized and placed
    the usual way, colours that are the 16-bit pixel itself, and a device
    that does nothing. *)
Definition sample_display : Display :=
  {| GetSize := λ r, {| Width := uint32_t_wrap (Right r + 2 ^ 32 - Left r);
                        Height := uint32_t_wrap (Bottom r + 2 ^ 32 - Top r) |};
     RectU_at := λ p sz, {| Left := X p; Top := Y p;
                            Right := uint32_t_wrap (X p + Width sz);
                            Bottom := uint32_t_wrap (Y p + Height sz) |};
     ColorValue := N;
     Rgb565_From_Value := λ c, c;
     device_Clear := λ _ _ _, gret tt;
     device_CopySubresource := λ _ _ _ _, gret tt |}.

(** Two surfaces of 4 by 3 pixels of 2 bytes, over buffers 0 and 1. *)
Definition sample_pixels : list byte :=
  ["001"; "002"; "003"; "004"; "005"; "006"; "007"; "008";
   "011"; "012"; "013"; "014"; "015"; "016"; "017"; "018";
   "021"; "022"; "023"; "024"; "025"; "026"; "027"; "028"]%byte.

Definition sample_memory : Memory :=
  {| buffers := <[1 := replicate 24 "000"%byte]> (<[0 := sample_pixels]> ∅);
     next_buffer := 2 |}.

Definition sample_surface (buffer : N) : SoftwareSurface :=
  {| format_ := B5G6R5_UNORM;
     size_ := {| Width := 4; Height := 3 |};
     stride_ := 8;
     data_ := {| span_data := {| ptr_buffer := buffer; ptr_offset := 0 |};
                 span_size_bytes := 24 |};
     storage_ := Some {| ptr_buffer := buffer; ptr_offset := 0 |} |}.

(** A surface of one pixel of 16 bytes over buffer 1. *)
Definition sample_float_surface : SoftwareSurface :=
  {| format_ := R32G32B32A32_FLOAT;
     size_ := {| Width := 1; Height := 1 |};
     stride_ := 16;
     data_ := {| span_data := {| ptr_buffer := 1; ptr_offset := 0 |};
                 span_size_bytes := 16 |};
     storage_ := None |}.

(** The middle two by two pixels of a surface of 4 by 3. *)
Definition sample_rect : RectU :=
  {| Left := 1; Top := 1; Right := 3; Bottom := 3 |}.

(** Rows [y0] to [y0 + rows - 1] of a copy lie inside the source buffer
    [sb] and the destination buffer [db]. *)
Definition rows_within (src : ptr) (srcStride : N) (dest : ptr)
    (destStride lineSize : N) (sb : list byte) (y0 : N) (rows : nat)
    (db : list byte) : Prop :=
  ∀ y, y0 ≤ y < y0 + N.of_nat rows →
       ptr_offset src + y * srcStride + lineSize ≤ N.of_nat (length sb) ∧
       ptr_offset dest + y * destStride + lineSize ≤ N.of_nat (length db).

(** ** The fallback scan *)

Section Scan.
Context `{platform : Platform}.

Lemma scan_ready_cases (rt : list (list HANDLE)) (n : nat) :
  (scan_ready rt n = None ∧ ∀ k q, (k < n)%nat → rt !! k = Some q → q = []) ∨
  (∃ p h q, scan_ready rt n = Some (p, O) ∧ (p < n)%nat ∧
            rt !! p = Some (h :: q) ∧
            ∀ k q', (p < k < n)%nat → rt !! k = Some q' → q' = []).
Proof.
  induction n as [|n IH]; simpl.
  - left. split; [done|]. intros; lia.
  - destruct (rt !! n) as [[|h q]|] eqn:Hn; simpl.
    + destruct IH as [[Hs He]|(p & h & q & Hs & Hp & Hq & He)].
      * left. split; [done|]. intros k q' Hk Hq'.
        destruct (decide (k = n)) as [->|]; [congruence|].
        apply (He k); [lia|done].
      * right. exists p, h, q. repeat split; [done|lia|done|].
        intros k q' Hk Hq'.
        destruct (decide (k = n)) as [->|]; [congruence|].
        apply (He k); [lia|done].
    + right. exists n, h, q. repeat split; [lia|done|].
      intros; lia.
    + destruct IH as [[Hs He]|(p & h & q & Hs & Hp & Hq & He)].
      * left. split; [done|]. intros k q' Hk Hq'.
        destruct (decide (k = n)) as [->|]; [congruence|].
        apply (He k); [lia|done].
      * right. exists p, h, q. repeat split; [done|lia|done|].
        intros k q' Hk Hq'.
        destruct (decide (k = n)) as [->|]; [congruence|].
        apply (He k); [lia|done].
Qed.

Lemma highest_nonempty_unique (s : Kernel) (p p' : nat) :
  highest_nonempty s p → highest_nonempty s p' → p = p'.
Proof.
  intros [(h & q & Hp) Hhi] [(h' & q' & Hp') Hhi'].
  destruct (Nat.lt_trichotomy p p') as [Hlt|[->|Hlt]]; [|done|].
  - by specialize (Hhi _ _ Hlt Hp').
  - by specialize (Hhi' _ _ Hlt Hp).
Qed.

Lemma scan_ready_highest (s : Kernel) (p : nat) :
  highest_nonempty s p →
  scan_ready (readyThreads_ s) (length (readyThreads_ s)) = Some (p, O).
Proof.
  intros Hp.
  destruct (scan_ready_cases (readyThreads_ s) (length (readyThreads_ s)))
    as [[_ He]|(p' & h & q & Hs & Hlt & Hq & He)].
  - destruct Hp as [(h & q & Hq) _].
    apply He in Hq; [done|]. by eapply lookup_lt_Some.
  - rewrite Hs. do 2 f_equal.
    apply (highest_nonempty_unique s); [|done].
    split; [by eauto|]. intros k q' Hk Hq'.
    apply (He k); [|done]. split; [done|]. by eapply lookup_lt_Some.
Qed.

Lemma scan_highest_nonempty (s : Kernel) (p : nat) :
  scan_ready (readyThreads_ s) (length (readyThreads_ s)) = Some (p, O) →
  highest_nonempty s p.
Proof.
  intros Hscan.
  destruct (scan_ready_cases (readyThreads_ s) (length (readyThreads_ s)))
    as [[Hs _]|(p' & h & q & Hs & Hlt & Hq & He)]; [congruence|].
  assert (p' = p) as -> by congruence.
  split; [by eauto|]. intros k q' Hk Hq'.
  apply (He k); [|done]. split; [done|]. by eapply lookup_lt_Some.
Qed.

Lemma has_ready_highest (s : Kernel) :
  has_ready s → ∃ p, highest_nonempty s p.
Proof.
  intros (k & h & q & Hk).
  destruct (scan_ready_cases (readyThreads_ s) (length (readyThreads_ s)))
    as [[_ He]|(p' & h' & q' & Hs & Hlt & Hq & He)].
  - apply He in Hk; [done|]. by eapply lookup_lt_Some.
  - exists p'. split; [by eauto|]. intros k' q'' Hk' Hq''.
    apply (He k'); [|done]. split; [done|]. by eapply lookup_lt_Some.
Qed.

(** What [SelectNextSwitchToThread] does on each of its two paths. *)
Lemma select_successor (s : Kernel) (k i : nat) :
  runningThread_ s = Some (k, i) →
  is_Some (entry_at (readyThreads_ s) (Some (k, i))) →
  is_Some (entry_at (readyThreads_ s) (Some (k, S i))) →
  SelectNextSwitchToThread s = Ok (Some (k, S i), s).
Proof.
  intros Hrun [h Hh] [h' Hh'].
  unfold SelectNextSwitchToThread, bind, get, it_incr.
  rewrite Hrun. cbn [good]. rewrite Hh, Hh'. reflexivity.
Qed.

Lemma select_fallback (s : Kernel) (p : nat) :
  no_successor s → highest_nonempty s p →
  SelectNextSwitchToThread s = Ok (Some (p, O), s).
Proof.
  intros Hno Hp. apply scan_ready_highest in Hp.
  unfold SelectNextSwitchToThread, bind, get, it_incr.
  destruct Hno as [Hrun|(k & i & Hrun & [h Hh] & Hlast)]; rewrite Hrun.
  - cbn. rewrite Hp. reflexivity.
  - cbn [good]. rewrite Hh, Hlast. cbn. rewrite Hp. reflexivity.
Qed.

Lemma select_fallback_empty (s : Kernel) :
  no_successor s → ¬ has_ready s → SelectNextSwitchToThread s = Fatal.
Proof.
  intros Hno Hnr.
  assert (scan_ready (readyThreads_ s) (length (readyThreads_ s)) = None) as Hs.
  { destruct (scan_ready_cases (readyThreads_ s) (length (readyThreads_ s)))
      as [[Hs _]|(p' & h' & q' & _ & _ & Hq & _)]; [done|].
    destruct Hnr. by exists p', h', q'. }
  unfold SelectNextSwitchToThread, bind, get, it_incr.
  destruct Hno as [Hrun|(k & i & Hrun & [h Hh] & Hlast)]; rewrite Hrun.
  - cbn. rewrite Hs. reflexivity.
  - cbn [good]. rewrite Hh, Hlast. cbn. rewrite Hs. reflexivity.
Qed.

Lemma cursor_cases (s : Kernel) :
  cursor_valid s →
  no_successor s ∨
  ∃ k i, runningThread_ s = Some (k, i) ∧
         is_Some (entry_at (readyThreads_ s) (Some (k, i))) ∧
         is_Some (entry_at (readyThreads_ s) (Some (k, S i))).
Proof.
  intros [Hnone|Hv]; [by left; left|].
  destruct (runningThread_ s) as [[k i]|] eqn:Hrun; [|by left; left].
  destruct (entry_at (readyThreads_ s) (Some (k, S i))) as [h'|] eqn:Hn.
  - right. exists k, i. by eauto.
  - left. right. exists k, i. by eauto.
Qed.

Lemma selection_valid (s : Kernel) (it : thread_handle_it) :
  selection s it → is_Some (entry_at (readyThreads_ s) it).
Proof.
  intros [k i _ _ Hs|p _ [(h & q & Hp) _]]; [done|].
  cbn. rewrite Hp. by eauto.
Qed.

End Scan.

(** ** Creation: the operations in closed form *)

Section Creation.
Context `{platform : Platform}.

Lemma Thread_new_run (entryPoint : ThreadMain_t) (priority parameter : N)
    (s : Kernel) :
  Thread_new entryPoint priority parameter s =
    if priority <=? MAX_THREAD_PRIORITY then
      Ok (thread_built entryPoint priority parameter (N.succ (heap_top s)),
          set_heap_top (N.succ (heap_top s) + DEFAULT_THREAD_STACK_SIZE) s)
    else Fatal.
Proof.
  unfold Thread_new, bind, kassert.
  by destruct (priority <=? MAX_THREAD_PRIORITY).
Qed.

Lemma alter_append_nonempty (rt : list (list HANDLE)) (k : nat) (h : HANDLE) :
  (k < length rt)%nat →
  slot_empty (default [] (alter (λ q, q ++ [h]) k rt !! k)) = false.
Proof.
  intros Hk. destruct (lookup_lt_is_Some_2 rt k Hk) as [q Hq].
  rewrite list_lookup_alter_eq, Hq. cbn. by destruct q.
Qed.

Lemma AddReadyThread_run (handle : HANDLE) (s : Kernel) :
  AddReadyThread handle s =
    match heap s !! handle with
    | Some (ThreadNode t) =>
        if priority_ t <? N.of_nat (length (readyThreads_ s))
        then Ok (tt, enqueue handle (priority_ t) s)
        else Fatal
    | _ => Undefined
    end.
Proof.
  unfold AddReadyThread, bind, HandleToListIt_Thread, get, kassert, modify.
  destruct (heap s !! handle) as [[|t]|]; try done.
  destruct (priority_ t <? _) eqn:Hp; [|done].
  apply N.ltb_lt in Hp. cbn.
  rewrite alter_append_nonempty by lia. reflexivity.
Qed.

Lemma Process_AddThread_run (this : HANDLE) (entryPoint : ThreadMain_t)
    (priority parameter : N) (s : Kernel) :
  this ≤ heap_top s →
  Process_AddThread this entryPoint priority parameter s =
    match heap s !! this with
    | Some (ProcessNode self) =>
        if priority <=? MAX_THREAD_PRIORITY then
          if priority <? N.of_nat (length (readyThreads_ s)) then
            Ok (N.succ (heap_top s),
                after_AddThread this self entryPoint priority parameter s)
          else Fatal
        else Fatal
    | _ => Undefined
    end.
Proof.
  intros Hle.
  unfold Process_AddThread, bind at 1. unfold HandleToListIt_Process.
  destruct (heap s !! this) as [[self|]|]; try done.
  unfold bind at 1. unfold new.
  unfold bind at 1. rewrite Thread_new_run.
  destruct (priority <=? MAX_THREAD_PRIORITY); [|done].
  unfold bind at 1. unfold store at 1, modify.
  unfold bind at 1. unfold store at 1, modify.
  unfold bind at 1. rewrite AddReadyThread_run. cbn [heap set_heap set_heap_top].
  rewrite lookup_insert_ne by lia. rewrite lookup_insert_eq.
  cbn [priority_ thread_built readyThreads_ set_heap set_heap_top].
  by destruct (priority <? _).
Qed.

Lemma CreateProcess_run (name : string) (priority : N)
    (entryPoint : ThreadMain_t) (s : Kernel) :
  CreateProcess name priority entryPoint s =
    if priority <=? MAX_THREAD_PRIORITY then
      if priority <? N.of_nat (length (readyThreads_ s)) then
        Ok (N.succ (heap_top s),
            after_CreateProcess name priority entryPoint s)
      else Fatal
    else Fatal.
Proof.
  unfold CreateProcess, bind at 1. unfold new.
  unfold bind at 1. unfold store, modify.
  unfold bind at 1. unfold bind at 1.
  rewrite Process_AddThread_run by (cbn; lia).
  cbn [heap set_heap set_heap_top set_processes]. rewrite lookup_insert_eq.
  cbn [readyThreads_ set_heap set_heap_top set_processes].
  destruct (priority <=? MAX_THREAD_PRIORITY); [|done].
  by destruct (priority <? _).
Qed.

Lemma StartScheduler_run (s : Kernel) :
  StartScheduler s =
    if idleProcess_ s =? 0 then
      if (0 <? length (readyThreads_ s))%nat then
        Ok (tt, set_archTrace
                  (λ t, (t ++ [ArchSetupSchedulerTimer]) ++ [ArchHaltProcessor])
                  (set_idleProcess (N.succ (heap_top s))
                     (after_CreateProcess "System Idle" 0 IdleThreadMain s)))
      else Fatal
    else Fatal.
Proof.
  unfold StartScheduler, bind at 1. unfold get.
  unfold bind at 1. unfold kassert.
  destruct (idleProcess_ s =? 0); [|done].
  unfold bind at 1. rewrite CreateProcess_run.
  replace (0 <=? MAX_THREAD_PRIORITY) with true
    by (symmetry; apply N.leb_le; lia).
  destruct (length (readyThreads_ s)) as [|n]; [done|].
  replace (0 <? N.of_nat (S n)) with true by (symmetry; apply N.ltb_lt; lia).
  reflexivity.
Qed.

End Creation.

(** ** The ready-set invariant *)

Section ReadyInvariant.
Context `{platform : Platform}.

Lemma occurrences_snoc (h h' : HANDLE) (q : list HANDLE) :
  occurrences h (q ++ [h']) =
    (occurrences h q + if decide (h = h') then 1 else 0)%nat.
Proof.
  unfold occurrences. rewrite filter_app, length_app. f_equal.
  rewrite filter_cons, filter_nil. by destruct (decide (h = h')).
Qed.

Lemma occurrences_absent (h : HANDLE) (q : list HANDLE) :
  h ∉ q → occurrences h q = 0%nat.
Proof.
  intros Hq. unfold occurrences.
  induction q as [|x q IH]; [done|].
  rewrite filter_cons. apply not_elem_of_cons in Hq as [Hx Hq].
  destruct (decide (h = x)); [done|]. by apply IH.
Qed.

Lemma slot_enqueue_eq (s : Kernel) (h p : N) :
  (N.to_nat p < length (readyThreads_ s))%nat →
  slot (enqueue h p s) (N.to_nat p) = slot s (N.to_nat p) ++ [h].
Proof.
  intros Hp. destruct (lookup_lt_is_Some_2 _ _ Hp) as [q Hq].
  unfold slot, enqueue. cbn. by rewrite list_lookup_alter_eq, Hq.
Qed.

Lemma slot_enqueue_ne (s : Kernel) (h p : N) (k : nat) :
  k ≠ N.to_nat p → slot (enqueue h p s) k = slot s k.
Proof.
  intros Hk. unfold slot, enqueue. cbn. by rewrite list_lookup_alter_ne.
Qed.

Lemma occurrences_enqueue (s : Kernel) (h h' p : N) (k : nat) :
  (N.to_nat p < length (readyThreads_ s))%nat →
  occurrences h (slot (enqueue h' p s) k) =
    (occurrences h (slot s k) +
     if decide (k = N.to_nat p ∧ h = h') then 1 else 0)%nat.
Proof.
  intros Hp. destruct (decide (k = N.to_nat p)) as [->|Hk].
  - rewrite slot_enqueue_eq, occurrences_snoc by done.
    f_equal. destruct (decide (h = h')).
    + by rewrite decide_True.
    + rewrite decide_False; [done|]. by intros [_ ?].
  - rewrite slot_enqueue_ne by done.
    rewrite decide_False; [lia|]. by intros [? _].
Qed.

Lemma slots_grow_refl (s s' : Kernel) :
  readyThreads_ s' = readyThreads_ s → slots_grow s s'.
Proof. intros Hrt k. unfold slot. by rewrite Hrt. Qed.

Lemma slots_grow_enqueue (s : Kernel) (h p : N) :
  slots_grow s (enqueue h p s).
Proof.
  intros k. destruct (decide (k = N.to_nat p)) as [->|Hk].
  - destruct (decide (N.to_nat p < length (readyThreads_ s))%nat) as [Hp|Hp].
    + rewrite slot_enqueue_eq by done. by apply prefix_app_r.
    + unfold slot, enqueue. cbn. rewrite list_lookup_alter_eq.
      rewrite lookup_ge_None_2 by lia. done.
  - by rewrite slot_enqueue_ne.
Qed.

Lemma slots_grow_trans (s1 s2 s3 : Kernel) :
  slots_grow s1 s2 → slots_grow s2 s3 → slots_grow s1 s3.
Proof. intros H12 H23 k. trans (slot s2 k); [apply H12|apply H23]. Qed.

(** The invariant only reads the free store and the ready queues. *)
Lemma ready_inv_but_ext (pending : option HANDLE) (s s' : Kernel) :
  heap s' = heap s → heap_top s' = heap_top s →
  readyThreads_ s' = readyThreads_ s →
  ready_inv_but pending s → ready_inv_but pending s'.
Proof.
  intros Hh Ht Hr [Hb Hth Hpl Hpe].
  split; unfold heap_bounded, ready_are_threads, placed, slot in *;
    rewrite ?Hh, ?Ht, ?Hr; done.
Qed.

Lemma ready_inv_new : ready_inv ProcessManager_new.
Proof.
  split.
  - intros a n Hn. cbn [heap ProcessManager_new] in Hn.
    by rewrite lookup_empty in Hn.
  - intros k q h Hq Hh. cbn [readyThreads_ ProcessManager_new] in Hq.
    apply lookup_replicate in Hq as [-> _]. by apply elem_of_nil in Hh.
  - intros h t Ht. cbn [heap ProcessManager_new] in Ht.
    by rewrite lookup_empty in Ht.
  - done.
Qed.

(** Enqueueing the pending thread establishes the invariant. *)
Lemma enqueue_inv (s : Kernel) (h : HANDLE) (t : Thread) :
  ready_inv_but (Some h) s →
  heap s !! h = Some (ThreadNode t) →
  (N.to_nat (priority_ t) < length (readyThreads_ s))%nat →
  ready_inv (enqueue h (priority_ t) s).
Proof.
  intros [Hb Hth Hpl Hpe] Hh Hp. split.
  - done.
  - intros k q h' Hq Hh'. cbn in Hq.
    rewrite list_lookup_alter in Hq.
    destruct (decide (N.to_nat (priority_ t) = k)) as [<-|Hk].
    + destruct (readyThreads_ s !! N.to_nat (priority_ t)) as [q0|] eqn:Hq0;
        [|done].
      cbn in Hq. injection Hq as <-.
      apply elem_of_app in Hh' as [Hh'|Hh'%list_elem_of_singleton].
      * by eapply Hth.
      * subst h'. by eauto.
    + by eapply Hth.
  - intros h' t' Ht' _. cbn in Ht'. split.
    + cbn. rewrite length_alter.
      destruct (decide (h' = h)) as [->|Hne].
      * by replace t' with t by congruence.
      * apply (Hpl h' t'); [done|congruence].
    + intros k. rewrite occurrences_enqueue by done.
      destruct (decide (h' = h)) as [->|Hne].
      * replace t' with t by congruence.
        rewrite (Hpe h eq_refl k).
        destruct (decide (k = N.to_nat (priority_ t))).
        -- by rewrite decide_True.
        -- rewrite decide_False; [done|]. by intros [? _].
      * rewrite decide_False by (by intros [_ ?]).
        destruct (Hpl h' t' Ht') as [_ Hocc]; [congruence|].
        rewrite Hocc. lia.
  - done.
Qed.

(** A handle above the allocation mark is in no slot. *)
Lemma fresh_absent (s : Kernel) (h : HANDLE) (k : nat) :
  heap_bounded s → ready_are_threads s → heap_top s < h →
  occurrences h (slot s k) = 0%nat.
Proof.
  intros Hb Hth Hh. apply occurrences_absent. intros Hin.
  unfold slot in Hin.
  destruct (readyThreads_ s !! k) as [q|] eqn:Hq;
    [|by apply elem_of_nil in Hin].
  destruct (Hth k q h Hq Hin) as [t Ht]. apply Hb in Ht. lia.
Qed.

(** Creating a thread node leaves the new thread pending. *)
Lemma emplace_thread_inv (this : HANDLE) (self : Process)
    (entryPoint : ThreadMain_t) (priority parameter : N) (s : Kernel) :
  ready_inv s →
  heap s !! this = Some (ProcessNode self) →
  ready_inv_but (Some (N.succ (heap_top s)))
    (emplace_thread this self entryPoint priority parameter s).
Proof.
  intros [Hb Hth Hpl _] Hthis.
  assert (this ≤ heap_top s) as Hle by by eapply Hb.
  split.
  - intros a n Hn. cbn in *.
    destruct (decide (a = this)) as [->|Hna]; [lia|].
    rewrite lookup_insert_ne in Hn by done.
    destruct (decide (a = N.succ (heap_top s))) as [->|Hnb]; [lia|].
    rewrite lookup_insert_ne in Hn by done.
    apply Hb in Hn. lia.
  - intros k q h Hq Hh. cbn in *.
    destruct (Hth k q h Hq Hh) as [t Ht]. exists t.
    rewrite lookup_insert_ne by congruence.
    rewrite lookup_insert_ne; [done|].
    apply Hb in Ht. lia.
  - intros h t Ht Hne. cbn in Ht.
    destruct (decide (h = this)) as [->|Hna].
    { by rewrite lookup_insert_eq in Ht. }
    rewrite lookup_insert_ne in Ht by done.
    rewrite lookup_insert_ne in Ht by congruence.
    by apply Hpl.
  - intros h [= <-] k. apply (fresh_absent s); [done|done|lia].
Qed.

Lemma after_AddThread_inv (this : HANDLE) (self : Process)
    (entryPoint : ThreadMain_t) (priority parameter : N) (s : Kernel) :
  ready_inv s →
  heap s !! this = Some (ProcessNode self) →
  priority < N.of_nat (length (readyThreads_ s)) →
  ready_inv (after_AddThread this self entryPoint priority parameter s).
Proof.
  intros Hinv Hthis Hp. unfold after_AddThread.
  assert (this ≤ heap_top s) as Hle by by eapply (inv_bounded _ _ Hinv).
  pose (t := thread_built entryPoint priority parameter
               (N.succ (N.succ (heap_top s) + SIZEOF_THREAD_NODE))).
  change priority with (priority_ t) at 1.
  apply enqueue_inv.
  - by apply emplace_thread_inv.
  - cbn. rewrite lookup_insert_ne by lia. by rewrite lookup_insert_eq.
  - cbn. lia.
Qed.

Lemma emplace_process_inv (name : string) (s : Kernel) :
  ready_inv s → ready_inv (emplace_process name s).
Proof.
  intros [Hb Hth Hpl _]. split.
  - intros a n Hn. cbn in *.
    destruct (decide (a = N.succ (heap_top s))) as [->|Hna]; [lia|].
    rewrite lookup_insert_ne in Hn by done. apply Hb in Hn. lia.
  - intros k q h Hq Hh. cbn in *.
    destruct (Hth k q h Hq Hh) as [t Ht]. exists t.
    rewrite lookup_insert_ne; [done|]. apply Hb in Ht. lia.
  - intros h t Ht _. cbn in Ht.
    destruct (decide (h = N.succ (heap_top s))) as [->|Hna].
    { by rewrite lookup_insert_eq in Ht. }
    rewrite lookup_insert_ne in Ht by done. by apply Hpl.
  - done.
Qed.

Lemma after_CreateProcess_inv (name : string) (priority : N)
    (entryPoint : ThreadMain_t) (s : Kernel) :
  ready_inv s →
  priority < N.of_nat (length (readyThreads_ s)) →
  ready_inv (after_CreateProcess name priority entryPoint s).
Proof.
  intros Hinv Hp. unfold after_CreateProcess.
  apply after_AddThread_inv.
  - by apply emplace_process_inv.
  - cbn. by rewrite lookup_insert_eq.
  - done.
Qed.

End ReadyInvariant.

(** ** Selection and the context switch *)

Section Switch.
Context `{platform : Platform}.

Lemma fallback_cases (s : Kernel) :
  no_successor s →
  (SelectNextSwitchToThread s = Fatal ∧ ¬ has_ready s) ∨
  (∃ p, highest_nonempty s p ∧
        SelectNextSwitchToThread s = Ok (Some (p, O), s)).
Proof.
  intros Hno.
  destruct (scan_ready_cases (readyThreads_ s) (length (readyThreads_ s)))
    as [[_ He]|(p & h & q & _ & _ & Hq & He)].
  - left. assert (¬ has_ready s) as Hnr.
    { intros (k & h & q & Hk). apply He in Hk; [done|].
      by eapply lookup_lt_Some. }
    split; [by apply select_fallback_empty|done].
  - right. exists p.
    assert (highest_nonempty s p) as Hp.
    { split; [by eauto|]. intros k q' Hk Hq'.
      apply (He k); [|done]. split; [done|]. by eapply lookup_lt_Some. }
    split; [done|by apply select_fallback].
Qed.

Lemma select_dangling (s : Kernel) (k i : nat) :
  runningThread_ s = Some (k, i) →
  entry_at (readyThreads_ s) (Some (k, i)) = None →
  SelectNextSwitchToThread s = Undefined.
Proof.
  intros Hrun Hd. unfold SelectNextSwitchToThread, bind, get, it_incr.
  rewrite Hrun. cbn [good]. rewrite Hd. reflexivity.
Qed.

(** Whenever the selection returns, it leaves the state alone and returns
    the entry the specification's algorithm chooses. *)
Lemma select_inv (s s' : Kernel) (it : thread_handle_it) :
  SelectNextSwitchToThread s = Ok (it, s') → s' = s ∧ selection s it.
Proof.
  intros Hsel.
  assert (no_successor s → s' = s ∧ selection s it) as Hfall.
  { intros Hno. destruct (fallback_cases s Hno) as [[Hf _]|(p & Hp & Hok)].
    - congruence.
    - rewrite Hok in Hsel. injection Hsel as <- <-.
      split; [done|]. by apply selection_front. }
  destruct (runningThread_ s) as [[k i]|] eqn:Hrun; [|by apply Hfall; left].
  destruct (entry_at (readyThreads_ s) (Some (k, i))) as [h|] eqn:Hh.
  - destruct (entry_at (readyThreads_ s) (Some (k, S i))) as [h'|] eqn:Hh'.
    + rewrite (select_successor s k i) in Hsel by eauto.
      injection Hsel as <- <-. split; [done|].
      apply selection_successor; by eauto.
    + apply Hfall. right. exists k, i. by eauto.
  - by rewrite (select_dangling s k i) in Hsel.
Qed.

Lemma selection_select (s : Kernel) (it : thread_handle_it) :
  selection s it → SelectNextSwitchToThread s = Ok (it, s).
Proof.
  intros [k i Hrun Hv Hs|p Hno Hp].
  - by apply select_successor.
  - by apply select_fallback.
Qed.

Lemma select_total (s : Kernel) :
  cursor_valid s → has_ready s → ∃ it, selection s it.
Proof.
  intros Hc Hr. destruct (cursor_cases s Hc) as [Hno|(k & i & Hrun & Hv & Hs)].
  - destruct (has_ready_highest s Hr) as [p Hp].
    exists (Some (p, O)). by apply selection_front.
  - exists (Some (k, S i)). by apply selection_successor.
Qed.

Lemma SwitchThreadContext_ok (s : Kernel) (it : thread_handle_it)
    (h : HANDLE) (t : Thread) :
  SelectNextSwitchToThread s = Ok (it, s) →
  entry_at (readyThreads_ s) it = Some h →
  heap s !! h = Some (ThreadNode t) →
  SwitchThreadContext s = Ok (h, set_runningThread it s).
Proof.
  intros Hsel Hit Hh.
  unfold SwitchThreadContext, bind at 1. rewrite Hsel.
  unfold bind at 1. unfold modify.
  unfold bind at 1. unfold it_deref. cbn [readyThreads_ set_runningThread].
  rewrite Hit. unfold bind, HandleToListIt_Thread.
  cbn [heap set_runningThread]. rewrite Hh. reflexivity.
Qed.

Lemma SwitchThreadContext_inv (s s' : Kernel) (h : HANDLE) :
  SwitchThreadContext s = Ok (h, s') →
  ∃ it, selection s it ∧ s' = set_runningThread it s ∧
        entry_at (readyThreads_ s) it = Some h ∧
        ∃ t, heap s !! h = Some (ThreadNode t).
Proof.
  unfold SwitchThreadContext, bind at 1.
  destruct (SelectNextSwitchToThread s) as [[it s0]| |] eqn:Hsel; [|done..].
  apply select_inv in Hsel as [-> Hsel].
  unfold bind at 1. unfold modify.
  unfold bind at 1. unfold it_deref. cbn [readyThreads_ set_runningThread].
  destruct (entry_at (readyThreads_ s) it) as [h'|] eqn:Hit; [|done].
  unfold bind, HandleToListIt_Thread. cbn [heap set_runningThread].
  destruct (heap s !! h') as [[|t]|] eqn:Hh; try done.
  intros [= <- <-]. exists it. by eauto.
Qed.

(** Every operation keeps the slots growing at the tail only. *)
Lemma slots_grow_after_AddThread (this : HANDLE) (self : Process)
    (entryPoint : ThreadMain_t) (priority parameter : N) (s : Kernel) :
  slots_grow s (after_AddThread this self entryPoint priority parameter s).
Proof.
  unfold after_AddThread.
  eapply slots_grow_trans; [|apply slots_grow_enqueue].
  by apply slots_grow_refl.
Qed.

Lemma slots_grow_after_CreateProcess (name : string) (priority : N)
    (entryPoint : ThreadMain_t) (s : Kernel) :
  slots_grow s (after_CreateProcess name priority entryPoint s).
Proof.
  unfold after_CreateProcess.
  eapply slots_grow_trans; [|apply slots_grow_after_AddThread].
  by apply slots_grow_refl.
Qed.

(** The operations other than a bare [AddReadyThread] keep the invariant. *)
Lemma CreateProcess_inv (name : string) (priority : N)
    (entryPoint : ThreadMain_t) (s s' : Kernel) (h : HANDLE) :
  ready_inv s →
  CreateProcess name priority entryPoint s = Ok (h, s') →
  ready_inv s' ∧ slots_grow s s' ∧ runningThread_ s' = runningThread_ s.
Proof.
  intros Hinv. rewrite CreateProcess_run.
  destruct (priority <=? MAX_THREAD_PRIORITY); [|done].
  destruct (priority <? _) eqn:Hp; [|done].
  apply N.ltb_lt in Hp. intros [= <- <-]. split; [|split; [|done]].
  - by apply after_CreateProcess_inv.
  - apply slots_grow_after_CreateProcess.
Qed.

Lemma Process_AddThread_inv (this : HANDLE) (entryPoint : ThreadMain_t)
    (priority parameter : N) (s s' : Kernel) (h : HANDLE) :
  ready_inv s →
  Process_AddThread this entryPoint priority parameter s = Ok (h, s') →
  ready_inv s' ∧ slots_grow s s' ∧ runningThread_ s' = runningThread_ s.
Proof.
  intros Hinv Hrun.
  destruct (heap s !! this) as [n|] eqn:Hthis.
  - assert (this ≤ heap_top s) as Hle by by eapply (inv_bounded _ _ Hinv).
    rewrite Process_AddThread_run, Hthis in Hrun by done.
    destruct n as [self|]; [|done].
    destruct (priority <=? MAX_THREAD_PRIORITY); [|done].
    destruct (priority <? _) eqn:Hp; [|done].
    apply N.ltb_lt in Hp. injection Hrun as <- <-. split; [|split; [|done]].
    + by apply after_AddThread_inv.
    + apply slots_grow_after_AddThread.
  - unfold Process_AddThread, bind, HandleToListIt_Process in Hrun.
    by rewrite Hthis in Hrun.
Qed.

Lemma StartScheduler_inv (s s' : Kernel) :
  ready_inv s → StartScheduler s = Ok (tt, s') →
  ready_inv s' ∧ slots_grow s s' ∧ runningThread_ s' = runningThread_ s.
Proof.
  intros Hinv. rewrite StartScheduler_run.
  destruct (idleProcess_ s =? 0); [|done].
  destruct (0 <? length (readyThreads_ s))%nat eqn:Hlen; [|done].
  apply Nat.ltb_lt in Hlen. intros [= <-]. split; [|split; [|done]].
  - eapply ready_inv_but_ext;
      [| | |apply (after_CreateProcess_inv "System Idle" 0 IdleThreadMain s)];
      [done|done|done|done|lia].
  - eapply slots_grow_trans; [apply slots_grow_after_CreateProcess|].
    by apply slots_grow_refl.
Qed.

Lemma SwitchThreadContext_ready_inv (s s' : Kernel) (h : HANDLE) :
  ready_inv s → SwitchThreadContext s = Ok (h, s') →
  ready_inv s' ∧ slots_grow s s'.
Proof.
  intros Hinv (it & _ & -> & _)%SwitchThreadContext_inv. split.
  - by eapply ready_inv_but_ext; [| | |exact Hinv].
  - by apply slots_grow_refl.
Qed.

Lemma AddReadyThread_inv (handle : HANDLE) (s s' : Kernel) :
  ready_inv_but (Some handle) s →
  AddReadyThread handle s = Ok (tt, s') →
  ready_inv s' ∧ slots_grow s s' ∧ runningThread_ s' = runningThread_ s.
Proof.
  intros Hinv. rewrite AddReadyThread_run.
  destruct (heap s !! handle) as [[|t]|] eqn:Hh; try done.
  destruct (priority_ t <? _) eqn:Hp; [|done].
  apply N.ltb_lt in Hp. intros [= <-]. split; [|split; [|done]].
  - apply enqueue_inv; [done|done|lia].
  - apply slots_grow_enqueue.
Qed.

(** An entry a cursor designates stays where it is while slots grow. *)
Lemma entry_at_slot (s : Kernel) (k i : nat) :
  entry_at (readyThreads_ s) (Some (k, i)) = slot s k !! i.
Proof.
  unfold slot. cbn. by destruct (readyThreads_ s !! k).
Qed.

Lemma cursor_valid_grow (s s' : Kernel) :
  slots_grow s s' → runningThread_ s' = runningThread_ s →
  cursor_valid s → cursor_valid s'.
Proof.
  intros Hgrow Hrun [Hnone|[h Hh]]; [left; congruence|].
  right. rewrite Hrun. destruct (runningThread_ s) as [[k i]|]; [|done].
  exists h. rewrite entry_at_slot in *.
  by eapply prefix_lookup_Some.
Qed.

(** Every reachable state satisfies what the selection and the context
    switch assume, apart from a ready thread, which [StartScheduler]
    provides. *)
Lemma reachable_wf (s : Kernel) :
  reachable s → ready_inv s ∧ cursor_valid s.
Proof.
  induction 1 as [|op s s' _ [Hinv Hc] Hop Hrun].
  - split; [apply ready_inv_new|by left].
  - destruct op as [name priority entryPoint
                   |process entryPoint priority parameter|handle| |];
      cbn [exec] in Hrun.
    + unfold bind, ret in Hrun.
      destruct (CreateProcess name priority entryPoint s)
        as [[h s1]| |] eqn:Hr; [|done..].
      injection Hrun as <-.
      destruct (CreateProcess_inv _ _ _ _ _ _ Hinv Hr) as (? & ? & ?).
      split; [done|by eapply cursor_valid_grow].
    + unfold bind, ret in Hrun.
      destruct (Process_AddThread process entryPoint priority parameter s)
        as [[h s1]| |] eqn:Hr; [|done..].
      injection Hrun as <-.
      destruct (Process_AddThread_inv _ _ _ _ _ _ _ Hinv Hr) as (? & ? & ?).
      split; [done|by eapply cursor_valid_grow].
    + by destruct (Hop handle).
    + destruct (StartScheduler_inv _ _ Hinv Hrun) as (? & ? & ?).
      split; [done|by eapply cursor_valid_grow].
    + unfold bind, ret in Hrun.
      destruct (SwitchThreadContext s) as [[h s1]| |] eqn:Hr; [|done..].
      injection Hrun as <-.
      split; [by eapply SwitchThreadContext_ready_inv|].
      apply SwitchThreadContext_inv in Hr as (it & Hsel & -> & _).
      right. change (is_Some (entry_at (readyThreads_ s) it)).
      by apply selection_valid.
Qed.

(** Whatever the state it is run on, an operation that returns has removed
    nothing from the slots. *)
Lemma Process_AddThread_grow (this : HANDLE) (entryPoint : ThreadMain_t)
    (priority parameter : N) (s s' : Kernel) (h : HANDLE) :
  Process_AddThread this entryPoint priority parameter s = Ok (h, s') →
  slots_grow s s'.
Proof.
  unfold Process_AddThread, bind at 1. unfold HandleToListIt_Process.
  destruct (heap s !! this) as [[self|]|]; try done.
  unfold bind at 1. unfold new.
  unfold bind at 1. rewrite Thread_new_run.
  destruct (priority <=? MAX_THREAD_PRIORITY); [|done].
  unfold bind at 1. unfold store at 1, modify.
  unfold bind at 1. unfold store at 1, modify.
  unfold bind at 1. rewrite AddReadyThread_run.
  match goal with
  | |- context [heap ?c !! N.succ (heap_top s)] => set (s1 := c)
  end.
  destruct (heap s1 !! _) as [[|t]|]; try done.
  destruct (priority_ t <? _); [|done].
  unfold ret. intros [= _ <-].
  eapply slots_grow_trans; [|apply slots_grow_enqueue].
  by apply slots_grow_refl.
Qed.

Lemma exec_grow (op : Operation) (s s' : Kernel) :
  exec op s = Ok (tt, s') → slots_grow s s'.
Proof.
  destruct op as [name priority entryPoint|process entryPoint priority parameter
                  |handle| |]; cbn [exec]; intros Hrun.
  - unfold bind, ret in Hrun. rewrite CreateProcess_run in Hrun.
    destruct (priority <=? MAX_THREAD_PRIORITY); [|done].
    destruct (priority <? _); [|done].
    injection Hrun as <-. apply slots_grow_after_CreateProcess.
  - unfold bind, ret in Hrun.
    destruct (Process_AddThread process entryPoint priority parameter s)
      as [[h s1]| |] eqn:Hc; [|done..].
    injection Hrun as <-. by eapply Process_AddThread_grow.
  - rewrite AddReadyThread_run in Hrun.
    destruct (heap s !! handle) as [[|t]|]; try done.
    destruct (priority_ t <? _); [|done].
    injection Hrun as <-. apply slots_grow_enqueue.
  - rewrite StartScheduler_run in Hrun.
    destruct (idleProcess_ s =? 0); [|done].
    destruct (0 <? length (readyThreads_ s))%nat; [|done].
    injection Hrun as <-.
    eapply slots_grow_trans; [apply slots_grow_after_CreateProcess|].
    by apply slots_grow_refl.
  - unfold bind, ret in Hrun.
    destruct (SwitchThreadContext s) as [[h s1]| |] eqn:Hc; [|done..].
    injection Hrun as <-.
    apply SwitchThreadContext_inv in Hc as (it & _ & -> & _).
    by apply slots_grow_refl.
Qed.

(** An operation run as the code runs it keeps the invariant:
    [AddReadyThread] is handed the thread [AddThread] has just created. *)
Lemma exec_inv (op : Operation) (s s' : Kernel) :
  op_pre op s → exec op s = Ok (tt, s') → ready_inv s'.
Proof.
  destruct op as [name priority entryPoint|process entryPoint priority parameter
                  |handle| |]; cbn [op_pre exec]; intros Hinv Hrun.
  - unfold bind, ret in Hrun.
    destruct (CreateProcess name priority entryPoint s) as [[h s1]| |] eqn:Hc;
      [|done..].
    injection Hrun as <-.
    destruct (CreateProcess_inv _ _ _ _ _ _ Hinv Hc) as (? & ? & _). done.
  - unfold bind, ret in Hrun.
    destruct (Process_AddThread process entryPoint priority parameter s)
      as [[h s1]| |] eqn:Hc; [|done..].
    injection Hrun as <-.
    destruct (Process_AddThread_inv _ _ _ _ _ _ _ Hinv Hc) as (? & ? & _). done.
  - destruct (AddReadyThread_inv _ _ _ Hinv Hrun) as (? & ? & _). done.
  - destruct (StartScheduler_inv _ _ Hinv Hrun) as (? & ? & _). done.
  - unfold bind, ret in Hrun.
    destruct (SwitchThreadContext s) as [[h s1]| |] eqn:Hc; [|done..].
    injection Hrun as <-. by eapply SwitchThreadContext_ready_inv.
Qed.

End Switch.

(** ** The properties of the scheduler *)

Section Properties.
Context `{platform : Platform}.

Lemma after_CreateProcess_heap (name : string) (priority : N)
    (entryPoint : ThreadMain_t) (s : Kernel) :
  let process := N.succ (heap_top s) in
  let thread := N.succ (process + SIZEOF_PROCESS_NODE) in
  heap (after_CreateProcess name priority entryPoint s) =
    <[thread := ThreadNode
                  (thread_built entryPoint priority 0
                     (N.succ (thread + SIZEOF_THREAD_NODE)))]>
      (<[process := ProcessNode {| name_ := name; threads_ := [thread] |}]>
         (heap s)).
Proof.
  cbn. rewrite insert_insert_ne by lia. by rewrite insert_insert_eq.
Qed.

(** C1: next-thread selection.  When the running-thread cursor
    designates an entry that has a successor in its slot,
    [SelectNextSwitchToThread] returns that successor; when there is no
    running thread, or the running thread is the last entry of its slot, it
    returns the first entry of the non-empty slot of highest index.  These
    are the two rules of [selection].  The state is left as it was, and the
    iterator returned designates an entry. *)
Theorem select_next_thread (s : Kernel) (it : thread_handle_it) :
  selection s it →
  SelectNextSwitchToThread s = Ok (it, s) ∧
  is_Some (entry_at (readyThreads_ s) it).
Proof.
  intros Hsel. split.
  - destruct Hsel as [k i Hrun Hv Hs|p Hno Hp].
    + by apply select_successor.
    + by apply select_fallback.
  - by apply selection_valid.
Qed.

(** C2: priority precedence of the fallback scan.  When the cursor
    gives no successor, and slot [p] is non-empty while every slot above it
    is empty, the selection returns the first entry of slot [p].  The front
    of slot 0, where the idle thread sits, is selected only when every slot
    from 1 up is empty. *)
Theorem fallback_scan_precedence (s : Kernel) (p : nat) :
  no_successor s →
  highest_nonempty s p →
  (∃ h, head (slot s p) = Some h ∧
        SelectNextSwitchToThread s = Ok (Some (p, O), s) ∧
        entry_at (readyThreads_ s) (Some (p, O)) = Some h) ∧
  (∀ s', SelectNextSwitchToThread s = Ok (Some (O, O), s') →
         ∀ k, (1 ≤ k)%nat → slot s k = []).
Proof.
  intros Hno Hp. split.
  - destruct Hp as [(h & q & Hq) Hhi]. exists h. repeat split.
    + unfold slot. by rewrite Hq.
    + apply select_fallback; [done|]. split; by eauto.
    + cbn. by rewrite Hq.
  - intros s' [_ Hsel]%select_inv k Hk.
    inversion Hsel as [|p0 _ [_ Hhi]]; subst.
    unfold slot. destruct (readyThreads_ s !! k) as [q|] eqn:Hq; [|done].
    cbn. apply (Hhi k); [lia|done].
Qed.

(** C3: the assertion that a thread was found cannot fail once a
    slot is non-empty, which a successful [StartScheduler] guarantees: the
    selection returns an iterator that designates an entry. *)
Theorem select_never_fatal (s0 s : Kernel) :
  cursor_valid s →
  has_ready s ∨ StartScheduler s0 = Ok (tt, s) →
  ∃ it h, SelectNextSwitchToThread s = Ok (it, s) ∧
          entry_at (readyThreads_ s) it = Some h.
Proof.
  intros Hc Hr.
  assert (has_ready s) as Hready.
  { destruct Hr as [Hr|Hstart]; [done|].
    rewrite StartScheduler_run in Hstart.
    destruct (idleProcess_ s0 =? 0); [|done].
    destruct (0 <? length (readyThreads_ s0))%nat eqn:Hlen; [|done].
    apply Nat.ltb_lt in Hlen. injection Hstart as <-.
    destruct (lookup_lt_is_Some_2 _ _ Hlen) as [q Hq].
    exists O. cbn. change (N.to_nat 0) with O.
    rewrite list_lookup_alter_eq, Hq. cbn.
    destruct q as [|h q]; cbn; by eauto. }
  destruct (select_total s Hc Hready) as [it Hsel].
  destruct (selection_valid s it Hsel) as [h Hh].
  exists it, h. split; [by apply selection_select|done].
Qed.

(** C4: [CreateProcess] with a priority in range appends one new
    process node with the given name to the process collection, creates one
    thread in it with the given priority and entry point and parameter 0,
    appends the thread's handle to the ready-queue slot of that priority,
    and returns the handle of the new process. *)
Theorem CreateProcess_spec (name : string) (priority : N)
    (entryPoint : ThreadMain_t) (s : Kernel) :
  heap_bounded s →
  priority ≤ MAX_THREAD_PRIORITY →
  priority < N.of_nat (length (readyThreads_ s)) →
  ∃ process thread t s',
    CreateProcess name priority entryPoint s = Ok (process, s') ∧
    heap s !! process = None ∧ heap s !! thread = None ∧ process ≠ thread ∧
    _processes s' = _processes s ++ [process] ∧
    heap s' = <[thread := ThreadNode t]>
                (<[process := ProcessNode {| name_ := name;
                                             threads_ := [thread] |}]>
                   (heap s)) ∧
    priority_ t = priority ∧
    ctx_entryPoint (threadContext_ t) = entryPoint ∧
    ctx_parameter (threadContext_ t) = 0 ∧
    readyThreads_ s' =
      alter (λ q, q ++ [thread]) (N.to_nat priority) (readyThreads_ s) ∧
    slot s' (N.to_nat priority) = slot s (N.to_nat priority) ++ [thread] ∧
    (∀ k, k ≠ N.to_nat priority → slot s' k = slot s k) ∧
    runningThread_ s' = runningThread_ s ∧
    idleProcess_ s' = idleProcess_ s.
Proof.
  intros Hb Hmax Hlen.
  set (process := N.succ (heap_top s)).
  set (thread := N.succ (process + SIZEOF_PROCESS_NODE)).
  exists process, thread,
    (thread_built entryPoint priority 0 (N.succ (thread + SIZEOF_THREAD_NODE))),
    (after_CreateProcess name priority entryPoint s).
  assert (∀ a, heap_top s < a → heap s !! a = None) as Hfresh.
  { intros a Ha. destruct (heap s !! a) as [n|] eqn:Hn; [|done].
    apply Hb in Hn. lia. }
  split.
  { rewrite CreateProcess_run.
    apply N.leb_le in Hmax. apply N.ltb_lt in Hlen. by rewrite Hmax, Hlen. }
  split; [apply Hfresh; lia|]. split; [apply Hfresh; lia|].
  split; [lia|]. split; [done|].
  split; [apply after_CreateProcess_heap|].
  do 4 (split; [done|]).
  split.
  { unfold after_CreateProcess, after_AddThread.
    rewrite slot_enqueue_eq by (cbn; lia). done. }
  split; [|done].
  intros k Hk. unfold after_CreateProcess, after_AddThread.
  by rewrite slot_enqueue_ne.
Qed.

(** C5: the ready-set invariant (every created thread is in the
    slot of its priority, once, and in no other slot) is kept by every
    operation.  Whatever the state, an operation that returns has removed no
    entry from any slot and has kept the order of the entries; run as the
    code runs it ([AddReadyThread] on the thread [AddThread] has just
    created, which is in no slot yet; the other operations on a state with
    the invariant), it leaves a state with the invariant; and so the
    invariant holds in every state the operations reach from the
    constructor's, before and after each of them. *)
Theorem ready_inv_preserved (op : Operation) (s s' : Kernel) :
  exec op s = Ok (tt, s') →
  slots_grow s s' ∧
  (op_pre op s → ready_inv s') ∧
  (reachable s → (∀ handle, op ≠ OpAddReadyThread handle) →
   ready_inv s ∧ ready_inv s' ∧ reachable s').
Proof.
  intros Hrun. split; [by eapply exec_grow|]. split.
  - intros Hpre. by eapply exec_inv.
  - intros Hs Hop.
    assert (reachable s') as Hs' by by eapply reachable_step.
    split; [by apply reachable_wf|]. split; [by apply reachable_wf|done].
Qed.

(** C6: for a handle that names a thread whose priority is within
    the bounds of the ready-queue array, [AddReadyThread] appends the handle
    at the tail of the slot of that priority and leaves every other slot and
    the rest of the state as they were; the slot is then non-empty.  With a
    priority outside the bounds it stops on a fatal assertion. *)
Theorem AddReadyThread_spec (handle : HANDLE) (t : Thread) (s : Kernel) :
  heap s !! handle = Some (ThreadNode t) →
  (priority_ t < N.of_nat (length (readyThreads_ s)) →
   let s' := enqueue handle (priority_ t) s in
   AddReadyThread handle s = Ok (tt, s') ∧
   slot s' (N.to_nat (priority_ t)) = slot s (N.to_nat (priority_ t)) ++ [handle] ∧
   slot s' (N.to_nat (priority_ t)) ≠ [] ∧
   ∀ k, k ≠ N.to_nat (priority_ t) → slot s' k = slot s k) ∧
  (N.of_nat (length (readyThreads_ s)) ≤ priority_ t →
   AddReadyThread handle s = Fatal).
Proof.
  intros Hh. split.
  - intros Hp. cbn zeta. repeat split.
    + rewrite AddReadyThread_run, Hh.
      apply N.ltb_lt in Hp. by rewrite Hp.
    + apply slot_enqueue_eq. lia.
    + rewrite slot_enqueue_eq by lia. by destruct (slot s _).
    + intros k Hk. by apply slot_enqueue_ne.
  - intros Hp. rewrite AddReadyThread_run, Hh.
    apply N.ltb_ge in Hp. by rewrite Hp.
Qed.

(** C7: on a state with no idle process, [StartScheduler] creates
    one process, named "System Idle", whose one thread has priority 0 and is
    appended to slot 0, records it as the idle process, arms the timer and
    halts; called again on the state it leaves, it stops on a fatal
    assertion. *)
Theorem StartScheduler_spec (s : Kernel) :
  idleProcess_ s = 0 →
  (0 < length (readyThreads_ s))%nat →
  ∃ process thread t s',
    StartScheduler s = Ok (tt, s') ∧
    _processes s' = _processes s ++ [process] ∧
    heap s' = <[thread := ThreadNode t]>
                (<[process := ProcessNode {| name_ := "System Idle";
                                             threads_ := [thread] |}]>
                   (heap s)) ∧
    priority_ t = 0 ∧
    ctx_entryPoint (threadContext_ t) = IdleThreadMain ∧
    slot s' O = slot s O ++ [thread] ∧
    (∀ k, k ≠ O → slot s' k = slot s k) ∧
    idleProcess_ s' = process ∧ process ≠ 0 ∧
    archTrace s' = archTrace s ++ [ArchSetupSchedulerTimer; ArchHaltProcessor] ∧
    StartScheduler s' = Fatal.
Proof.
  intros Hidle Hlen.
  set (process := N.succ (heap_top s)).
  set (thread := N.succ (process + SIZEOF_PROCESS_NODE)).
  exists process, thread,
    (thread_built IdleThreadMain 0 0 (N.succ (thread + SIZEOF_THREAD_NODE))).
  eexists. split.
  { rewrite StartScheduler_run, Hidle.
    apply Nat.ltb_lt in Hlen. rewrite Hlen. reflexivity. }
  split; [done|].
  split; [apply (after_CreateProcess_heap "System Idle" 0 IdleThreadMain s)|].
  do 2 (split; [done|]).
  split.
  { change O with (N.to_nat 0).
    apply (slot_enqueue_eq
             (emplace_thread process {| name_ := "System Idle"; threads_ := [] |}
                IdleThreadMain 0 0 (emplace_process "System Idle" s))).
    cbn. lia. }
  split.
  { intros k Hk.
    apply (slot_enqueue_ne
             (emplace_thread process {| name_ := "System Idle"; threads_ := [] |}
                IdleThreadMain 0 0 (emplace_process "System Idle" s))).
    done. }
  split; [done|]. split; [unfold process; lia|].
  split; [cbn; by rewrite <- app_assoc|].
  rewrite StartScheduler_run. cbn [idleProcess_ set_archTrace set_idleProcess].
  replace (N.succ (heap_top s) =? 0) with false; [done|].
  symmetry. apply N.eqb_neq. lia.
Qed.

(** C8: constructing a thread stops on a fatal assertion exactly
    when the priority exceeds [MAX_THREAD_PRIORITY]; otherwise it returns the
    thread, and so it does for the priority [MAX_THREAD_PRIORITY] itself. *)
Theorem Thread_new_fatal_iff (entryPoint : ThreadMain_t)
    (priority parameter : N) (s : Kernel) :
  (Thread_new entryPoint priority parameter s = Fatal ↔
   MAX_THREAD_PRIORITY < priority) ∧
  ((∃ t s', Thread_new entryPoint priority parameter s = Ok (t, s') ∧
            priority_ t = priority) ↔
   priority ≤ MAX_THREAD_PRIORITY) ∧
  (∃ t s', Thread_new entryPoint MAX_THREAD_PRIORITY parameter s = Ok (t, s') ∧
           priority_ t = MAX_THREAD_PRIORITY).
Proof.
  rewrite !Thread_new_run.
  replace (MAX_THREAD_PRIORITY <=? MAX_THREAD_PRIORITY) with true
    by (symmetry; apply N.leb_refl).
  destruct (priority <=? MAX_THREAD_PRIORITY) eqn:Hp.
  - apply N.leb_le in Hp. repeat split; try done; try lia; by eauto.
  - apply N.leb_gt in Hp. repeat split; try done; try lia; try by eauto.
    by intros (t & s' & ? & _).
Qed.

(** C9: on a state where the cursor is null or designates an entry,
    some slot is non-empty and the slots hold handles of created threads,
    one call of [Kernel_SwitchThreadContext] sets the running-thread cursor
    to the entry the selection chooses and writes the address of the saved
    context of the thread in that entry to [g_CurrentThreadContext]: the
    address of the thread's node, which is the handle in the entry, plus the
    offset of the context in the node.  The ready queues, the process
    collection and the nodes are as before. *)
Theorem Kernel_SwitchThreadContext_spec (s : Kernel) :
  cursor_valid s →
  has_ready s →
  ready_are_threads s →
  ∃ it h t s',
    selection s it ∧
    SelectNextSwitchToThread s = Ok (it, s) ∧
    entry_at (readyThreads_ s) it = Some h ∧
    heap s !! h = Some (ThreadNode t) ∧
    Kernel_SwitchThreadContext s = Ok (tt, s') ∧
    runningThread_ s' = it ∧
    g_CurrentThreadContext s' = h + OFFSETOF_threadContext ∧
    readyThreads_ s' = readyThreads_ s ∧
    _processes s' = _processes s ∧
    heap s' = heap s ∧
    idleProcess_ s' = idleProcess_ s.
Proof.
  intros Hc Hr Hth.
  destruct (select_total s Hc Hr) as [it Hsel].
  destruct (selection_valid s it Hsel) as [h Hh].
  assert (∃ t, heap s !! h = Some (ThreadNode t)) as [t Ht].
  { destruct it as [[k i]|]; [|done]. cbn in Hh.
    destruct (readyThreads_ s !! k) as [q|] eqn:Hq; [|done]. cbn in Hh.
    apply (Hth k q h Hq). by eapply list_elem_of_lookup_2. }
  pose proof (selection_select s it Hsel) as Hrun.
  exists it, h, t,
    (set_CurrentThreadContext (context_address h) (set_runningThread it s)).
  do 4 (split; [done|]).
  split; [|done].
  unfold Kernel_SwitchThreadContext, bind.
  by rewrite (SwitchThreadContext_ok s it h t).
Qed.

(** C10: [GetProcess] stops on a fatal assertion exactly when the
    handle is null; any other handle is reinterpreted as a process node with
    no further check, so the process in the node it names is returned.
    [AddReadyThread], the other operation that takes a handle, asserts
    nothing about the handle: its only fatal stop is the priority bound. *)
Theorem GetProcess_spec (handle : HANDLE) (s : Kernel) :
  (GetProcess handle s = Fatal ↔ handle = 0) ∧
  (handle ≠ 0 → GetProcess handle s = HandleToListIt_Process handle s) ∧
  (∀ p, handle ≠ 0 → heap s !! handle = Some (ProcessNode p) →
        GetProcess handle s = Ok (p, s)) ∧
  (∀ h, AddReadyThread h s = Fatal →
        ∃ t, heap s !! h = Some (ThreadNode t) ∧
             N.of_nat (length (readyThreads_ s)) ≤ priority_ t).
Proof.
  assert (handle ≠ 0 →
          GetProcess handle s = HandleToListIt_Process handle s) as Hne.
  { intros Hh. unfold GetProcess, bind, kassert.
    apply N.eqb_neq in Hh. by rewrite Hh. }
  repeat split.
  - intros Hf. destruct (decide (handle = 0)) as [|Hh]; [done|].
    rewrite Hne in Hf by done. unfold HandleToListIt_Process in Hf.
    by destruct (heap s !! handle) as [[|]|].
  - intros ->. reflexivity.
  - done.
  - intros p Hh Hp. rewrite Hne by done.
    unfold HandleToListIt_Process. by rewrite Hp.
  - intros h. rewrite AddReadyThread_run.
    destruct (heap s !! h) as [[|t]|]; try done.
    destruct (priority_ t <? _) eqn:Hp; [done|].
    apply N.ltb_ge in Hp. by eauto.
Qed.

End Properties.

(** ** The properties at work on a sample run *)

Lemma sample_started_inv : ready_inv sample_started.
Proof.
  set (s0 := @ProcessManager_new sample_platform).
  set (s1 := state_after (@CreateProcess sample_platform "A" 3 (EntryAt 100)) s0).
  set (s2 := state_after (@CreateProcess sample_platform "B" 3 (EntryAt 200)) s1).
  assert (ready_inv s1) as H1.
  { refine (proj1 (CreateProcess_inv (platform := sample_platform) "A" 3 (EntryAt 100) s0 s1 1 _ _)).
    - apply ready_inv_new.
    - vm_compute. reflexivity. }
  assert (ready_inv s2) as H2.
  { refine (proj1 (CreateProcess_inv (platform := sample_platform) "B" 3 (EntryAt 200) s1 s2 4292 H1 _)).
    vm_compute. reflexivity. }
  refine (proj1 (StartScheduler_inv (platform := sample_platform) s2 sample_started H2 _)).
  vm_compute. reflexivity.
Qed.

Lemma select_next_thread_witness :
  selection sample_running_A (Some (3, 1)%nat) ∧
  SelectNextSwitchToThread sample_running_A =
    Ok (Some (3, 1)%nat, sample_running_A) ∧
  entry_at (readyThreads_ sample_running_A) (Some (3, 1)%nat) = Some 4357.
Proof.
  assert (selection sample_running_A (Some (3, 1)%nat)) as Hsel.
  { apply (selection_successor _ 3 0).
    - vm_compute. reflexivity.
    - exists 66. vm_compute. reflexivity.
    - exists 4357. vm_compute. reflexivity. }
  split; [exact Hsel|]. split.
  - exact (proj1 (select_next_thread sample_running_A _ Hsel)).
  - vm_compute. reflexivity.
Defined.

Lemma fallback_scan_precedence_witness :
  no_successor sample_running_B ∧
  highest_nonempty sample_running_B 3 ∧
  SelectNextSwitchToThread sample_running_B =
    Ok (Some (3, 0)%nat, sample_running_B).
Proof.
  assert (no_successor sample_running_B) as Hno.
  { right. exists 3%nat, 1%nat. split; [vm_compute; reflexivity|].
    split; [exists 4357|]; vm_compute; reflexivity. }
  assert (highest_nonempty sample_running_B 3) as Hp.
  { apply scan_highest_nonempty. vm_compute. reflexivity. }
  split; [exact Hno|]. split; [exact Hp|].
  destruct (proj1 (fallback_scan_precedence sample_running_B 3 Hno Hp))
    as (h & _ & Hsel & _).
  exact Hsel.
Defined.

Lemma select_never_fatal_witness :
  cursor_valid sample_started ∧
  has_ready sample_started ∧
  ∃ it h, SelectNextSwitchToThread sample_started = Ok (it, sample_started) ∧
          entry_at (readyThreads_ sample_started) it = Some h.
Proof.
  assert (cursor_valid sample_started) as Hc.
  { left. vm_compute. reflexivity. }
  assert (has_ready sample_started) as Hr.
  { exists 3%nat, 66, [4357]. vm_compute. reflexivity. }
  split; [exact Hc|]. split; [exact Hr|].
  exact (select_never_fatal (platform := sample_platform)
           sample_started sample_started Hc (or_introl Hr)).
Defined.

Lemma CreateProcess_spec_witness :
  ∃ process thread s',
    @CreateProcess sample_platform "A" 3 (EntryAt 100)
      (@ProcessManager_new sample_platform) = Ok (process, s') ∧
    _processes s' = [process] ∧
    slot s' 3 = [thread].
Proof.
  destruct (CreateProcess_spec (platform := sample_platform) "A" 3 (EntryAt 100)
              (@ProcessManager_new sample_platform))
    as (process & thread & t & s' & Hrun & _ & _ & _ & Hps & _ & _ & _ & _ &
        _ & Hslot & _).
  - intros a n Hn. vm_compute in Hn. discriminate Hn.
  - vm_compute. discriminate.
  - vm_compute. reflexivity.
  - exists process, thread, s'. split; [exact Hrun|]. split; [exact Hps|].
    exact Hslot.
Defined.

Lemma ready_inv_preserved_witness :
  let s0 := @ProcessManager_new sample_platform in
  let s1 := state_after (@CreateProcess sample_platform "A" 3 (EntryAt 100)) s0 in
  slots_grow s0 s1 ∧ ready_inv s1 ∧ reachable (platform := sample_platform) s1.
Proof.
  intros s0 s1.
  destruct (ready_inv_preserved (platform := sample_platform)
              (OpCreateProcess "A" 3 (EntryAt 100)) s0 s1)
    as (Hgrow & Hinv & Hreach).
  - vm_compute. reflexivity.
  - split; [exact Hgrow|]. split.
    + apply Hinv. apply ready_inv_new.
    + destruct Hreach as (_ & _ & Hr); [apply reachable_new|discriminate|].
      exact Hr.
Defined.

Lemma AddReadyThread_spec_witness :
  AddReadyThread 66 sample_started = Ok (tt, enqueue 66 3 sample_started) ∧
  slot (enqueue 66 3 sample_started) 3 = slot sample_started 3 ++ [66].
Proof.
  assert (heap sample_started !! 66 =
            Some (ThreadNode (@thread_built sample_platform (EntryAt 100) 3 0 195)))
    as Hh by (vm_compute; reflexivity).
  destruct (proj1 (AddReadyThread_spec 66 _ sample_started Hh))
    as (Hrun & Hslot & _).
  - vm_compute. reflexivity.
  - split; [exact Hrun|exact Hslot].
Defined.

Lemma StartScheduler_spec_witness :
  ∃ s', @StartScheduler sample_platform (@ProcessManager_new sample_platform) =
          Ok (tt, s') ∧
        idleProcess_ s' ≠ 0 ∧
        @StartScheduler sample_platform s' = Fatal.
Proof.
  destruct (StartScheduler_spec (platform := sample_platform)
              (@ProcessManager_new sample_platform))
    as (process & thread & t & s' & Hrun & _ & _ & _ & _ & _ & _ & Hidle &
        Hne & _ & Hagain).
  - vm_compute. reflexivity.
  - vm_compute. lia.
  - exists s'. split; [exact Hrun|]. split; [by rewrite Hidle|exact Hagain].
Defined.

Lemma Kernel_SwitchThreadContext_spec_witness :
  ∃ it h s',
    SelectNextSwitchToThread sample_started = Ok (it, sample_started) ∧
    entry_at (readyThreads_ sample_started) it = Some h ∧
    @Kernel_SwitchThreadContext sample_platform sample_started = Ok (tt, s') ∧
    runningThread_ s' = it ∧
    g_CurrentThreadContext s' = h + 24 ∧
    readyThreads_ s' = readyThreads_ sample_started.
Proof.
  destruct (Kernel_SwitchThreadContext_spec (platform := sample_platform)
              sample_started)
    as (it & h & t & s' & _ & Hsel & Hh & _ & Hrun & Hcur & Hctx & Hrt & _).
  - left. vm_compute. reflexivity.
  - exists 3%nat, 66, [4357]. vm_compute. reflexivity.
  - apply (inv_threads _ _ sample_started_inv).
  - exists it, h, s'. by repeat split.
Defined.

(** ** Round robin over runs of context switches *)

Section RoundRobin.
Context `{platform : Platform}.

Lemma only_switched_refl (s : Kernel) : only_switched s s.
Proof. by repeat split. Qed.

Lemma only_switched_trans (s1 s2 s3 : Kernel) :
  only_switched s1 s2 → only_switched s2 s3 → only_switched s1 s3.
Proof.
  intros (? & ? & ? & ? & ? & ?) (? & ? & ? & ? & ? & ?).
  repeat split; congruence.
Qed.

Lemma only_switched_slot (s s' : Kernel) (k : nat) :
  only_switched s s' → slot s' k = slot s k.
Proof. intros (_ & _ & _ & Hrt & _). unfold slot. by rewrite Hrt. Qed.

Lemma only_switched_threads (s s' : Kernel) :
  only_switched s s' → ready_are_threads s → ready_are_threads s'.
Proof.
  intros (Hh & _ & _ & Hrt & _) Hth. unfold ready_are_threads.
  rewrite Hh, Hrt. done.
Qed.

Lemma only_switched_highest (s s' : Kernel) (p : nat) :
  only_switched s s' → highest_nonempty s p → highest_nonempty s' p.
Proof.
  intros (_ & _ & _ & Hrt & _) Hp. unfold highest_nonempty.
  rewrite Hrt. done.
Qed.

Lemma entry_thread (s : Kernel) (it : thread_handle_it) (h : HANDLE) :
  ready_are_threads s →
  entry_at (readyThreads_ s) it = Some h →
  ∃ t, heap s !! h = Some (ThreadNode t).
Proof.
  intros Hth Hh. destruct it as [[k i]|]; [|done]. cbn in Hh.
  destruct (readyThreads_ s !! k) as [q|] eqn:Hq; [|done]. cbn in Hh.
  apply (Hth k q h Hq). by eapply list_elem_of_lookup_2.
Qed.

(** One tick, when the state meets what the selection needs. *)
Lemma switch_step (s : Kernel) (it : thread_handle_it) :
  ready_are_threads s →
  selection s it →
  ∃ s', Kernel_SwitchThreadContext s = Ok (tt, s') ∧
        runningThread_ s' = it ∧ only_switched s s' ∧ published s'.
Proof.
  intros Hth Hsel.
  destruct (selection_valid s it Hsel) as [h Hh].
  destruct (entry_thread s it h Hth Hh) as [t Ht].
  exists (set_CurrentThreadContext (context_address h) (set_runningThread it s)).
  split.
  { unfold Kernel_SwitchThreadContext, bind.
    rewrite (SwitchThreadContext_ok s it h t); [done| |done|done].
    by apply selection_select. }
  split; [done|]. split; [by repeat split|].
  exists h. by split.
Qed.

Lemma cursor_entry (s : Kernel) (k i : nat) :
  (i < length (slot s k))%nat →
  is_Some (entry_at (readyThreads_ s) (Some (k, i))).
Proof.
  intros Hi. rewrite entry_at_slot. by apply lookup_lt_is_Some_2.
Qed.

Lemma cursor_last (s : Kernel) (k i : nat) :
  length (slot s k) = S i →
  no_successor s ∨ runningThread_ s ≠ Some (k, i).
Proof.
  intros Hlen.
  destruct (decide (runningThread_ s = Some (k, i))) as [Hrun|]; [|by right].
  left. right. exists k, i. split; [done|]. split.
  - apply cursor_entry. lia.
  - rewrite entry_at_slot. apply lookup_ge_None_2. lia.
Qed.

Lemma switch_n_S (n : nat) (s s1 : Kernel) :
  Kernel_SwitchThreadContext s = Ok (tt, s1) →
  switch_n (S n) s = switch_n n s1.
Proof. intros Hstep. cbn [switch_n]. unfold bind. by rewrite Hstep. Qed.

Lemma switch_n_add (n m : nat) (s : Kernel) :
  switch_n (n + m) s = (switch_n n;; switch_n m) s.
Proof.
  revert s. induction n as [|n IH]; intros s; [done|].
  cbn [switch_n Nat.add]. unfold bind.
  destruct (Kernel_SwitchThreadContext s) as [[[] s1]| |]; [|done..].
  rewrite IH. reflexivity.
Qed.

Lemma advance_run (n : nat) (s : Kernel) (k i : nat) :
  ready_are_threads s →
  runningThread_ s = Some (k, i) →
  (i + n < length (slot s k))%nat →
  ∃ s', switch_n n s = Ok (tt, s') ∧
        runningThread_ s' = Some (k, (i + n)%nat) ∧
        only_switched s s'.
Proof.
  revert s i. induction n as [|n IH]; intros s i Hth Hrun Hlen.
  - exists s. rewrite Nat.add_0_r. split; [done|].
    split; [done|apply only_switched_refl].
  - assert (selection s (Some (k, S i))) as Hsel.
    { apply selection_successor; [done|apply cursor_entry; lia..]. }
    destruct (switch_step s _ Hth Hsel) as (s1 & Hstep & Hrun1 & Hsw & _).
    destruct (IH s1 (S i)) as (s' & Hn & Hrun' & Hsw').
    + by eapply only_switched_threads.
    + done.
    + rewrite (only_switched_slot s s1) by done. lia.
    + exists s'. rewrite (switch_n_S n s s1) by done.
      split; [done|]. split; [|by eapply only_switched_trans].
      rewrite Hrun'. do 2 f_equal. lia.
Qed.

Lemma top_slot_run (n : nat) (s : Kernel) (p i : nat) :
  ready_are_threads s →
  highest_nonempty s p →
  runningThread_ s = Some (p, i) →
  (i < length (slot s p))%nat →
  ∃ s', switch_n n s = Ok (tt, s') ∧
        runningThread_ s' = Some (p, ((i + n) mod length (slot s p))%nat) ∧
        only_switched s s'.
Proof.
  revert s i. induction n as [|n IH]; intros s i Hth Hp Hrun Hlen.
  - exists s. rewrite Nat.add_0_r, Nat.mod_small by done.
    split; [done|]. split; [done|apply only_switched_refl].
  - set (j := if decide (S i < length (slot s p))%nat then S i else O).
    assert (selection s (Some (p, j))) as Hsel.
    { unfold j. destruct (decide (S i < length (slot s p))%nat).
      - apply selection_successor; [done|apply cursor_entry; lia..].
      - apply selection_front; [|done].
        right. exists p, i. split; [done|]. split.
        + by apply cursor_entry.
        + rewrite entry_at_slot. apply lookup_ge_None_2. lia. }
    assert (j < length (slot s p))%nat as Hj.
    { unfold j. destruct (decide (S i < length (slot s p))%nat); lia. }
    assert ((j + n) mod length (slot s p) =
            (i + S n) mod length (slot s p))%nat as Hmod.
    { unfold j. destruct (decide (S i < length (slot s p))%nat).
      - f_equal. lia.
      - assert (length (slot s p) = S i) as HL by lia.
        replace (i + S n)%nat with (n + 1 * S i)%nat by lia.
        rewrite HL, Nat.Div0.mod_add. done. }
    destruct (switch_step s _ Hth Hsel) as (s1 & Hstep & Hrun1 & Hsw & _).
    destruct (IH s1 j) as (s' & Hn & Hrun' & Hsw').
    + by eapply only_switched_threads.
    + by eapply only_switched_highest.
    + done.
    + by rewrite (only_switched_slot s s1).
    + exists s'. rewrite (switch_n_S n s s1) by done.
      split; [done|]. split; [|by eapply only_switched_trans].
      rewrite Hrun', (only_switched_slot s s1) by done. by rewrite Hmod.
Qed.

Lemma front_step (s : Kernel) (p : nat) :
  ready_are_threads s → highest_nonempty s p → no_successor s →
  ∃ s', Kernel_SwitchThreadContext s = Ok (tt, s') ∧
        runningThread_ s' = Some (p, O) ∧ only_switched s s' ∧
        (0 < length (slot s p))%nat.
Proof.
  intros Hth Hp Hno.
  assert (selection s (Some (p, O))) as Hsel by by apply selection_front.
  destruct (switch_step s _ Hth Hsel) as (s1 & Hstep & Hrun1 & Hsw & _).
  exists s1. do 3 (split; [done|]).
  destruct Hp as [(h & q & Hq) _]. unfold slot. rewrite Hq. cbn. lia.
Qed.

(** X1: while the running thread has successors in its slot, each
    tick moves the cursor one entry forward in that slot, whatever the other
    slots hold: [n] ticks from position [i] end at position [i + n], and
    change nothing but the cursor and the published context. *)
Theorem round_robin_advance (n : nat) (s : Kernel) (k i : nat) :
  ready_are_threads s →
  runningThread_ s = Some (k, i) →
  (i + n < length (slot s k))%nat →
  ∃ s', switch_n n s = Ok (tt, s') ∧
        runningThread_ s' = Some (k, (i + n)%nat) ∧
        only_switched s s'.
Proof. apply advance_run. Qed.

(** X2: round robin in the top slot.  When the running thread is at
    position [i] of the non-empty slot of highest index, of length [L], then
    after [n] ticks the cursor is at position [(i + n) mod L] of that slot:
    the threads of the slot run in order, cyclically, and no thread of a
    lower slot is ever selected. *)
Theorem round_robin_top_slot (n : nat) (s : Kernel) (p i : nat) :
  ready_are_threads s →
  highest_nonempty s p →
  runningThread_ s = Some (p, i) →
  (i < length (slot s p))%nat →
  ∃ s', switch_n n s = Ok (tt, s') ∧
        runningThread_ s' = Some (p, ((i + n) mod length (slot s p))%nat) ∧
        only_switched s s'.
Proof. apply top_slot_run. Qed.

(** X3: the first ticks.  With no running thread yet, the first
    tick selects the front of the non-empty slot of highest index, of length
    [L], and after [n + 1] ticks the cursor is at position [n mod L] of that
    slot. *)
Theorem round_robin_from_start (n : nat) (s : Kernel) (p : nat) :
  ready_are_threads s →
  highest_nonempty s p →
  runningThread_ s = None →
  ∃ s', switch_n (S n) s = Ok (tt, s') ∧
        runningThread_ s' = Some (p, (n mod length (slot s p))%nat) ∧
        only_switched s s'.
Proof.
  intros Hth Hp Hrun.
  destruct (front_step s p Hth Hp) as (s1 & Hstep & Hrun1 & Hsw & Hlen);
    [by left|].
  destruct (top_slot_run n s1 p O) as (s' & Hn & Hrun' & Hsw').
  - by eapply only_switched_threads.
  - by eapply only_switched_highest.
  - done.
  - by rewrite (only_switched_slot s s1).
  - exists s'. rewrite (switch_n_S n s s1) by done.
    split; [done|]. split; [|by eapply only_switched_trans].
    by rewrite Hrun', (only_switched_slot s s1).
Qed.

(** X4: how long a thread of a higher slot waits.  When the running
    thread is at position [i] of a slot of length [L], whichever slot that
    is, the ticks first go through the rest of that slot: after [j] ticks,
    for every [j] below [L - i], the cursor is at position [i + j] of the
    running thread's slot.  Tick number [L - i], and none before it, takes
    the cursor out of the slot's tail, to the front of the non-empty slot of
    highest index.  The ticks change nothing but the cursor and the
    published context. *)
Theorem higher_slot_latency (s : Kernel) (k i p : nat) :
  ready_are_threads s →
  highest_nonempty s p →
  runningThread_ s = Some (k, i) →
  (i < length (slot s k))%nat →
  (∀ j, (j < length (slot s k) - i)%nat →
        ∃ s', switch_n j s = Ok (tt, s') ∧
              runningThread_ s' = Some (k, (i + j)%nat) ∧
              only_switched s s') ∧
  ∃ s', switch_n (length (slot s k) - i) s = Ok (tt, s') ∧
        runningThread_ s' = Some (p, O) ∧
        only_switched s s'.
Proof.
  intros Hth Hp Hrun Hlen.
  set (L := length (slot s k)) in *.
  split.
  { intros j Hj. apply advance_run; [done|done|fold L; lia]. }
  destruct (advance_run (L - 1 - i) s k i) as (s1 & Hn & Hrun1 & Hsw);
    [done|done|fold L; lia|].
  replace (i + (L - 1 - i))%nat with (L - 1)%nat in Hrun1 by lia.
  destruct (front_step s1 p) as (s2 & Hstep & Hrun2 & Hsw2 & _).
  - by eapply only_switched_threads.
  - by eapply only_switched_highest.
  - right. exists k, (L - 1)%nat. split; [done|]. split.
    + apply cursor_entry. rewrite (only_switched_slot s s1) by done.
      fold L. lia.
    + rewrite entry_at_slot, (only_switched_slot s s1) by done.
      apply lookup_ge_None_2. fold L. lia.
  - exists s2. split; [|split; [done|by eapply only_switched_trans]].
    replace (L - i)%nat with ((L - 1 - i) + 1)%nat by lia.
    rewrite switch_n_add. unfold bind. rewrite Hn.
    cbn [switch_n]. unfold bind. by rewrite Hstep.
Qed.

End RoundRobin.

(** ** What the operations do to the nodes *)

Section Nodes.
Context `{platform : Platform}.

(** The state an operation leaves when it returns, operation by operation. *)
Lemma exec_cases (op : Operation) (s s' : Kernel) :
  heap_bounded s →
  exec op s = Ok (tt, s') →
  match op with
  | OpCreateProcess name priority entryPoint =>
      priority ≤ MAX_THREAD_PRIORITY ∧
      priority < N.of_nat (length (readyThreads_ s)) ∧
      s' = after_CreateProcess name priority entryPoint s
  | OpAddThread this entryPoint priority parameter =>
      ∃ self, heap s !! this = Some (ProcessNode self) ∧
              priority ≤ MAX_THREAD_PRIORITY ∧
              priority < N.of_nat (length (readyThreads_ s)) ∧
              s' = after_AddThread this self entryPoint priority parameter s
  | OpAddReadyThread handle =>
      ∃ t, heap s !! handle = Some (ThreadNode t) ∧
           priority_ t < N.of_nat (length (readyThreads_ s)) ∧
           s' = enqueue handle (priority_ t) s
  | OpStartScheduler =>
      idleProcess_ s = 0 ∧ (0 < length (readyThreads_ s))%nat ∧
      s' = set_archTrace
             (λ t, (t ++ [ArchSetupSchedulerTimer]) ++ [ArchHaltProcessor])
             (set_idleProcess (N.succ (heap_top s))
                (after_CreateProcess "System Idle" 0 IdleThreadMain s))
  | OpSwitchThreadContext =>
      ∃ it, selection s it ∧ s' = set_runningThread it s
  end.
Proof.
  intros Hb Hrun.
  destruct op as [name priority entryPoint|this entryPoint priority parameter
                  |handle| |]; cbn [exec] in Hrun.
  - unfold bind, ret in Hrun. rewrite CreateProcess_run in Hrun.
    destruct (priority <=? MAX_THREAD_PRIORITY) eqn:Hmax; [|done].
    destruct (priority <? _) eqn:Hp; [|done].
    apply N.leb_le in Hmax. apply N.ltb_lt in Hp.
    injection Hrun as <-. done.
  - unfold bind, ret in Hrun.
    destruct (heap s !! this) as [n|] eqn:Hthis.
    + assert (this ≤ heap_top s) as Hle by by eapply Hb.
      rewrite Process_AddThread_run, Hthis in Hrun by done.
      destruct n as [self|]; [|done].
      destruct (priority <=? MAX_THREAD_PRIORITY) eqn:Hmax; [|done].
      destruct (priority <? _) eqn:Hp; [|done].
      apply N.leb_le in Hmax. apply N.ltb_lt in Hp.
      injection Hrun as <-. by exists self.
    + unfold Process_AddThread, bind, HandleToListIt_Process in Hrun.
      by rewrite Hthis in Hrun.
  - rewrite AddReadyThread_run in Hrun.
    destruct (heap s !! handle) as [[|t]|] eqn:Hh; try done.
    destruct (priority_ t <? _) eqn:Hp; [|done].
    apply N.ltb_lt in Hp. injection Hrun as <-. by exists t.
  - rewrite StartScheduler_run in Hrun.
    destruct (idleProcess_ s =? 0) eqn:Hidle; [|done].
    destruct (0 <? length (readyThreads_ s))%nat eqn:Hlen; [|done].
    apply N.eqb_eq in Hidle. apply Nat.ltb_lt in Hlen.
    injection Hrun as <-. done.
  - unfold bind, ret in Hrun.
    destruct (SwitchThreadContext s) as [[h s1]| |] eqn:Hr; [|done..].
    injection Hrun as <-.
    apply SwitchThreadContext_inv in Hr as (it & Hsel & -> & _).
    by exists it.
Qed.

Lemma after_AddThread_grown (this : HANDLE) (self : Process)
    (entryPoint : ThreadMain_t) (priority parameter : N) (s : Kernel) :
  heap_bounded s →
  heap s !! 0 = None →
  heap s !! this = Some (ProcessNode self) →
  grown s (after_AddThread this self entryPoint priority parameter s)
    this (N.succ (heap_top s)) (name_ self) (threads_ self)
    (thread_built entryPoint priority parameter
       (N.succ (N.succ (heap_top s) + SIZEOF_THREAD_NODE))).
Proof.
  intros Hb H0 Hthis.
  assert (this ≤ heap_top s) as Hle by by eapply Hb.
  assert (heap s !! N.succ (heap_top s) = None) as Hfresh.
  { destruct (heap s !! N.succ (heap_top s)) as [n|] eqn:Hn; [|done].
    apply Hb in Hn. lia. }
  split; [|split; [done|split; [lia|split; [lia|split]]]].
  - cbn. by rewrite insert_insert_ne by lia.
  - intros ->. congruence.
  - left. by destruct self.
Qed.

Lemma after_CreateProcess_grown (name : string) (priority : N)
    (entryPoint : ThreadMain_t) (s : Kernel) :
  heap_bounded s →
  grown s (after_CreateProcess name priority entryPoint s)
    (N.succ (heap_top s))
    (N.succ (N.succ (heap_top s) + SIZEOF_PROCESS_NODE)) name []
    (thread_built entryPoint priority 0
       (N.succ (N.succ (N.succ (heap_top s) + SIZEOF_PROCESS_NODE) +
                SIZEOF_THREAD_NODE))).
Proof.
  intros Hb.
  assert (∀ a, heap_top s < a → heap s !! a = None) as Hfresh.
  { intros a Ha. destruct (heap s !! a) as [n|] eqn:Hn; [|done].
    apply Hb in Hn. lia. }
  split; [apply after_CreateProcess_heap|].
  split; [apply Hfresh; lia|]. do 3 (split; [lia|]).
  right. split; [apply Hfresh; lia|done].
Qed.

Lemma grown_lookup_other (s s' : Kernel) (h th a : HANDLE) (name : string)
    (old : list HANDLE) (t : Thread) :
  grown s s' h th name old t → a ≠ h → a ≠ th →
  heap s' !! a = heap s !! a.
Proof.
  intros (Hheap & _) Hah Hath. rewrite Hheap.
  by rewrite !lookup_insert_ne.
Qed.

Lemma grown_lookup_thread (s s' : Kernel) (h th : HANDLE) (name : string)
    (old : list HANDLE) (t : Thread) :
  grown s s' h th name old t → heap s' !! th = Some (ThreadNode t).
Proof. intros (Hheap & _). rewrite Hheap. by rewrite lookup_insert_eq. Qed.

Lemma grown_lookup_process (s s' : Kernel) (h th : HANDLE) (name : string)
    (old : list HANDLE) (t : Thread) :
  grown s s' h th name old t →
  heap s' !! h =
    Some (ProcessNode {| name_ := name; threads_ := old ++ [th] |}).
Proof.
  intros (Hheap & _ & Hne & _). rewrite Hheap.
  rewrite lookup_insert_ne by done. by rewrite lookup_insert_eq.
Qed.

Lemma grown_nodes_kept (s s' : Kernel) (h th : HANDLE) (name : string)
    (old : list HANDLE) (t : Thread) :
  grown s s' h th name old t → nodes_kept s s'.
Proof.
  intros Hg. pose proof Hg as (Hheap & Hfresh & Hne & _ & _ & Hcase).
  split; [|split].
  - intros a t' Ha.
    rewrite (grown_lookup_other s s' h th a name old t); [done|done| |].
    + destruct Hcase as [[Hh _]|[Hh _]]; congruence.
    + congruence.
  - intros a p Ha. destruct (decide (a = h)) as [->|Hah].
    + rewrite (grown_lookup_process s s' h th name old t) by done.
      eexists. split; [done|].
      destruct Hcase as [[Hh _]|[Hh _]]; [|congruence].
      replace p with {| name_ := name; threads_ := old |} by congruence.
      split; [done|]. by apply prefix_app_r.
    + exists p. rewrite (grown_lookup_other s s' h th a name old t);
        [done|done|done|congruence].
  - destruct Hcase as [[_ ->]|(_ & _ & ->)]; [done|]. by apply prefix_app_r.
Qed.

Lemma grown_ownership (s s' : Kernel) (h th : HANDLE) (name : string)
    (old : list HANDLE) (t : Thread) :
  grown s s' h th name old t → ownership s → ownership s'.
Proof.
  intros Hg [Hl Hnd Hne Hth Hown H0].
  pose proof Hg as (Hheap & Hfresh & Hthh & Hth0 & Hh0 & Hcase).
  pose proof (grown_lookup_thread _ _ _ _ _ _ _ Hg) as Hlt.
  pose proof (grown_lookup_process _ _ _ _ _ _ _ Hg) as Hlp.
  assert (∀ a, a ≠ h → a ≠ th → heap s' !! a = heap s !! a) as Hother.
  { intros a ??. by eapply grown_lookup_other. }
  assert (∀ a n, heap s !! a = Some n → a ≠ th) as Hold by (intros; congruence).
  assert (∀ a t', heap s !! a = Some (ThreadNode t') → a ≠ h) as Holdt.
  { intros a t' Ha ->. destruct Hcase as [[Hh _]|[Hh _]]; congruence. }
  split.
  - intros a. destruct (decide (a = h)) as [->|Hah].
    + split; [by eauto|]. intros _.
      destruct Hcase as [[Hh ->]|(_ & _ & ->)].
      * apply Hl. by eauto.
      * apply elem_of_app. right. by apply list_elem_of_singleton.
    + destruct (decide (a = th)) as [->|Hath].
      * split.
        -- intros Hin. assert (th ∈ _processes s) as Hin'.
           { destruct Hcase as [[_ Hp]|(_ & _ & Hp)]; rewrite Hp in Hin;
               [done|].
             apply elem_of_app in Hin as [?|?%list_elem_of_singleton];
               [done|congruence]. }
           apply Hl in Hin' as [p Hp]. congruence.
        -- intros [p Hp]. congruence.
      * rewrite Hother by done. rewrite <- Hl.
        destruct Hcase as [[_ ->]|(_ & _ & ->)]; [done|].
        rewrite elem_of_app, list_elem_of_singleton.
        split; [by intros [?|?]|by left].
  - destruct Hcase as [[_ ->]|(Hh & _ & ->)]; [done|].
    apply NoDup_app. split; [done|]. split; [|apply NoDup_singleton].
    intros a Ha Ha'%list_elem_of_singleton. subst a.
    apply Hl in Ha as [p Hp]. congruence.
  - intros a p Ha. destruct (decide (a = h)) as [->|Hah].
    + rewrite Hlp in Ha. injection Ha as <-. cbn. by destruct old.
    + destruct (decide (a = th)) as [->|Hath]; [congruence|].
      rewrite Hother in Ha by done. by eapply Hne.
  - intros a p x Ha Hx. destruct (decide (a = h)) as [->|Hah].
    + rewrite Hlp in Ha. injection Ha as <-. cbn in Hx.
      apply elem_of_app in Hx as [Hx|Hx%list_elem_of_singleton];
        [|subst x; by eauto].
      destruct Hcase as [[Hh _]|(_ & -> & _)];
        [|by apply elem_of_nil in Hx].
      destruct (Hth h _ x Hh Hx) as [t' Ht']. exists t'.
      rewrite Hother; [done|by eapply Holdt|by eapply Hold].
    + destruct (decide (a = th)) as [->|Hath]; [congruence|].
      rewrite Hother in Ha by done.
      destruct (Hth a p x Ha Hx) as [t' Ht']. exists t'.
      rewrite Hother; [done|by eapply Holdt|by eapply Hold].
  - intros a t' Ha. destruct (decide (a = th)) as [->|Hath].
    + exists h. eexists. split; [exact Hlp|]. cbn.
      apply elem_of_app. right. by apply list_elem_of_singleton.
    + destruct (decide (a = h)) as [->|Hah]; [congruence|].
      rewrite Hother in Ha by done.
      destruct (Hown a t' Ha) as (o & p & Ho & Hin).
      destruct (decide (o = h)) as [->|Hoh].
      * exists h. eexists. split; [exact Hlp|]. cbn.
        destruct Hcase as [[Hh _]|[Hh _]]; [|congruence].
        apply elem_of_app. left.
        by replace p with {| name_ := name; threads_ := old |} in Hin
          by congruence.
      * exists o, p. split; [|done].
        rewrite Hother; [done|done|by eapply Hold].
  - rewrite Hother by done. done.
Qed.

Lemma ownership_ext (s s' : Kernel) :
  heap s' = heap s → _processes s' = _processes s →
  ownership s → ownership s'.
Proof.
  intros Hh Hp [Hl Hnd Hne Hth Hown H0].
  split; rewrite ?Hh, ?Hp; done.
Qed.

Lemma nodes_kept_refl (s s' : Kernel) :
  heap s' = heap s → _processes s' = _processes s → nodes_kept s s'.
Proof.
  intros Hh Hp. unfold nodes_kept. rewrite Hh, Hp.
  split; [done|]. split; [|done]. intros h p Hhp. by exists p.
Qed.

Lemma ownership_new : ownership ProcessManager_new.
Proof.
  split; cbn [heap _processes ProcessManager_new].
  - intros h. split; [by intros ?%elem_of_nil|].
    intros [p Hp]. by rewrite lookup_empty in Hp.
  - apply NoDup_nil_2.
  - intros h p Hp. by rewrite lookup_empty in Hp.
  - intros h p th Hp. by rewrite lookup_empty in Hp.
  - intros th t Ht. by rewrite lookup_empty in Ht.
  - apply lookup_empty.
Qed.

Lemma ownership_step (op : Operation) (s s' : Kernel) :
  heap_bounded s →
  ownership s →
  exec op s = Ok (tt, s') →
  ownership s' ∧ nodes_kept s s'.
Proof.
  intros Hb Hown Hrun. apply exec_cases in Hrun; [|done].
  destruct op as [name priority entryPoint|this entryPoint priority parameter
                  |handle| |].
  - destruct Hrun as (_ & _ & ->).
    pose proof (after_CreateProcess_grown name priority entryPoint s Hb) as Hg.
    split; [by eapply grown_ownership|by eapply grown_nodes_kept].
  - destruct Hrun as (self & Hthis & _ & _ & ->).
    pose proof (after_AddThread_grown this self entryPoint priority parameter
                  s Hb (own_nonnull _ Hown) Hthis) as Hg.
    split; [by eapply grown_ownership|by eapply grown_nodes_kept].
  - destruct Hrun as (t & _ & _ & ->).
    split; [by apply (ownership_ext s)|by apply nodes_kept_refl].
  - destruct Hrun as (_ & _ & ->).
    pose proof (after_CreateProcess_grown "System Idle" 0 IdleThreadMain s Hb)
      as Hg.
    split.
    + eapply ownership_ext; [| |by eapply grown_ownership]; done.
    + destruct (grown_nodes_kept _ _ _ _ _ _ _ Hg) as (? & ? & ?).
      by repeat split.
  - destruct Hrun as (it & _ & ->).
    split; [by apply (ownership_ext s)|by apply nodes_kept_refl].
Qed.

Lemma reachable_ownership (s : Kernel) : reachable s → ownership s.
Proof.
  induction 1 as [|op s s' Hreach IH _ Hrun]; [apply ownership_new|].
  apply (ownership_step op s s'); [|done|done].
  by apply (inv_bounded _ _ (proj1 (reachable_wf s Hreach))).
Qed.

Lemma Kernel_switch_fatal (s : Kernel) :
  SelectNextSwitchToThread s = Fatal → Kernel_SwitchThreadContext s = Fatal.
Proof.
  intros Hsel. unfold Kernel_SwitchThreadContext, SwitchThreadContext, bind.
  by rewrite Hsel.
Qed.

Lemma switch_outcome (s : Kernel) :
  cursor_valid s → ready_are_threads s →
  (¬ has_ready s ∧ Kernel_SwitchThreadContext s = Fatal) ∨
  (has_ready s ∧ ∃ s', Kernel_SwitchThreadContext s = Ok (tt, s')).
Proof.
  intros Hc Hth. destruct (cursor_cases s Hc) as [Hno|(k & i & Hrun & Hv & Hs)].
  - destruct (fallback_cases s Hno) as [[Hf Hnr]|(p & Hp & _)].
    + left. split; [done|by apply Kernel_switch_fatal].
    + right. split; [destruct Hp as [(h & q & Hq) _]; by exists p, h, q|].
      destruct (switch_step s (Some (p, O)) Hth) as (s' & Hstep & _).
      * by apply selection_front.
      * by exists s'.
  - right. split.
    + destruct Hv as [h Hh]. cbn in Hh.
      destruct (readyThreads_ s !! k) as [[|h0 q]|] eqn:Hq; try done.
      by exists k, h0, q.
    + destruct (switch_step s (Some (k, S i)) Hth) as (s' & Hstep & _).
      * by apply selection_successor.
      * by exists s'.
Qed.

(** X5: every operation that returns keeps the ownership structure
    (the process collection lists exactly the process nodes, each once;
    every process owns at least one thread; every thread is in the thread
    list of a process; no node is at the null address), and what it leaves
    of the nodes that were there is: threads as they were, processes with
    their names and with thread lists that grew at the tail only, and a
    process collection that grew at the tail only. *)
Theorem ownership_preserved (op : Operation) (s s' : Kernel) :
  heap_bounded s →
  ownership s →
  exec op s = Ok (tt, s') →
  ownership s' ∧ nodes_kept s s'.
Proof. apply ownership_step. Qed.

(** X6: when the cursor is null or designates an entry and the
    slots hold handles of created threads, the context-switch entry point
    stops on the fatal assertion exactly when every slot is empty, and
    returns otherwise; it never dereferences a handle that names no
    thread. *)
Theorem switch_fatal_iff (s : Kernel) :
  cursor_valid s →
  ready_are_threads s →
  (Kernel_SwitchThreadContext s = Fatal ↔ ¬ has_ready s) ∧
  ((∃ s', Kernel_SwitchThreadContext s = Ok (tt, s')) ↔ has_ready s).
Proof.
  intros Hc Hth.
  destruct (switch_outcome s Hc Hth) as [[Hnr Hf]|[Hr [s' Hok]]].
  - split; split; try done. intros [s' Hok]. congruence.
  - split; split; try done; [congruence|by eauto].
Qed.

(** X7: in every state the operations lead to from the initial
    one, the context-switch entry point is defined: it stops on the fatal
    assertion when no process has been created yet, and returns as soon as
    one process exists. *)
Theorem switch_reachable (s : Kernel) :
  reachable s →
  (_processes s = [] ∧ Kernel_SwitchThreadContext s = Fatal) ∨
  (_processes s ≠ [] ∧ ∃ s', Kernel_SwitchThreadContext s = Ok (tt, s')).
Proof.
  intros Hreach.
  destruct (reachable_wf s Hreach) as [Hinv Hc].
  pose proof (reachable_ownership s Hreach) as Hown.
  pose proof (inv_threads _ _ Hinv) as Hth.
  destruct (switch_outcome s Hc Hth) as [[Hnr Hf]|[Hr Hok]].
  - left. split; [|done].
    destruct (_processes s) as [|h l] eqn:Hp; [done|].
    destruct Hnr.
    assert (h ∈ _processes s) as Hin by (rewrite Hp; apply list_elem_of_here).
    apply (own_listed _ Hown) in Hin as [p Hhp].
    pose proof (own_nonempty _ Hown h p Hhp) as Hne.
    destruct (threads_ p) as [|th l'] eqn:Hthreads; [done|].
    destruct (own_threads _ Hown h p th Hhp) as [t Ht].
    { rewrite Hthreads. apply list_elem_of_here. }
    destruct (inv_placed _ _ Hinv th t Ht) as [Hlen Hocc]; [done|].
    specialize (Hocc (N.to_nat (priority_ t))).
    rewrite decide_True in Hocc by done.
    unfold slot in Hocc.
    destruct (readyThreads_ s !! N.to_nat (priority_ t)) as [[|h0 q]|] eqn:Hq;
      [done| |done].
    by exists (N.to_nat (priority_ t)), h0, q.
  - right. split; [|done]. intros Hp.
    destruct Hr as (k & h & q & Hq).
    destruct (Hth k (h :: q) h Hq) as [t Ht]; [apply list_elem_of_here|].
    destruct (own_owned _ Hown h t Ht) as (o & p & Ho & _).
    assert (o ∈ _processes s) as Hin by (apply (own_listed _ Hown); by eauto).
    rewrite Hp in Hin. by apply elem_of_nil in Hin.
Qed.

(** X8: the handle [CreateProcess] returns names the new process.
    [GetProcess] on it returns, with the name given and a thread list of
    exactly one handle, which names a thread of the priority given. *)
Theorem GetProcess_CreateProcess (name : string) (priority : N)
    (entryPoint : ThreadMain_t) (s s' : Kernel) (h : HANDLE) :
  CreateProcess name priority entryPoint s = Ok (h, s') →
  ∃ th t,
    GetProcess h s' = Ok ({| name_ := name; threads_ := [th] |}, s') ∧
    heap s' !! th = Some (ThreadNode t) ∧
    priority_ t = priority ∧
    ctx_entryPoint (threadContext_ t) = entryPoint.
Proof.
  rewrite CreateProcess_run.
  destruct (priority <=? MAX_THREAD_PRIORITY); [|done].
  destruct (priority <? _); [|done].
  intros [= <- <-].
  set (process := N.succ (heap_top s)).
  set (thread := N.succ (process + SIZEOF_PROCESS_NODE)).
  exists thread,
    (thread_built entryPoint priority 0 (N.succ (thread + SIZEOF_THREAD_NODE))).
  split; [|split; [|done]].
  - unfold GetProcess, bind, kassert.
    replace (process =? 0) with false by (symmetry; apply N.eqb_neq; lia).
    cbn [negb]. unfold HandleToListIt_Process.
    rewrite after_CreateProcess_heap. fold process thread.
    rewrite lookup_insert_ne by lia. by rewrite lookup_insert_eq.
  - rewrite after_CreateProcess_heap. fold process thread.
    by rewrite lookup_insert_eq.
Qed.

(** X9: [Process::AddThread] on a handle that names a process.  It
    stops on a fatal assertion exactly when the priority exceeds
    [MAX_THREAD_PRIORITY] or is not below the size of the ready-queue array.
    Otherwise it returns a handle that named no node before; the thread in
    that node has the priority, entry point and parameter given; the handle
    is appended to the thread list of the process, whose name is kept, and
    to the slot of the priority; the process collection, the cursor and the
    other slots are as before. *)
Theorem Process_AddThread_spec (this : HANDLE) (self : Process)
    (entryPoint : ThreadMain_t) (priority parameter : N) (s : Kernel) :
  heap_bounded s →
  heap s !! this = Some (ProcessNode self) →
  (Process_AddThread this entryPoint priority parameter s = Fatal ↔
   MAX_THREAD_PRIORITY < priority ∨
   N.of_nat (length (readyThreads_ s)) ≤ priority) ∧
  (priority ≤ MAX_THREAD_PRIORITY →
   priority < N.of_nat (length (readyThreads_ s)) →
   ∃ th t s',
     Process_AddThread this entryPoint priority parameter s = Ok (th, s') ∧
     heap s !! th = None ∧
     heap s' !! th = Some (ThreadNode t) ∧
     priority_ t = priority ∧
     ctx_entryPoint (threadContext_ t) = entryPoint ∧
     ctx_parameter (threadContext_ t) = parameter ∧
     ctx_returnAddress (threadContext_ t) = OnThreadExit ∧
     heap s' !! this =
       Some (ProcessNode {| name_ := name_ self;
                            threads_ := threads_ self ++ [th] |}) ∧
     slot s' (N.to_nat priority) = slot s (N.to_nat priority) ++ [th] ∧
     (∀ k, k ≠ N.to_nat priority → slot s' k = slot s k) ∧
     _processes s' = _processes s ∧
     runningThread_ s' = runningThread_ s).
Proof.
  intros Hb Hthis.
  assert (this ≤ heap_top s) as Hle by by eapply Hb.
  rewrite Process_AddThread_run, Hthis by done.
  split.
  - destruct (priority <=? MAX_THREAD_PRIORITY) eqn:Hmax.
    + apply N.leb_le in Hmax.
      destruct (priority <? _) eqn:Hp.
      * apply N.ltb_lt in Hp. split; [done|lia].
      * apply N.ltb_ge in Hp. split; [by right|done].
    + apply N.leb_gt in Hmax. split; [by left|done].
  - intros Hmax Hp.
    apply N.leb_le in Hmax as Hmax'. apply N.ltb_lt in Hp as Hp'.
    rewrite Hmax', Hp'.
    set (th := N.succ (heap_top s)).
    exists th. do 2 eexists. split; [done|].
    split.
    { destruct (heap s !! th) as [n|] eqn:Hn; [|done].
      apply Hb in Hn. unfold th in Hn. lia. }
    split.
    { cbn. rewrite lookup_insert_ne by (unfold th; lia).
      by rewrite lookup_insert_eq. }
    do 4 (split; [done|]).
    split; [cbn; by rewrite lookup_insert_eq|].
    split.
    { unfold after_AddThread. rewrite slot_enqueue_eq by (cbn; lia). done. }
    split; [|done].
    intros k Hk. unfold after_AddThread. by rewrite slot_enqueue_ne.
Qed.

(** X10: [CreateProcess] stops on a fatal assertion exactly when
    the priority exceeds [MAX_THREAD_PRIORITY] or is not below the size of
    the ready-queue array, and returns otherwise: it has no undefined
    case. *)
Theorem CreateProcess_fatal_iff (name : string) (priority : N)
    (entryPoint : ThreadMain_t) (s : Kernel) :
  (CreateProcess name priority entryPoint s = Fatal ↔
   MAX_THREAD_PRIORITY < priority ∨
   N.of_nat (length (readyThreads_ s)) ≤ priority) ∧
  ((∃ h s', CreateProcess name priority entryPoint s = Ok (h, s') ∧ h ≠ 0) ↔
   priority ≤ MAX_THREAD_PRIORITY ∧
   priority < N.of_nat (length (readyThreads_ s))).
Proof.
  rewrite CreateProcess_run.
  destruct (priority <=? MAX_THREAD_PRIORITY) eqn:Hmax.
  - apply N.leb_le in Hmax. destruct (priority <? _) eqn:Hp.
    + apply N.ltb_lt in Hp. split.
      * split; [done|lia].
      * split; [done|]. intros _. do 2 eexists. split; [done|lia].
    + apply N.ltb_ge in Hp. split.
      * split; [by right|done].
      * split; [by intros (? & ? & ? & _)|lia].
  - apply N.leb_gt in Hmax. split.
    + split; [by left|done].
    + split; [by intros (? & ? & ? & _)|lia].
Qed.

(** X11: the scheduler is started once.  When an idle process is
    recorded, every operation that returns leaves the record as it is, so
    [StartScheduler] stops on its fatal assertion in the state reached. *)
Theorem started_stays_started (op : Operation) (s s' : Kernel) :
  heap_bounded s →
  idleProcess_ s ≠ 0 →
  exec op s = Ok (tt, s') →
  idleProcess_ s' = idleProcess_ s ∧ StartScheduler s' = Fatal.
Proof.
  intros Hb Hidle Hrun. apply exec_cases in Hrun; [|done].
  assert (idleProcess_ s' = idleProcess_ s) as Heq.
  { destruct op as [name priority entryPoint
                   |this entryPoint priority parameter|handle| |].
    - by destruct Hrun as (_ & _ & ->).
    - by destruct Hrun as (self & _ & _ & _ & ->).
    - by destruct Hrun as (t & _ & _ & ->).
    - by destruct Hrun as (? & _).
    - by destruct Hrun as (it & _ & ->). }
  split; [done|]. rewrite StartScheduler_run.
  replace (idleProcess_ s' =? 0) with false; [done|].
  symmetry. apply N.eqb_neq. congruence.
Qed.

End Nodes.

(** ** Starting the scheduler, then the first tick *)

Section Start.
Context `{platform : Platform}.

Lemma slot_after_StartScheduler (s : Kernel) :
  (0 < length (readyThreads_ s))%nat →
  slot (after_StartScheduler s) O = slot s O ++ [idle_thread s] ∧
  ∀ k, k ≠ O → slot (after_StartScheduler s) k = slot s k.
Proof.
  intros Hlen. split.
  - change O with (N.to_nat 0).
    apply (slot_enqueue_eq
             (emplace_thread (N.succ (heap_top s))
                {| name_ := "System Idle"; threads_ := [] |}
                IdleThreadMain 0 0 (emplace_process "System Idle" s))).
    cbn. lia.
  - intros k Hk.
    by apply (slot_enqueue_ne
                (emplace_thread (N.succ (heap_top s))
                   {| name_ := "System Idle"; threads_ := [] |}
                   IdleThreadMain 0 0 (emplace_process "System Idle" s))).
Qed.

Lemma has_ready_cases (s : Kernel) : has_ready s ∨ ¬ has_ready s.
Proof.
  destruct (scan_ready_cases (readyThreads_ s) (length (readyThreads_ s)))
    as [[_ He]|(p & h & q & _ & _ & Hq & _)].
  - right. intros (k & h & q & Hk). apply He in Hk; [done|].
    by eapply lookup_lt_Some.
  - left. by exists p, h, q.
Qed.

Lemma slot_nonempty_lookup (s : Kernel) (k : nat) (h : HANDLE) (q : list HANDLE) :
  slot s k = h :: q → readyThreads_ s !! k = Some (h :: q).
Proof.
  unfold slot. destruct (readyThreads_ s !! k) as [q'|]; [|done].
  cbn. by intros ->.
Qed.

Lemma slot_empty_lookup (s : Kernel) (k : nat) (q : list HANDLE) :
  slot s k = [] → readyThreads_ s !! k = Some q → q = [].
Proof. unfold slot. intros Hs Hq. by rewrite Hq in Hs. Qed.

(** X12: starting the scheduler and taking the first tick, from a
    state with no idle process and no running thread.  [StartScheduler]
    returns and puts the idle thread at the tail of slot 0.  If the slots
    held a thread before, the first tick selects the front of the non-empty
    slot of highest index as it was before the start, and publishes that
    thread's context: the idle thread is not the first to run, even when the
    slot is slot 0.  If every slot was empty, the first tick selects the idle
    thread. *)
Theorem start_then_first_tick (s : Kernel) :
  ready_inv s →
  idleProcess_ s = 0 →
  runningThread_ s = None →
  (0 < length (readyThreads_ s))%nat →
  ∃ s1 s2 t,
    StartScheduler s = Ok (tt, s1) ∧
    Kernel_SwitchThreadContext s1 = Ok (tt, s2) ∧
    slot s1 O = slot s O ++ [idle_thread s] ∧
    heap s1 !! idle_thread s = Some (ThreadNode t) ∧
    priority_ t = 0 ∧ ctx_entryPoint (threadContext_ t) = IdleThreadMain ∧
    (∀ p h, highest_nonempty s p → head (slot s p) = Some h →
            runningThread_ s2 = Some (p, O) ∧
            g_CurrentThreadContext s2 = context_address h) ∧
    (¬ has_ready s →
     runningThread_ s2 = Some (O, O) ∧
     g_CurrentThreadContext s2 = context_address (idle_thread s)).
Proof.
  intros Hinv Hidle Hrun Hlen.
  set (s1 := after_StartScheduler s).
  assert (StartScheduler s = Ok (tt, s1)) as Hstart.
  { rewrite StartScheduler_run, Hidle.
    apply Nat.ltb_lt in Hlen. by rewrite Hlen. }
  destruct (StartScheduler_inv s s1 Hinv Hstart) as (Hinv1 & _ & Hrun1).
  pose proof (inv_threads _ _ Hinv1) as Hth1.
  destruct (slot_after_StartScheduler s Hlen) as [Hs0 Hsk]. fold s1 in Hs0, Hsk.
  (* the slot the first tick selects from *)
  assert (∃ p, highest_nonempty s1 p ∧
               (∀ p' h, highest_nonempty s p' → head (slot s p') = Some h →
                        p = p' ∧ head (slot s1 p) = Some h) ∧
               (¬ has_ready s → p = O ∧ head (slot s1 p) = Some (idle_thread s)))
    as (p & Hp & Hsome & Hnone).
  { destruct (has_ready_cases s) as [Hr|Hnr].
    - destruct (has_ready_highest s Hr) as [p [(h & q & Hq) Hhi]].
      assert (highest_nonempty s p) as Hp by (split; by eauto).
      exists p. split; [|split; [|done]].
      + split.
        * destruct (decide (p = O)) as [->|Hne].
          -- exists h, (q ++ [idle_thread s]).
             apply slot_nonempty_lookup. rewrite Hs0.
             unfold slot. by rewrite Hq.
          -- exists h, q. apply slot_nonempty_lookup. rewrite Hsk by done.
             unfold slot. by rewrite Hq.
        * intros k q' Hk Hq'.
          assert (slot s1 k = q') as <- by (unfold slot; by rewrite Hq').
          rewrite Hsk by lia. unfold slot.
          destruct (readyThreads_ s !! k) as [q0|] eqn:Hq0; [|done].
          cbn. by eapply Hhi.
      + intros p' h' Hp' Hh'.
        assert (p = p') as <- by by eapply highest_nonempty_unique.
        split; [done|].
        destruct (decide (p = O)) as [->|Hne].
        * rewrite Hs0. by destruct (slot s O).
        * by rewrite Hsk.
    - assert (∀ k, slot s k = []) as Hempty.
      { intros k. unfold slot.
        destruct (readyThreads_ s !! k) as [[|h q]|] eqn:Hq; try done.
        destruct Hnr. by exists k, h, q. }
      exists O. split; [|split].
      + split.
        * exists (idle_thread s), []. apply slot_nonempty_lookup.
          by rewrite Hs0, Hempty.
        * intros k q' Hk Hq'.
          assert (slot s1 k = q') as <- by (unfold slot; by rewrite Hq').
          rewrite Hsk by lia. apply Hempty.
      + intros p' h' _ Hh'. by rewrite Hempty in Hh'.
      + intros _. split; [done|]. by rewrite Hs0, Hempty. }
  assert (selection s1 (Some (p, O))) as Hsel.
  { apply selection_front; [|done]. left. congruence. }
  destruct (switch_step s1 _ Hth1 Hsel)
    as (s2 & Hstep & Hrun2 & Hsw & (h2 & Hh2 & Hctx)).
  assert (head (slot s1 p) = Some h2) as Hhead.
  { rewrite Hrun2 in Hh2. destruct Hsw as (_ & _ & _ & Hrt & _).
    rewrite Hrt, entry_at_slot in Hh2. by destruct (slot s1 p). }
  exists s1, s2,
    (thread_built IdleThreadMain 0 0 (N.succ (idle_thread s + SIZEOF_THREAD_NODE))).
  do 3 (split; [done|]).
  split.
  { unfold s1, after_StartScheduler.
    cbn [heap set_archTrace set_idleProcess].
    rewrite after_CreateProcess_heap. apply lookup_insert_eq. }
  do 2 (split; [done|]).
  split.
  - intros p' h Hp' Hh.
    destruct (Hsome p' h Hp' Hh) as [<- Hh1].
    split; [done|]. congruence.
  - intros Hnr. destruct (Hnone Hnr) as [-> Hh1].
    split; [done|]. congruence.
Qed.

End Start.

(** ** The further properties on the sample run *)

Lemma sample_started_reachable : @reachable sample_platform sample_started.
Proof.
  set (s0 := @ProcessManager_new sample_platform).
  set (s1 := state_after (@CreateProcess sample_platform "A" 3 (EntryAt 100)) s0).
  set (s2 := state_after (@CreateProcess sample_platform "B" 3 (EntryAt 200)) s1).
  assert (@reachable sample_platform s1) as H1.
  { apply (reachable_step (OpCreateProcess "A" 3 (EntryAt 100)) s0);
      [apply reachable_new|done|vm_compute; reflexivity]. }
  assert (@reachable sample_platform s2) as H2.
  { apply (reachable_step (OpCreateProcess "B" 3 (EntryAt 200)) s1);
      [done|done|vm_compute; reflexivity]. }
  apply (reachable_step OpStartScheduler s2);
    [done|done|vm_compute; reflexivity].
Qed.

Lemma sample_running_A_threads : ready_are_threads sample_running_A.
Proof.
  apply (inv_threads None).
  apply (ready_inv_but_ext None sample_started);
    [vm_compute; reflexivity..|apply sample_started_inv].
Qed.

Lemma sample_created_inv : ready_inv sample_created.
Proof.
  refine (proj1 (CreateProcess_inv (platform := sample_platform)
                   "A" 3 (EntryAt 100) (@ProcessManager_new sample_platform)
                   sample_created 1 _ _)).
  - apply ready_inv_new.
  - vm_compute. reflexivity.
Qed.

Lemma round_robin_advance_witness :
  ∃ s', @switch_n sample_platform 1 sample_running_A = Ok (tt, s') ∧
        runningThread_ s' = Some (3, 1)%nat.
Proof.
  destruct (round_robin_advance (platform := sample_platform)
              1 sample_running_A 3 0)
    as (s' & Hrun & Hcur & _).
  - apply sample_running_A_threads.
  - vm_compute. reflexivity.
  - vm_compute. lia.
  - exists s'. split; [exact Hrun|exact Hcur].
Defined.

Lemma round_robin_top_slot_witness :
  ∃ s', @switch_n sample_platform 5 sample_running_A = Ok (tt, s') ∧
        runningThread_ s' = Some (3, 1)%nat.
Proof.
  destruct (round_robin_top_slot (platform := sample_platform)
              5 sample_running_A 3 0)
    as (s' & Hrun & Hcur & _).
  - apply sample_running_A_threads.
  - apply scan_highest_nonempty. vm_compute. reflexivity.
  - vm_compute. reflexivity.
  - vm_compute. lia.
  - exists s'. split; [exact Hrun|exact Hcur].
Defined.

Lemma round_robin_from_start_witness :
  ∃ s', @switch_n sample_platform 3 sample_started = Ok (tt, s') ∧
        runningThread_ s' = Some (3, 0)%nat.
Proof.
  destruct (round_robin_from_start (platform := sample_platform)
              2 sample_started 3)
    as (s' & Hrun & Hcur & _).
  - apply (inv_threads _ _ sample_started_inv).
  - apply scan_highest_nonempty. vm_compute. reflexivity.
  - vm_compute. reflexivity.
  - exists s'. split; [exact Hrun|exact Hcur].
Defined.

Lemma higher_slot_latency_witness :
  (∃ s1, @switch_n sample_platform 1 sample_running_A = Ok (tt, s1) ∧
         runningThread_ s1 = Some (3, 1)%nat) ∧
  ∃ s', @switch_n sample_platform 2 sample_running_A = Ok (tt, s') ∧
        runningThread_ s' = Some (3, 0)%nat.
Proof.
  destruct (higher_slot_latency (platform := sample_platform)
              sample_running_A 3 0 3)
    as (Hrest & s' & Hrun & Hcur & _).
  - apply sample_running_A_threads.
  - apply scan_highest_nonempty. vm_compute. reflexivity.
  - vm_compute. reflexivity.
  - vm_compute. lia.
  - split.
    + destruct (Hrest 1%nat) as (s1 & Hrun1 & Hcur1 & _); [vm_compute; lia|].
      exists s1. split; [exact Hrun1|exact Hcur1].
    + exists s'. split; [exact Hrun|exact Hcur].
Defined.

Lemma ownership_preserved_witness :
  ownership (state_after (@exec sample_platform
                            (OpCreateProcess "C" 5 (EntryAt 300)))
               sample_started).
Proof.
  refine (proj1 (ownership_preserved (platform := sample_platform)
                   (OpCreateProcess "C" 5 (EntryAt 300)) sample_started _
                   _ _ _)).
  - apply (inv_bounded _ _ sample_started_inv).
  - apply (reachable_ownership (platform := sample_platform)).
    apply sample_started_reachable.
  - vm_compute. reflexivity.
Defined.

Lemma switch_fatal_iff_witness :
  ∃ s', @Kernel_SwitchThreadContext sample_platform sample_started = Ok (tt, s').
Proof.
  apply (proj2 (switch_fatal_iff (platform := sample_platform) sample_started
                  (or_introl eq_refl)
                  (inv_threads _ _ sample_started_inv))).
  exists 3%nat, 66, [4357]. vm_compute. reflexivity.
Defined.

Lemma switch_reachable_witness :
  (_processes sample_started = [] ∧
   @Kernel_SwitchThreadContext sample_platform sample_started = Fatal) ∨
  (_processes sample_started ≠ [] ∧
   ∃ s', @Kernel_SwitchThreadContext sample_platform sample_started = Ok (tt, s')).
Proof.
  exact (switch_reachable (platform := sample_platform) sample_started
           sample_started_reachable).
Defined.

Lemma GetProcess_CreateProcess_witness :
  ∃ th, GetProcess 1 sample_created =
          Ok ({| name_ := "A"; threads_ := [th] |}, sample_created).
Proof.
  destruct (GetProcess_CreateProcess (platform := sample_platform)
              "A" 3 (EntryAt 100) (@ProcessManager_new sample_platform)
              sample_created 1)
    as (th & t & Hget & _).
  - vm_compute. reflexivity.
  - exists th. exact Hget.
Defined.

Lemma Process_AddThread_spec_witness :
  ∃ th s', @Process_AddThread sample_platform 1 (EntryAt 500) 7 42
             sample_started = Ok (th, s') ∧
           heap s' !! 1 =
             Some (ProcessNode {| name_ := "A"; threads_ := [66; th] |}) ∧
           slot s' 7 = [th].
Proof.
  destruct (proj2 (Process_AddThread_spec (platform := sample_platform)
                     1 {| name_ := "A"; threads_ := [66] |} (EntryAt 500) 7 42
                     sample_started
                     (inv_bounded _ _ sample_started_inv) eq_refl))
    as (th & t & s' & Hrun & _ & _ & _ & _ & _ & _ & Hp & Hslot & _).
  - vm_compute. discriminate.
  - vm_compute. reflexivity.
  - exists th, s'. split; [exact Hrun|]. split; [exact Hp|exact Hslot].
Defined.

Lemma started_stays_started_witness :
  @StartScheduler sample_platform
    (state_after (@exec sample_platform (OpCreateProcess "C" 5 (EntryAt 300)))
       sample_started) = Fatal.
Proof.
  refine (proj2 (started_stays_started (platform := sample_platform)
                   (OpCreateProcess "C" 5 (EntryAt 300)) sample_started _
                   _ _ _)).
  - apply (inv_bounded _ _ sample_started_inv).
  - vm_compute. discriminate.
  - vm_compute. reflexivity.
Defined.

Lemma start_then_first_tick_witness :
  ∃ s1 s2, @StartScheduler sample_platform sample_created = Ok (tt, s1) ∧
           @Kernel_SwitchThreadContext sample_platform s1 = Ok (tt, s2) ∧
           runningThread_ s2 = Some (3, 0)%nat ∧
           g_CurrentThreadContext s2 = @context_address sample_platform 66.
Proof.
  destruct (start_then_first_tick (platform := sample_platform) sample_created)
    as (s1 & s2 & t & Hstart & Htick & _ & _ & _ & _ & Hsome & _).
  - apply sample_created_inv.
  - vm_compute. reflexivity.
  - vm_compute. reflexivity.
  - vm_compute. lia.
  - exists s1, s2. split; [exact Hstart|]. split; [exact Htick|].
    apply (Hsome 3%nat 66).
    + apply scan_highest_nonempty. vm_compute. reflexivity.
    + vm_compute. reflexivity.
Defined.

(** * Graphics *)

(** ** Bytes in buffers *)

Lemma splice_length (b : list byte) (off : N) (bs : list byte) :
  off + N.of_nat (length bs) ≤ N.of_nat (length b) →
  length (splice b off bs) = length b.
Proof.
  intros Hle. unfold splice.
  rewrite !length_app, length_take, length_drop. lia.
Qed.

Lemma splice_lookup_in (b : list byte) (off : N) (bs : list byte) (x : nat) :
  off + N.of_nat (length bs) ≤ N.of_nat (length b) →
  (x < length bs)%nat →
  splice b off bs !! (N.to_nat off + x)%nat = bs !! x.
Proof.
  intros Hle Hx. unfold splice.
  rewrite lookup_app_r by (rewrite length_take; lia).
  rewrite length_take.
  replace (N.to_nat off + x - N.to_nat off `min` length b)%nat with x by lia.
  by rewrite lookup_app_l.
Qed.

Lemma splice_lookup_out (b : list byte) (off : N) (bs : list byte) (a : nat) :
  off + N.of_nat (length bs) ≤ N.of_nat (length b) →
  (a < N.to_nat off ∨ N.to_nat off + length bs ≤ a)%nat →
  splice b off bs !! a = b !! a.
Proof.
  intros Hle Ha. unfold splice. destruct Ha as [Ha|Ha].
  - rewrite lookup_app_l by (rewrite length_take; lia).
    by rewrite lookup_take_lt.
  - rewrite lookup_app_r by (rewrite length_take; lia).
    rewrite length_take.
    rewrite lookup_app_r by lia.
    rewrite lookup_drop. f_equal. lia.
Qed.

Lemma read_bytes_Some (m : Memory) (p : ptr) (n : N) (b : list byte) :
  buffers m !! ptr_buffer p = Some b →
  ptr_offset p + n ≤ N.of_nat (length b) →
  ∃ bs, read_bytes m p n = Some bs ∧ length bs = N.to_nat n ∧
        ∀ x, (x < N.to_nat n)%nat →
             bs !! x = b !! (N.to_nat (ptr_offset p) + x)%nat.
Proof.
  intros Hb Hle. eexists. split; [|split].
  - unfold read_bytes. rewrite Hb. cbn.
    apply N.leb_le in Hle. by rewrite Hle.
  - rewrite length_take, length_drop. lia.
  - intros x Hx. rewrite lookup_take_lt by done. by rewrite lookup_drop.
Qed.

Lemma read_bytes_None (m : Memory) (p : ptr) (n : N) (b : list byte) :
  buffers m !! ptr_buffer p = Some b →
  N.of_nat (length b) < ptr_offset p + n →
  read_bytes m p n = None.
Proof.
  intros Hb Hlt. unfold read_bytes. rewrite Hb. cbn.
  apply N.leb_gt in Hlt. by rewrite Hlt.
Qed.

(** One [std::copy] between two different buffers. *)
Lemma std_copy_across (m : Memory) (first out : ptr) (n : N)
    (sb db : list byte) :
  ptr_buffer first ≠ ptr_buffer out →
  buffers m !! ptr_buffer first = Some sb →
  buffers m !! ptr_buffer out = Some db →
  ptr_offset first + n ≤ N.of_nat (length sb) →
  ptr_offset out + n ≤ N.of_nat (length db) →
  ∃ db',
    std_copy first n out m =
      Returns (tt, {| buffers := <[ptr_buffer out := db']> (buffers m);
                      next_buffer := next_buffer m |}) ∧
    length db' = length db ∧
    (∀ x, (x < N.to_nat n)%nat →
          db' !! (N.to_nat (ptr_offset out) + x)%nat =
          sb !! (N.to_nat (ptr_offset first) + x)%nat) ∧
    (∀ a, (a < N.to_nat (ptr_offset out) ∨
           N.to_nat (ptr_offset out) + N.to_nat n ≤ a)%nat →
          db' !! a = db !! a).
Proof.
  intros Hne Hsb Hdb Hs Hd.
  destruct (read_bytes_Some m first n sb Hsb Hs) as (bs & Hread & Hlen & Hbs).
  exists (splice db (ptr_offset out) bs).
  assert (ptr_offset out + N.of_nat (length bs) ≤ N.of_nat (length db)) as Hd'
    by lia.
  split; [|split; [|split]].
  - unfold std_copy. rewrite bool_decide_eq_false_2 by done. cbn [andb].
    rewrite Hread. unfold write_bytes. rewrite Hdb. cbn.
    apply N.leb_le in Hd'. by rewrite Hd'.
  - by apply splice_length.
  - intros x Hx. rewrite splice_lookup_in by lia. by apply Hbs.
  - intros a Ha. apply splice_lookup_out; [done|lia].
Qed.

Lemma std_copy_out_of_bounds (m : Memory) (first out : ptr) (n : N)
    (sb db : list byte) :
  buffers m !! ptr_buffer first = Some sb →
  buffers m !! ptr_buffer out = Some db →
  N.of_nat (length sb) < ptr_offset first + n ∨
  N.of_nat (length db) < ptr_offset out + n →
  std_copy first n out m = UndefinedBehaviour.
Proof.
  intros Hsb Hdb Hout. unfold std_copy.
  destruct (_ && _ && _); [done|].
  destruct (decide (ptr_offset first + n ≤ N.of_nat (length sb))) as [Hs|Hs].
  - destruct (read_bytes_Some m first n sb Hsb Hs) as (bs & -> & Hlen & _).
    unfold write_bytes. rewrite Hdb. cbn.
    replace (_ <=? _) with false; [done|].
    symmetry. apply N.leb_gt. lia.
  - rewrite (read_bytes_None m first n sb); [done|done|lia].
Qed.

(** ** [CopyBits] between two buffers *)

Section CopyRows.
Variables (src dest : ptr) (srcStride destStride lineSize : N).
Variable sb : list byte.
Hypothesis Hdistinct : ptr_buffer src ≠ ptr_buffer dest.
Hypothesis Hsb_size : N.of_nat (length sb) < 2 ^ 64.

Lemma CopyBits_rows_copies (rows : nat) (y0 : N) (m : Memory) (db : list byte) :
  buffers m !! ptr_buffer src = Some sb →
  buffers m !! ptr_buffer dest = Some db →
  N.of_nat (length db) < 2 ^ 64 →
  rows_within src srcStride dest destStride lineSize sb y0 rows db →
  ∃ db',
    CopyBits_rows rows y0 src srcStride dest destStride lineSize m =
      Returns (tt, {| buffers := <[ptr_buffer dest := db']> (buffers m);
                      next_buffer := next_buffer m |}) ∧
    length db' = length db ∧
    (lineSize ≤ destStride →
     ∀ y x, y0 ≤ y < y0 + N.of_nat rows → x < lineSize →
            db' !! N.to_nat (ptr_offset dest + y * destStride + x) =
            sb !! N.to_nat (ptr_offset src + y * srcStride + x)) ∧
    (∀ a, (∀ y, y0 ≤ y < y0 + N.of_nat rows →
                a < ptr_offset dest + y * destStride ∨
                ptr_offset dest + y * destStride + lineSize ≤ a) →
          db' !! N.to_nat a = db !! N.to_nat a).
Proof.
  revert y0 m db. induction rows as [|rows IH]; intros y0 m db Hsb Hdb Hsz Hin.
  - exists db. split; [|split; [done|split]].
    + cbn. unfold gret. do 2 f_equal. destruct m as [bufs nb]. cbn in *.
      f_equal. by rewrite insert_id.
    + intros _ y x Hy. lia.
    + done.
  - destruct (Hin y0) as [Hs0 Hd0]; [lia|].
    assert (size_t (y0 * srcStride) = y0 * srcStride) as Hws
      by (apply N.mod_small; lia).
    assert (size_t (y0 * destStride) = y0 * destStride) as Hwd
      by (apply N.mod_small; lia).
    destruct (std_copy_across m (ptr_add src (y0 * srcStride))
                (ptr_add dest (y0 * destStride)) lineSize sb db)
      as (db1 & Hcopy & Hlen1 & Hrow & Hframe); [done|done|done|cbn; lia..|].
    cbn [ptr_add ptr_buffer] in Hcopy.
    set (m1 := {| buffers := <[ptr_buffer dest := db1]> (buffers m);
                  next_buffer := next_buffer m |}).
    destruct (IH (y0 + 1) m1 db1) as (db' & Hrest & Hlen' & Hrows' & Hframe').
    + cbn. by rewrite lookup_insert_ne.
    + cbn. by rewrite lookup_insert_eq.
    + by rewrite Hlen1.
    + intros y Hy. rewrite Hlen1. apply Hin. lia.
    + exists db'. split; [|split; [congruence|split]].
      * cbn [CopyBits_rows]. unfold gbind. rewrite Hws, Hwd, Hcopy.
        unfold m1 in Hrest. rewrite Hrest. cbn. by rewrite insert_insert_eq.
      * intros Hrows_apart y x Hy Hx. destruct (decide (y = y0)) as [->|Hne].
        -- rewrite Hframe'.
           ++ specialize (Hrow (N.to_nat x)). cbn in Hrow.
              replace (N.to_nat (ptr_offset dest + y0 * destStride + x))
                with (N.to_nat (ptr_offset dest + y0 * destStride) + N.to_nat x)%nat
                by lia.
              replace (N.to_nat (ptr_offset src + y0 * srcStride + x))
                with (N.to_nat (ptr_offset src + y0 * srcStride) + N.to_nat x)%nat
                by lia.
              apply Hrow. lia.
           ++ intros y' Hy'. left.
              assert ((y0 + 1) * destStride ≤ y' * destStride)
                by (apply N.mul_le_mono_r; lia).
              lia.
        -- apply Hrows'; [done|lia|done].
      * intros a Ha. rewrite Hframe'.
        -- apply Hframe. cbn. destruct (Ha y0); lia.
        -- intros y Hy. apply Ha. lia.
Qed.

(** A row outside either buffer makes the copy undefined. *)
Lemma CopyBits_rows_out_of_bounds (rows : nat) (y0 : N) (m : Memory)
    (db : list byte) (y : N) :
  buffers m !! ptr_buffer src = Some sb →
  buffers m !! ptr_buffer dest = Some db →
  N.of_nat (length db) < 2 ^ 64 →
  y0 ≤ y < y0 + N.of_nat rows →
  rows_within src srcStride dest destStride lineSize sb y0
    (N.to_nat (y - y0)) db →
  y * srcStride < 2 ^ 64 → y * destStride < 2 ^ 64 →
  N.of_nat (length sb) < ptr_offset src + y * srcStride + lineSize ∨
  N.of_nat (length db) < ptr_offset dest + y * destStride + lineSize →
  CopyBits_rows rows y0 src srcStride dest destStride lineSize m =
    UndefinedBehaviour.
Proof.
  revert y0 m db. induction rows as [|rows IH];
    intros y0 m db Hsb Hdb Hsz Hy Hin Hws Hwd Hout; [lia|].
  cbn [CopyBits_rows]. unfold gbind.
  destruct (decide (y = y0)) as [->|Hne].
  - unfold size_t. rewrite !N.mod_small by done.
    rewrite (std_copy_out_of_bounds m _ _ lineSize sb db); [done|done|done|].
    cbn. lia.
  - destruct (Hin y0) as [Hs0 Hd0]; [lia|].
    assert (size_t (y0 * srcStride) = y0 * srcStride) as Hws0
      by (apply N.mod_small; lia).
    assert (size_t (y0 * destStride) = y0 * destStride) as Hwd0
      by (apply N.mod_small; lia).
    destruct (std_copy_across m (ptr_add src (y0 * srcStride))
                (ptr_add dest (y0 * destStride)) lineSize sb db)
      as (db1 & Hcopy & Hlen1 & _); [done|done|done|cbn; lia..|].
    cbn [ptr_add ptr_buffer] in Hcopy.
    rewrite Hws0, Hwd0, Hcopy.
    apply (IH (y0 + 1) _ db1).
    + cbn. by rewrite lookup_insert_ne.
    + cbn. by rewrite lookup_insert_eq.
    + by rewrite Hlen1.
    + lia.
    + intros y' Hy'. rewrite Hlen1. apply Hin. lia.
    + done.
    + done.
    + by rewrite Hlen1.
Qed.

End CopyRows.

Lemma rows_within_cases (src : ptr) (srcStride : N) (dest : ptr)
    (destStride lineSize : N) (sb db : list byte) (n : nat) :
  rows_within src srcStride dest destStride lineSize sb 0 n db ∨
  ∃ y, y < N.of_nat n ∧
       rows_within src srcStride dest destStride lineSize sb 0 (N.to_nat y) db ∧
       (N.of_nat (length sb) < ptr_offset src + y * srcStride + lineSize ∨
        N.of_nat (length db) < ptr_offset dest + y * destStride + lineSize).
Proof.
  induction n as [|n [IH|(y & Hy & Hin & Hout)]].
  - left. intros y Hy. lia.
  - set (y := N.of_nat n).
    destruct (decide (ptr_offset src + y * srcStride + lineSize
                      ≤ N.of_nat (length sb))) as [Hs|Hs].
    + destruct (decide (ptr_offset dest + y * destStride + lineSize
                        ≤ N.of_nat (length db))) as [Hd|Hd].
      * left. intros y' Hy'. destruct (decide (y' = y)) as [->|Hne]; [done|].
        apply IH. lia.
      * right. exists y. split; [lia|]. split; [|lia].
        unfold y. by rewrite Nat2N.id.
    + right. exists y. split; [lia|]. split; [|lia].
      unfold y. by rewrite Nat2N.id.
  - right. exists y. split; [lia|done].
Qed.

(** X13: [CopyBits] between two different buffers, when every row
    read and every row written lies inside its buffer.  It returns and
    changes the destination buffer only, keeping its length.  The bytes
    outside the rows written are as before.  When the rows written do not
    overlap ([lineSize ≤ destStride]), byte [x] of row [y] of the
    destination is byte [x] of row [y] of the source. *)
Theorem CopyBits_copies (src dest : ptr)
    (srcStride destStride lineSize height : N) (m : Memory)
    (sb db : list byte) :
  ptr_buffer src ≠ ptr_buffer dest →
  buffers m !! ptr_buffer src = Some sb →
  buffers m !! ptr_buffer dest = Some db →
  N.of_nat (length sb) < 2 ^ 64 →
  N.of_nat (length db) < 2 ^ 64 →
  (∀ y, y < height →
        ptr_offset src + y * srcStride + lineSize ≤ N.of_nat (length sb) ∧
        ptr_offset dest + y * destStride + lineSize ≤ N.of_nat (length db)) →
  ∃ db',
    CopyBits src srcStride dest destStride lineSize height m =
      Returns (tt, {| buffers := <[ptr_buffer dest := db']> (buffers m);
                      next_buffer := next_buffer m |}) ∧
    length db' = length db ∧
    (lineSize ≤ destStride →
     ∀ y x, y < height → x < lineSize →
            db' !! N.to_nat (ptr_offset dest + y * destStride + x) =
            sb !! N.to_nat (ptr_offset src + y * srcStride + x)) ∧
    (∀ a, (∀ y, y < height →
                a < ptr_offset dest + y * destStride ∨
                ptr_offset dest + y * destStride + lineSize ≤ a) →
          db' !! N.to_nat a = db !! N.to_nat a).
Proof.
  intros Hne Hsb Hdb Hss Hds Hin.
  destruct (CopyBits_rows_copies src dest srcStride destStride lineSize sb
              Hne Hss (N.to_nat height) 0 m db Hsb Hdb Hds)
    as (db' & Hrun & Hlen & Hrows & Hframe).
  { intros y Hy. apply Hin. lia. }
  exists db'. split; [done|]. split; [done|]. split.
  - intros Happ y x Hy Hx. apply Hrows; [done|lia|done].
  - intros a Ha. apply Hframe. intros y Hy. apply Ha. lia.
Qed.

(** X14: [CopyBits] checks no bounds.  Between two different
    buffers, with offsets that do not wrap, it is undefined as soon as one
    row among the [height] rows reaches outside the source or the
    destination buffer, and it returns otherwise. *)
Theorem CopyBits_defined_iff (src dest : ptr)
    (srcStride destStride lineSize height : N) (m : Memory)
    (sb db : list byte) :
  ptr_buffer src ≠ ptr_buffer dest →
  buffers m !! ptr_buffer src = Some sb →
  buffers m !! ptr_buffer dest = Some db →
  N.of_nat (length sb) < 2 ^ 64 →
  N.of_nat (length db) < 2 ^ 64 →
  height * srcStride < 2 ^ 64 →
  height * destStride < 2 ^ 64 →
  ((∃ m', CopyBits src srcStride dest destStride lineSize height m =
            Returns (tt, m')) ↔
   (∀ y, y < height →
         ptr_offset src + y * srcStride + lineSize ≤ N.of_nat (length sb) ∧
         ptr_offset dest + y * destStride + lineSize ≤ N.of_nat (length db))) ∧
  (CopyBits src srcStride dest destStride lineSize height m =
     UndefinedBehaviour ↔
   ∃ y, y < height ∧
        (N.of_nat (length sb) < ptr_offset src + y * srcStride + lineSize ∨
         N.of_nat (length db) < ptr_offset dest + y * destStride + lineSize)).
Proof.
  intros Hne Hsb Hdb Hss Hds Hws Hwd.
  destruct (rows_within_cases src srcStride dest destStride lineSize sb db
              (N.to_nat height)) as [Hin|(y & Hy & Hin & Hout)].
  - destruct (CopyBits_rows_copies src dest srcStride destStride lineSize sb
                Hne Hss (N.to_nat height) 0 m db Hsb Hdb Hds Hin)
      as (db' & Hrun & _).
    unfold CopyBits. rewrite Hrun. split; split.
    + intros _ y Hy. apply Hin. lia.
    + intros _. by eexists.
    + done.
    + intros (y & Hy & Hout). destruct (Hin y); lia.
  - assert (y * srcStride < 2 ^ 64) as Hys.
    { assert (y * srcStride ≤ height * srcStride)
        by (apply N.mul_le_mono_r; lia). lia. }
    assert (y * destStride < 2 ^ 64) as Hyd.
    { assert (y * destStride ≤ height * destStride)
        by (apply N.mul_le_mono_r; lia). lia. }
    pose proof (CopyBits_rows_out_of_bounds src dest srcStride destStride
                  lineSize sb Hne Hss (N.to_nat height) 0 m db y Hsb Hdb Hds)
      as Hub.
    unfold CopyBits. rewrite Hub; [|lia|by rewrite N.sub_0_r|done|done|done].
    split; split.
    + by intros [m' ?].
    + intros Hall. destruct (Hall y); lia.
    + intros _. exists y. split; [lia|done].
    + done.
Qed.

(** ** Surfaces and [Lock] *)

Lemma last_row_index (bottom : N) :
  1 ≤ bottom → bottom ≤ 2 ^ 31 →
  size_t_of_Z (int32_t (uint32_t_wrap (bottom + 2 ^ 32 - 1))) = bottom - 1.
Proof.
  intros H1 H2. unfold uint32_t_wrap.
  replace (bottom + 2 ^ 32 - 1) with (bottom - 1 + 1 * 2 ^ 32) by lia.
  rewrite N.Div0.mod_add, N.mod_small by lia.
  unfold int32_t. rewrite N.mod_small by lia.
  replace (Z.of_N (bottom - 1) <? 2 ^ 31)%Z with true
    by (symmetry; apply Z.ltb_lt; lia).
  unfold size_t_of_Z. rewrite Z.mod_small by lia. lia.
Qed.

Lemma no_row_index :
  size_t_of_Z (int32_t (uint32_t_wrap (0 + 2 ^ 32 - 1))) = 2 ^ 64 - 1.
Proof. vm_compute. reflexivity. Qed.

(** Beyond row [2 ^ 31] the cast to [int32_t] gives a negative row index,
    which the multiplication with the stride turns into a huge [size_t]. *)
Lemma tall_row_index (bottom : N) :
  2 ^ 31 < bottom → bottom < 2 ^ 32 →
  size_t_of_Z (int32_t (uint32_t_wrap (bottom + 2 ^ 32 - 1)))
  = 2 ^ 64 - (2 ^ 32 - (bottom - 1)).
Proof.
  intros H1 H2. unfold uint32_t_wrap.
  replace (bottom + 2 ^ 32 - 1) with (bottom - 1 + 1 * 2 ^ 32) by lia.
  rewrite N.Div0.mod_add, N.mod_small by lia.
  unfold int32_t. rewrite N.mod_small by lia.
  replace (Z.of_N (bottom - 1) <? 2 ^ 31)%Z with false
    by (symmetry; apply Z.ltb_ge; lia).
  unfold size_t_of_Z.
  replace (Z.of_N (bottom - 1) - 2 ^ 32)%Z
    with (Z.of_N (bottom - 1) - 2 ^ 32 + 2 ^ 64 + (-1) * 2 ^ 64)%Z by lia.
  rewrite Z.mod_add by lia. rewrite Z.mod_small by lia. lia.
Qed.

(** The offsets [Lock] computes for a rectangle inside the surface that has
    a row. *)
Lemma lock_offsets (m : Memory) (surface : SoftwareSurface) (pixelBytes : N)
    (b : list byte) (rect : RectU) :
  surface_over m surface pixelBytes b →
  rect_inside surface rect →
  Top rect < Bottom rect →
  lock_begin surface pixelBytes rect ≤ lock_end surface pixelBytes rect ∧
  lock_end surface pixelBytes rect ≤ span_size_bytes (data_ surface) ∧
  ∀ y, y < Bottom rect - Top rect →
       lock_begin surface pixelBytes rect + y * stride_ surface +
       pixelBytes * (Right rect - Left rect)
       ≤ lock_end surface pixelBytes rect.
Proof.
  intros [_ _ Hspan Hsmall Hrow Hrows] (HLR & HRW & _ & HBH) HTB.
  unfold lock_begin, lock_end.
  assert (Top rect * stride_ surface ≤ (Bottom rect - 1) * stride_ surface)
    by (apply N.mul_le_mono_r; lia).
  assert (pixelBytes * Left rect ≤ pixelBytes * Right rect)
    by (apply N.mul_le_mono_l; lia).
  assert (pixelBytes * Right rect ≤ pixelBytes * Width (size_ surface))
    by (apply N.mul_le_mono_l; lia).
  assert (stride_ surface * Bottom rect
          ≤ stride_ surface * Height (size_ surface))
    by (apply N.mul_le_mono_l; lia).
  assert ((Bottom rect - 1) * stride_ surface + stride_ surface
          = stride_ surface * Bottom rect) by nia.
  split; [lia|]. split; [lia|].
  intros y Hy.
  assert ((Top rect + y) * stride_ surface ≤ (Bottom rect - 1) * stride_ surface)
    by (apply N.mul_le_mono_r; lia).
  assert (pixelBytes * (Right rect - Left rect)
          = pixelBytes * Right rect - pixelBytes * Left rect)
    by (rewrite N.mul_sub_distr_l; done).
  lia.
Qed.

Lemma Lock_inside (m : Memory) (surface : SoftwareSurface) (pixelBytes : N)
    (b : list byte) (rect : RectU) :
  surface_over m surface pixelBytes b →
  rect_inside surface rect →
  Top rect < Bottom rect →
  Bottom rect ≤ 2 ^ 31 →
  Lock surface rect m = Returns (locked surface pixelBytes rect, m).
Proof.
  intros Hso Hin HTB HB31.
  destruct (lock_offsets m surface pixelBytes b rect Hso Hin HTB)
    as (Hbe & Hes & _).
  pose proof Hso as [Hfmt _ Hspan Hsmall _ _].
  unfold Lock, gbind. rewrite Hfmt. unfold gret.
  rewrite last_row_index by lia.
  fold (lock_begin surface pixelBytes rect).
  fold (lock_end surface pixelBytes rect).
  unfold size_t. rewrite !N.mod_small by lia.
  replace (span_size_bytes (data_ surface) <? lock_begin surface pixelBytes rect)
    with false by (symmetry; apply N.ltb_ge; lia).
  replace (span_size_bytes (data_ surface) <? lock_end surface pixelBytes rect)
    with false by (symmetry; apply N.ltb_ge; lia).
  cbn [orb]. unfold make_span_range, make_span. cbn [ptr_add ptr_offset].
  replace (0 <=? _)%Z with true by (symmetry; apply Z.leb_le; lia).
  unfold locked. do 4 f_equal. lia.
Qed.

(** A rectangle that ends beyond row [2 ^ 31] cannot be locked, although it
    lies inside the surface: the end offset goes through a negative row
    index and passes the size of the data. *)
Lemma Lock_tall (m : Memory) (surface : SoftwareSurface) (pixelBytes : N)
    (b : list byte) (rect : RectU) :
  surface_over m surface pixelBytes b →
  rect_inside surface rect →
  2 ^ 31 < Bottom rect → Bottom rect < 2 ^ 32 →
  0 < stride_ surface →
  Lock surface rect m = Throws out_of_range.
Proof.
  intros [Hfmt _ Hspan Hsmall Hrow Hrows] (_ & HRW & _ & HBH) H31 H32 Hst.
  set (stride := stride_ surface) in *.
  set (d := 2 ^ 32 - (Bottom rect - 1)).
  assert (2 ≤ d ∧ d ≤ 2 ^ 31) as [Hd2 Hd31] by (unfold d; lia).
  assert (stride < 2 ^ 32) as Hst32.
  { assert (stride * 2 ^ 31 ≤ stride * Height (size_ surface))
      by (apply N.mul_le_mono_l; lia).
    lia. }
  assert (pixelBytes * Right rect ≤ stride) as Hright.
  { assert (pixelBytes * Right rect ≤ pixelBytes * Width (size_ surface))
      by (apply N.mul_le_mono_l; lia).
    lia. }
  assert (2 * stride ≤ d * stride) as Hds by (apply N.mul_le_mono_r; lia).
  assert (d * stride ≤ 2 ^ 31 * stride) as Hds' by (apply N.mul_le_mono_r; lia).
  unfold Lock, gbind. rewrite Hfmt. unfold gret.
  rewrite tall_row_index by done. fold d. fold stride.
  replace ((2 ^ 64 - d) * stride + pixelBytes * Right rect)
    with (2 ^ 64 - (d * stride - pixelBytes * Right rect)
          + (stride - 1) * 2 ^ 64) by nia.
  unfold size_t at 2. rewrite N.Div0.mod_add, N.mod_small by lia.
  replace (span_size_bytes (data_ surface) <?
           2 ^ 64 - (d * stride - pixelBytes * Right rect))
    with true by (symmetry; apply N.ltb_lt; lia).
  by rewrite orb_true_r.
Qed.

Lemma ColorFormat_eqb_refl (format : ColorFormat) :
  ColorFormat_eqb format format = true.
Proof. destruct format; cbn; [done|done|apply N.eqb_refl]. Qed.

Lemma GetPixelBytes_positive (format : ColorFormat) (pixelBytes : N) :
  GetPixelBytes format = gret pixelBytes → pixelBytes = 2 ∨ pixelBytes = 16.
Proof.
  destruct format; cbn; intros Heq.
  - left. apply (f_equal (λ g, g {| buffers := ∅; next_buffer := 0 |})) in Heq.
    unfold gret in Heq. congruence.
  - right. apply (f_equal (λ g, g {| buffers := ∅; next_buffer := 0 |})) in Heq.
    unfold gret in Heq. congruence.
  - apply (f_equal (λ g, g {| buffers := ∅; next_buffer := 0 |})) in Heq.
    unfold gret, throw in Heq. congruence.
Qed.

(** The surface [SoftwareSurface(format, size)] builds, and the memory it
    leaves. *)
Lemma SoftwareSurface_new_ok (format : ColorFormat) (size : SizeU)
    (pixelBytes : N) (m : Memory) :
  memory_ok m →
  GetPixelBytes format = gret pixelBytes →
  Width size < 2 ^ 32 →
  Width size * pixelBytes * Height size < 2 ^ 63 →
  let bytes := Width size * pixelBytes * Height size in
  let storage := {| ptr_buffer := next_buffer m; ptr_offset := 0 |} in
  let surface :=
    {| format_ := format; size_ := size;
       stride_ := Width size * pixelBytes;
       data_ := {| span_data := storage; span_size_bytes := bytes |};
       storage_ := Some storage |} in
  let m' :=
    {| buffers := <[next_buffer m := replicate (N.to_nat bytes) "000"%byte]>
                    (buffers m);
       next_buffer := N.succ (next_buffer m) |} in
  SoftwareSurface_new format size m = Returns (surface, m') ∧
  surface_over m' surface pixelBytes (replicate (N.to_nat bytes) "000"%byte) ∧
  memory_ok m'.
Proof.
  intros Hm Hfmt Hw Hsz bytes storage surface m'.
  assert (Width size * pixelBytes < 2 ^ 64) as Hstride.
  { destruct (GetPixelBytes_positive format pixelBytes Hfmt) as [->| ->]; lia. }
  split; [|split].
  - unfold SoftwareSurface_new, gbind. rewrite Hfmt. unfold gret.
    unfold size_t. rewrite (N.mod_small (Width size * pixelBytes)) by done.
    rewrite N.mod_small by (fold bytes; lia). fold bytes.
    unfold make_unique, make_span, ptrdiff_t.
    rewrite N.mod_small by lia.
    replace (Z.of_N bytes <? 2 ^ 63)%Z with true
      by (symmetry; apply Z.ltb_lt; lia).
    replace (0 <=? Z.of_N bytes)%Z with true
      by (symmetry; apply Z.leb_le; lia).
    rewrite N2Z.id. reflexivity.
  - split; cbn.
    + done.
    + by rewrite lookup_insert_eq.
    + rewrite length_replicate. lia.
    + rewrite length_replicate. lia.
    + lia.
    + unfold bytes. lia.
  - intros b Hb. cbn in *. rewrite lookup_insert_ne by lia. apply Hm. lia.
Qed.

(** X15: [SoftwareSurface(format, size)] for a supported format,
    when the byte size fits.  It allocates one buffer, that no pointer named
    before, of [Width * pixelBytes * Height] zero bytes, which the surface's
    data span covers entirely; the stride is [Width * pixelBytes]; no other
    buffer changes. *)
Theorem SoftwareSurface_new_spec (format : ColorFormat) (size : SizeU)
    (pixelBytes : N) (m : Memory) :
  memory_ok m →
  GetPixelBytes format = gret pixelBytes →
  Width size < 2 ^ 32 →
  Width size * pixelBytes * Height size < 2 ^ 63 →
  ∃ surface m' zeros,
    SoftwareSurface_new format size m = Returns (surface, m') ∧
    format_ surface = format ∧ size_ surface = size ∧
    stride_ surface = Width size * pixelBytes ∧
    span_size_bytes (data_ surface) = Width size * pixelBytes * Height size ∧
    ptr_offset (span_data (data_ surface)) = 0 ∧
    buffers m !! ptr_buffer (span_data (data_ surface)) = None ∧
    buffers m' = <[ptr_buffer (span_data (data_ surface)) := zeros]> (buffers m) ∧
    N.of_nat (length zeros) = Width size * pixelBytes * Height size ∧
    (∀ x, x ∈ zeros → x = "000"%byte) ∧
    surface_over m' surface pixelBytes zeros ∧
    memory_ok m'.
Proof.
  intros Hm Hfmt Hw Hsz.
  destruct (SoftwareSurface_new_ok format size pixelBytes m Hm Hfmt Hw Hsz)
    as (Hrun & Hso & Hm').
  do 3 eexists. split; [exact Hrun|]. cbn.
  do 5 (split; [done|]).
  split; [apply Hm; lia|]. split; [done|].
  split; [rewrite length_replicate; lia|].
  split; [by intros x [-> _]%elem_of_replicate|].
  done.
Qed.

(** X16: [Lock] of a rectangle with at least one row
    ([Top < Bottom]) that lies inside a surface whose rows lie in its data
    ([surface_over]).  When the rectangle ends
    at row [2 ^ 31] or before, [Lock] returns, leaves the memory alone and
    gives a span that starts at the first pixel of the rectangle's first row
    and ends after the last pixel of its last row, with the surface's
    stride; the span lies inside the surface's data, and each row of the
    rectangle lies inside the span.  When the rectangle ends beyond row
    [2 ^ 31] and the stride is not zero, [Lock] throws [out_of_range]
    instead: [int32_t(rect.Bottom - 1)] is then negative. *)
Theorem Lock_inside_spec (m : Memory) (surface : SoftwareSurface)
    (pixelBytes : N) (b : list byte) (rect : RectU) :
  surface_over m surface pixelBytes b →
  rect_inside surface rect →
  Top rect < Bottom rect →
  (Bottom rect ≤ 2 ^ 31 →
   Lock surface rect m = Returns (locked surface pixelBytes rect, m) ∧
   lock_begin surface pixelBytes rect ≤ lock_end surface pixelBytes rect ∧
   lock_end surface pixelBytes rect ≤ span_size_bytes (data_ surface) ∧
   ∀ y, y < Bottom rect - Top rect →
        y * Stride (locked surface pixelBytes rect) +
        pixelBytes * (Right rect - Left rect)
        ≤ span_size_bytes (Data (locked surface pixelBytes rect))) ∧
  (2 ^ 31 < Bottom rect → Bottom rect < 2 ^ 32 → 0 < stride_ surface →
   Lock surface rect m = Throws out_of_range).
Proof.
  intros Hso Hin HTB. split.
  - intros HB31.
    destruct (lock_offsets m surface pixelBytes b rect Hso Hin HTB)
      as (Hbe & Hes & Hrows).
    split; [by eapply Lock_inside|]. split; [done|]. split; [done|].
    intros y Hy. specialize (Hrows y Hy). cbn. lia.
  - intros H31 H32 Hst. by eapply Lock_tall.
Qed.

(** X17: locking the whole of a surface just created, of a
    supported format and a byte size that fits.  When the surface has at
    most [2 ^ 31] rows, [Lock] returns the surface's whole
    data span, also when the surface has no rows or no columns (the row
    count minus one then wraps around, and so does the product, to offset
    zero).  When it has more rows than [2 ^ 31], and at least one column,
    [Lock] throws [out_of_range]. *)
Theorem Lock_whole_new_surface (format : ColorFormat) (size : SizeU)
    (pixelBytes : N) (m : Memory) :
  memory_ok m →
  GetPixelBytes format = gret pixelBytes →
  Width size < 2 ^ 32 →
  Width size * pixelBytes * Height size < 2 ^ 63 →
  ∃ surface m',
    SoftwareSurface_new format size m = Returns (surface, m') ∧
    let whole := {| Left := 0; Top := 0;
                    Right := Width size; Bottom := Height size |} in
    (Height size ≤ 2 ^ 31 →
     Lock surface whole m' =
       Returns ({| Data := data_ surface; Stride := stride_ surface;
                   Rect := whole |}, m')) ∧
    (2 ^ 31 < Height size → Height size < 2 ^ 32 → 1 ≤ Width size →
     Lock surface whole m' = Throws out_of_range).
Proof.
  intros Hm Hfmt Hw Hsz.
  destruct (SoftwareSurface_new_ok format size pixelBytes m Hm Hfmt Hw Hsz)
    as (Hrun & Hso & Hm').
  do 2 eexists. split; [exact Hrun|]. cbn zeta.
  assert (Width size * pixelBytes < 2 ^ 64) as Hstride.
  { destruct (GetPixelBytes_positive format pixelBytes Hfmt) as [->| ->]; lia. }
  split.
  - intros Hh. destruct (decide (Height size = 0)) as [H0|H0].
    + unfold Lock, gbind. cbn [format_ stride_ data_ span_size_bytes span_data
                               Left Top Right Bottom].
      rewrite Hfmt. unfold gret. rewrite H0, no_row_index.
      replace ((2 ^ 64 - 1) * (Width size * pixelBytes) + pixelBytes * Width size)
        with (Width size * pixelBytes * 2 ^ 64) by lia.
      unfold size_t. rewrite N.Div0.mod_mul.
      rewrite N.mul_0_l, N.mul_0_r, N.add_0_l, N.mul_0_r.
      cbn [N.ltb N.compare orb N.modulo N.div_eucl].
      unfold make_span_range, make_span. cbn. reflexivity.
    + erewrite Lock_inside; [|exact Hso| | |].
      * unfold locked, lock_begin, lock_end, ptr_add. cbn.
        replace (0 + (0 * (Width size * pixelBytes) + pixelBytes * 0)) with 0
          by lia.
        replace ((Height size - 1) * (Width size * pixelBytes) +
                 pixelBytes * Width size -
                 (0 * (Width size * pixelBytes) + pixelBytes * 0))
          with (Width size * pixelBytes * Height size) by nia.
        reflexivity.
      * unfold rect_inside. cbn. lia.
      * cbn. lia.
      * cbn. lia.
  - intros H31 H32 Hw1. eapply Lock_tall; [exact Hso| | | |].
    + unfold rect_inside. cbn. lia.
    + cbn. lia.
    + cbn. lia.
    + cbn. destruct (GetPixelBytes_positive format pixelBytes Hfmt) as [->| ->];
        lia.
Qed.

(** X18: [SoftwareSurface(format, size, data, copy)] with [copy]
    set, for a supported format, when the byte size fits and the [Height]
    rows of [Width * pixelBytes] bytes it reads, [data.Stride] apart, lie in
    the source buffer (the constructor does not check that).  It allocates
    one buffer, which the new surface's span covers, packs the rows into it
    with stride [Width * pixelBytes], and leaves the source as it was. *)
Theorem SoftwareSurface_from_copy (format : ColorFormat) (size : SizeU)
    (data : SurfaceData) (pixelBytes : N) (m : Memory) (sb : list byte) :
  memory_ok m →
  buffers m !! ptr_buffer (span_data (Data data)) = Some sb →
  N.of_nat (length sb) < 2 ^ 64 →
  GetPixelBytes format = gret pixelBytes →
  Width size < 2 ^ 32 →
  Width size * pixelBytes * Height size < 2 ^ 63 →
  (∀ y, y < Height size →
        ptr_offset (span_data (Data data)) + y * Stride data +
        Width size * pixelBytes ≤ N.of_nat (length sb)) →
  ∃ surface m' db,
    SoftwareSurface_from format size data true m = Returns (surface, m') ∧
    format_ surface = format ∧ size_ surface = size ∧
    stride_ surface = Width size * pixelBytes ∧
    span_size_bytes (data_ surface) = Width size * pixelBytes * Height size ∧
    ptr_offset (span_data (data_ surface)) = 0 ∧
    buffers m !! ptr_buffer (span_data (data_ surface)) = None ∧
    buffers m' = <[ptr_buffer (span_data (data_ surface)) := db]> (buffers m) ∧
    N.of_nat (length db) = Width size * pixelBytes * Height size ∧
    (∀ y x, y < Height size → x < Width size * pixelBytes →
            db !! N.to_nat (y * (Width size * pixelBytes) + x) =
            sb !! N.to_nat (ptr_offset (span_data (Data data)) +
                            y * Stride data + x)) ∧
    surface_over m' surface pixelBytes db.
Proof.
  intros Hm Hsb Hss Hfmt Hw Hsz Hrows.
  set (stride := Width size * pixelBytes).
  set (bytes := stride * Height size).
  set (storage := {| ptr_buffer := next_buffer m; ptr_offset := 0 |}).
  set (zeros := replicate (N.to_nat bytes) "000"%byte).
  set (m1 := {| buffers := <[next_buffer m := zeros]> (buffers m);
                next_buffer := N.succ (next_buffer m) |}).
  assert (stride < 2 ^ 64) as Hstride.
  { unfold stride.
    destruct (GetPixelBytes_positive format pixelBytes Hfmt) as [->| ->]; lia. }
  assert (buffers m !! next_buffer m = None) as Hfresh by (apply Hm; lia).
  assert (ptr_buffer (span_data (Data data)) ≠ ptr_buffer storage) as Hne.
  { cbn. intros Heq. rewrite Heq in Hsb. congruence. }
  destruct (CopyBits_rows_copies (span_data (Data data)) storage (Stride data)
              stride stride sb Hne Hss (N.to_nat (Height size)) 0 m1 zeros)
    as (db & Hcopy & Hlen & Hcontent & _).
  { cbn. by rewrite lookup_insert_ne. }
  { cbn. by rewrite lookup_insert_eq. }
  { unfold zeros. rewrite length_replicate. lia. }
  { intros y Hy. split; [apply Hrows; lia|].
    unfold zeros. rewrite length_replicate. cbn.
    assert ((y + 1) * stride ≤ Height size * stride)
      by (apply N.mul_le_mono_r; lia).
    unfold bytes. lia. }
  exists {| format_ := format; size_ := size; stride_ := stride;
            data_ := {| span_data := storage; span_size_bytes := bytes |};
            storage_ := Some storage |}.
  exists {| buffers := <[next_buffer m := db]> (buffers m);
            next_buffer := N.succ (next_buffer m) |}, db.
  assert (N.of_nat (length db) = bytes) as Hlen'.
  { rewrite Hlen. unfold zeros. rewrite length_replicate. lia. }
  split.
  { unfold SoftwareSurface_from. cbn [negb]. unfold gbind at 1.
    rewrite Hfmt. unfold gret at 1. fold stride.
    unfold size_t. rewrite (N.mod_small stride) by done.
    fold bytes. rewrite (N.mod_small bytes) by (unfold bytes, stride; lia).
    unfold gbind at 1. unfold make_unique. fold storage zeros m1.
    unfold gbind at 1. unfold make_span, ptrdiff_t.
    rewrite N.mod_small by (unfold bytes, stride; lia).
    replace (Z.of_N bytes <? 2 ^ 63)%Z with true
      by (symmetry; apply Z.ltb_lt; unfold bytes, stride; lia).
    replace (0 <=? Z.of_N bytes)%Z with true
      by (symmetry; apply Z.leb_le; lia).
    rewrite N2Z.id. unfold gbind. cbn [span_data].
    unfold CopyBits. rewrite Hcopy. unfold gret. cbn.
    by rewrite insert_insert_eq. }
  cbn. do 5 (split; [done|]). split; [done|]. split; [done|].
  split; [done|]. split.
  { intros y x Hy Hx.
    specialize (Hcontent (N.le_refl _) y x). cbn in Hcontent.
    rewrite <- Hcontent; [|lia|done]. f_equal. }
  split; cbn.
  - done.
  - by rewrite lookup_insert_eq.
  - lia.
  - unfold bytes, stride in *. lia.
  - unfold stride. lia.
  - done.
Qed.

(** X19: only the copying constructor checks the format.  With a
    format the source does not name, the constructor with [copy] set throws
    [invalid_argument] before it allocates.  With [copy] clear it returns a
    surface over the caller's data when the size matches, stops on the
    assertion when it does not, and it is every later [Lock] of that surface
    that throws [invalid_argument]. *)
Theorem SoftwareSurface_from_format_check (value : N) (size : SizeU)
    (data : SurfaceData) (m : Memory) :
  SoftwareSurface_from (OtherFormat value) size data true m =
    Throws invalid_argument ∧
  (size_t (Stride data * Height size) ≠ span_size_bytes (Data data) →
   SoftwareSurface_from (OtherFormat value) size data false m =
     AssertionFailed) ∧
  (size_t (Stride data * Height size) = span_size_bytes (Data data) →
   ∃ surface,
     SoftwareSurface_from (OtherFormat value) size data false m =
       Returns (surface, m) ∧
     data_ surface = Data data ∧ stride_ surface = Stride data ∧
     storage_ surface = None ∧
     ∀ rect m', Lock surface rect m' = Throws invalid_argument).
Proof.
  split; [done|]. split.
  - intros Hne. unfold SoftwareSurface_from. cbn [negb].
    unfold gbind, gassert. apply N.eqb_neq in Hne. by rewrite Hne.
  - intros Heq. eexists. split; [|split; [|split; [|split]]].
    + unfold SoftwareSurface_from. cbn [negb].
      unfold gbind, gassert, gret. apply N.eqb_eq in Heq. by rewrite Heq.
    + done.
    + done.
    + done.
    + done.
Qed.

(** ** Filling rows of 16-bit pixels *)

Lemma store_uint16_ok (m : Memory) (p : ptr) (value : N) (b : list byte) :
  buffers m !! ptr_buffer p = Some b →
  ptr_offset p + 2 ≤ N.of_nat (length b) →
  ∃ b',
    store_uint16 p value m =
      Returns (tt, {| buffers := <[ptr_buffer p := b']> (buffers m);
                      next_buffer := next_buffer m |}) ∧
    length b' = length b ∧
    b' !! N.to_nat (ptr_offset p) = Some (byte_of_N (value mod 256)) ∧
    b' !! N.to_nat (ptr_offset p + 1) = Some (byte_of_N (value / 256 mod 256)) ∧
    (∀ a, a < ptr_offset p ∨ ptr_offset p + 2 ≤ a →
          b' !! N.to_nat a = b !! N.to_nat a).
Proof.
  intros Hb Hle.
  set (bs := [byte_of_N (value mod 256); byte_of_N (value / 256 mod 256)]).
  assert (ptr_offset p + N.of_nat (length bs) ≤ N.of_nat (length b)) as Hle'
    by (cbn; lia).
  exists (splice b (ptr_offset p) bs). split; [|split; [|split; [|split]]].
  - unfold store_uint16, write_bytes. fold bs. rewrite Hb. cbn [mbind option_bind].
    apply N.leb_le in Hle'. by rewrite Hle'.
  - by apply splice_length.
  - pose proof (splice_lookup_in b (ptr_offset p) bs 0 Hle') as Hl.
    rewrite Nat.add_0_r in Hl. rewrite Hl; [done|cbn; lia].
  - pose proof (splice_lookup_in b (ptr_offset p) bs 1 Hle') as Hl.
    replace (N.to_nat (ptr_offset p + 1)) with (N.to_nat (ptr_offset p) + 1)%nat
      by lia.
    rewrite Hl; [done|cbn; lia].
  - intros a Ha. apply splice_lookup_out; [done|]. cbn. lia.
Qed.

Lemma store_uint16_out_of_bounds (m : Memory) (p : ptr) (value : N)
    (b : list byte) :
  buffers m !! ptr_buffer p = Some b →
  N.of_nat (length b) < ptr_offset p + 2 →
  store_uint16 p value m = UndefinedBehaviour.
Proof.
  intros Hb Hlt. unfold store_uint16, write_bytes. rewrite Hb.
  cbn [mbind option_bind length].
  replace (_ <=? _) with false; [done|].
  symmetry. apply N.leb_gt. lia.
Qed.

Lemma FillBits_row_fills (cols : nat) (x0 : N) (src : ptr) (value : N)
    (m : Memory) (b : list byte) :
  buffers m !! ptr_buffer src = Some b →
  ptr_offset src + 2 * (x0 + N.of_nat cols) ≤ N.of_nat (length b) →
  ∃ b',
    FillBits_row cols x0 src value m =
      Returns (tt, {| buffers := <[ptr_buffer src := b']> (buffers m);
                      next_buffer := next_buffer m |}) ∧
    length b' = length b ∧
    (∀ x, x0 ≤ x < x0 + N.of_nat cols →
          b' !! N.to_nat (ptr_offset src + 2 * x) =
            Some (byte_of_N (value mod 256)) ∧
          b' !! N.to_nat (ptr_offset src + 2 * x + 1) =
            Some (byte_of_N (value / 256 mod 256))) ∧
    (∀ a, a < ptr_offset src + 2 * x0 ∨
          ptr_offset src + 2 * (x0 + N.of_nat cols) ≤ a →
          b' !! N.to_nat a = b !! N.to_nat a).
Proof.
  revert x0 m b. induction cols as [|cols IH]; intros x0 m b Hb Hle.
  - exists b. split; [|split; [done|split]].
    + cbn. unfold gret. do 2 f_equal. destruct m as [bufs nb]. cbn in *.
      f_equal. by rewrite insert_id.
    + intros x Hx. lia.
    + done.
  - destruct (store_uint16_ok m (ptr_add src (2 * x0)) value b)
      as (b1 & Hstore & Hlen1 & Hlo & Hhi & Hframe1); [done|cbn; lia|].
    cbn [ptr_add ptr_buffer ptr_offset] in *.
    destruct (IH (x0 + 1) {| buffers := <[ptr_buffer src := b1]> (buffers m);
                             next_buffer := next_buffer m |} b1)
      as (b' & Hrest & Hlen' & Hpix & Hframe').
    + cbn. by rewrite lookup_insert_eq.
    + rewrite Hlen1. lia.
    + exists b'. split; [|split; [congruence|split]].
      * cbn [FillBits_row]. unfold gbind. rewrite Hstore, Hrest. cbn.
        by rewrite insert_insert_eq.
      * intros x Hx. destruct (decide (x = x0)) as [->|Hne].
        -- rewrite !Hframe' by lia. done.
        -- apply Hpix. lia.
      * intros a Ha. rewrite Hframe' by lia. apply Hframe1. lia.
Qed.

Lemma FillBits_rows_fills (rows : nat) (src : ptr) (width stride value : N)
    (m : Memory) (b : list byte) :
  let pitch := 2 * (stride / 2) in
  buffers m !! ptr_buffer src = Some b →
  2 * width ≤ pitch →
  (∀ y, y < N.of_nat rows →
        ptr_offset src + pitch * y + 2 * width ≤ N.of_nat (length b)) →
  ∃ b',
    FillBits_rows rows src width stride value m =
      Returns (tt, {| buffers := <[ptr_buffer src := b']> (buffers m);
                      next_buffer := next_buffer m |}) ∧
    length b' = length b ∧
    (∀ y x, y < N.of_nat rows → x < width →
            b' !! N.to_nat (ptr_offset src + pitch * y + 2 * x) =
              Some (byte_of_N (value mod 256)) ∧
            b' !! N.to_nat (ptr_offset src + pitch * y + 2 * x + 1) =
              Some (byte_of_N (value / 256 mod 256))) ∧
    (∀ a, (∀ y, y < N.of_nat rows →
                a < ptr_offset src + pitch * y ∨
                ptr_offset src + pitch * y + 2 * width ≤ a) →
          b' !! N.to_nat a = b !! N.to_nat a).
Proof.
  intros pitch. revert src m b.
  induction rows as [|rows IH]; intros src m b Hb Hpitch Hin.
  - exists b. split; [|split; [done|split]].
    + cbn. unfold gret. do 2 f_equal. destruct m as [bufs nb]. cbn in *.
      f_equal. by rewrite insert_id.
    + intros y x Hy. lia.
    + done.
  - destruct (FillBits_row_fills (N.to_nat width) 0 src value m b)
      as (b1 & Hrow & Hlen1 & Hpix1 & Hframe1); [done|..].
    { specialize (Hin 0 ltac:(lia)). lia. }
    destruct (IH (ptr_add src pitch)
                {| buffers := <[ptr_buffer src := b1]> (buffers m);
                   next_buffer := next_buffer m |} b1)
      as (b' & Hrest & Hlen' & Hpix & Hframe').
    + cbn. by rewrite lookup_insert_eq.
    + done.
    + intros y Hy. rewrite Hlen1. cbn [ptr_add ptr_offset].
      specialize (Hin (y + 1) ltac:(lia)). lia.
    + cbn [ptr_add ptr_buffer ptr_offset] in *.
      exists b'. split; [|split; [congruence|split]].
      * cbn [FillBits_rows]. unfold gbind. rewrite Hrow.
        fold pitch. rewrite Hrest. cbn. by rewrite insert_insert_eq.
      * intros y x Hy Hx. destruct (decide (y = 0)) as [->|Hne].
        -- rewrite !Hframe'.
           ++ replace (ptr_offset src + pitch * 0 + 2 * x)
                with (ptr_offset src + 2 * x) by lia.
              apply Hpix1. lia.
           ++ intros y' Hy'. left.
              assert (pitch * 0 ≤ pitch * y') by (apply N.mul_le_mono_l; lia).
              lia.
           ++ intros y' Hy'. left.
              assert (pitch * 0 ≤ pitch * y') by (apply N.mul_le_mono_l; lia).
              lia.
        -- specialize (Hpix (y - 1) x ltac:(lia) Hx).
           replace (ptr_offset src + pitch + pitch * (y - 1))
             with (ptr_offset src + pitch * y) in Hpix by nia.
           done.
      * intros a Ha. rewrite Hframe'.
        -- apply Hframe1. specialize (Ha 0 ltac:(lia)). lia.
        -- intros y Hy. specialize (Ha (y + 1) ltac:(lia)). lia.
Qed.

(** ** The device context on surfaces in system memory *)

Section DeviceContextFacts.
Context `{display : Display}.

(** X20: [CopySubresource] between two surfaces of one format
    that lie in different buffers, for a source rectangle with at least one
    row ([Top < Bottom]) inside the source and a destination rectangle, of
    the same width and height, inside the destination, when both rectangles
    end at row [2 ^ 31] or before.  It returns and changes the destination
    buffer only, keeping its length: byte [x] of row [y] of the destination
    rectangle becomes byte [x] of row [y] of the source rectangle, and the
    bytes outside the destination rectangle are as before.  [GetSize] and
    the rectangle at a position, declared outside the sources, are taken to
    give [Right - Left] by [Bottom - Top] and a rectangle of that size. *)
Theorem CopySubresource_copies (src dest : SoftwareSurface)
    (srcRect : RectU) (destPosition : PointU) (pixelBytes : N) (m : Memory)
    (sb db : list byte) :
  let w := Right srcRect - Left srcRect in
  let h := Bottom srcRect - Top srcRect in
  let destRect := RectU_at destPosition (GetSize srcRect) in
  GetSize srcRect = {| Width := w; Height := h |} →
  Right destRect = Left destRect + w →
  Bottom destRect = Top destRect + h →
  format_ src = format_ dest →
  ptr_buffer (span_data (data_ src)) ≠ ptr_buffer (span_data (data_ dest)) →
  surface_over m src pixelBytes sb →
  surface_over m dest pixelBytes db →
  rect_inside src srcRect →
  rect_inside dest destRect →
  Top srcRect < Bottom srcRect →
  Bottom srcRect ≤ 2 ^ 31 →
  Bottom destRect ≤ 2 ^ 31 →
  ∃ db',
    CopySubresource src dest srcRect destPosition m =
      Returns (tt, {| buffers := <[ptr_buffer (span_data (data_ dest)) := db']>
                                   (buffers m);
                      next_buffer := next_buffer m |}) ∧
    length db' = length db ∧
    (∀ y x, y < h → x < pixelBytes * w →
            db' !! N.to_nat (rect_byte dest pixelBytes destRect y x) =
            sb !! N.to_nat (rect_byte src pixelBytes srcRect y x)) ∧
    (∀ a, (∀ y, y < h →
                a < rect_byte dest pixelBytes destRect y 0 ∨
                rect_byte dest pixelBytes destRect y 0 + pixelBytes * w ≤ a) →
          db' !! N.to_nat a = db !! N.to_nat a).
Proof.
  intros w h destRect Hsize HdR HdB Hfmt Hne Hsrc Hdest Hins Hind
    Hsrow1 Hs31 Hd31.
  assert (Top destRect < Bottom destRect) as Hdrow1 by (unfold h in HdB; lia).
  destruct (lock_offsets m src pixelBytes sb srcRect Hsrc Hins Hsrow1)
    as (Hsbe & Hses & Hsrows).
  destruct (lock_offsets m dest pixelBytes db destRect Hdest Hind Hdrow1)
    as (Hdbe & Hdes & Hdrows).
  pose proof Hsrc as [Hsf Hsbuf Hsspan Hssmall Hsrow _].
  pose proof Hdest as [Hdf Hdbuf Hdspan Hdsmall Hdrow _].
  pose proof Hind as (_ & HdRW & _).
  assert (pixelBytes * w ≤ stride_ dest) as Hline.
  { assert (pixelBytes * w ≤ pixelBytes * Width (size_ dest))
      by (apply N.mul_le_mono_l; lia). lia. }
  assert (pixelBytes * w < 2 ^ 63) as Hline63.
  { pose proof Hdest as [_ _ _ _ _ Hdrows'].
    destruct Hind as (_ & _ & ? & ?).
    assert (stride_ dest * 1 ≤ stride_ dest * Height (size_ dest))
      by (apply N.mul_le_mono_l; lia).
    lia. }
  assert (Right destRect - Left destRect = w) as Hdw by lia.
  assert (Bottom destRect - Top destRect = h) as Hdh by lia.
  destruct (CopyBits_rows_copies
              (ptr_add (span_data (data_ src)) (lock_begin src pixelBytes srcRect))
              (ptr_add (span_data (data_ dest)) (lock_begin dest pixelBytes destRect))
              (stride_ src) (stride_ dest) (pixelBytes * w) sb Hne
              ltac:(lia) (N.to_nat h) 0 m db Hsbuf Hdbuf ltac:(lia))
    as (db' & Hcopy & Hlen & Hcontent & Hframe).
  { intros y Hy. cbn [ptr_add ptr_offset]. split.
    - specialize (Hsrows y ltac:(lia)). fold w in Hsrows. lia.
    - specialize (Hdrows y ltac:(lia)). rewrite Hdw in Hdrows. lia. }
  exists db'. split; [|split; [done|split]].
  - unfold CopySubresource, GetFormat, GetLocation.
    rewrite Hfmt, ColorFormat_eqb_refl. cbn [negb SurfaceLocation_eqb andb].
    unfold gbind at 1. rewrite (Lock_inside m src pixelBytes sb) by done.
    unfold gbind at 1. fold destRect.
    rewrite (Lock_inside m dest pixelBytes db) by done.
    unfold gbind at 1. rewrite <- Hfmt, Hsf. unfold gret at 1.
    rewrite Hsize. cbn [Width Height].
    unfold size_t. rewrite N.mod_small by lia.
    replace (w * pixelBytes) with (pixelBytes * w) by lia.
    unfold gbind at 1. cbn [locked Data Stride span_data].
    unfold CopyBits. rewrite Hcopy. reflexivity.
  - intros y x Hy Hx.
    specialize (Hcontent Hline y x ltac:(lia) Hx).
    cbn [ptr_add ptr_offset] in Hcontent.
    replace (rect_byte dest pixelBytes destRect y x)
      with (ptr_offset (span_data (data_ dest)) +
            lock_begin dest pixelBytes destRect + y * stride_ dest + x)
      by (unfold rect_byte, lock_begin; lia).
    replace (rect_byte src pixelBytes srcRect y x)
      with (ptr_offset (span_data (data_ src)) +
            lock_begin src pixelBytes srcRect + y * stride_ src + x)
      by (unfold rect_byte, lock_begin; lia).
    exact Hcontent.
  - intros a Ha. apply Hframe. intros y Hy.
    specialize (Ha y ltac:(lia)).
    cbn [ptr_add ptr_offset]. unfold rect_byte, lock_begin in *. lia.
Qed.

(** X21: [Clear] of a rectangle with at least one row
    ([Top < Bottom]) that lies inside a surface of 16-bit pixels in system
    memory and ends at row [2 ^ 31] or before.  It returns and changes the
    surface's buffer only, keeping its length: each pixel of the rectangle becomes the 16-bit value
    of the colour, low byte first, and the bytes outside the rows of the
    rectangle are as before.  Rows are taken [2 * (stride / 2)] bytes apart,
    which is the surface's stride when the stride is even.  [GetSize],
    declared outside the sources, is taken to give [Right - Left] by
    [Bottom - Top]. *)
Theorem Clear_fills (src : SoftwareSurface) (srcRect : RectU)
    (color : ColorValue) (m : Memory) (b : list byte) :
  let w := Right srcRect - Left srcRect in
  let h := Bottom srcRect - Top srcRect in
  let value := Rgb565_From_Value color in
  GetSize srcRect = {| Width := w; Height := h |} →
  format_ src = B5G6R5_UNORM →
  surface_over m src 2 b →
  rect_inside src srcRect →
  Top srcRect < Bottom srcRect →
  Bottom srcRect ≤ 2 ^ 31 →
  ∃ b',
    Clear src srcRect color m =
      Returns (tt, {| buffers := <[ptr_buffer (span_data (data_ src)) := b']>
                                   (buffers m);
                      next_buffer := next_buffer m |}) ∧
    length b' = length b ∧
    (∀ y x, y < h → x < w →
            b' !! N.to_nat (fill_byte src srcRect y x) =
              Some (byte_of_N (value mod 256)) ∧
            b' !! N.to_nat (fill_byte src srcRect y x + 1) =
              Some (byte_of_N (value / 256 mod 256))) ∧
    (∀ a, (∀ y, y < h →
                a < fill_byte src srcRect y 0 ∨
                fill_byte src srcRect y 0 + 2 * w ≤ a) →
          b' !! N.to_nat a = b !! N.to_nat a) ∧
    (N.even (stride_ src) = true →
     ∀ y x, fill_byte src srcRect y x = rect_byte src 2 srcRect y (2 * x)).
Proof.
  intros w h value Hsize Hfmt Hso Hin Hrow1 H31.
  destruct (lock_offsets m src 2 b srcRect Hso Hin Hrow1)
    as (Hbe & Hes & Hrows).
  pose proof Hso as [_ Hbuf Hspan Hsmall Hrow _].
  pose proof Hin as (HLR & HRW & _).
  set (pitch := 2 * (stride_ src / 2)).
  assert (pitch ≤ stride_ src) as Hpitch by (apply N.Div0.mul_div_le).
  assert (2 * w ≤ pitch) as Hwide.
  { assert (Width (size_ src) ≤ stride_ src / 2)
      by (apply N.div_le_lower_bound; lia).
    unfold pitch. lia. }
  destruct (FillBits_rows_fills (N.to_nat h)
              (ptr_add (span_data (data_ src)) (lock_begin src 2 srcRect))
              w (stride_ src) value m b)
    as (b' & Hfill & Hlen & Hpix & Hframe); [done|done|..].
  { intros y Hy. cbn [ptr_add ptr_offset].
    specialize (Hrows y ltac:(lia)). fold w in Hrows.
    assert (pitch * y ≤ stride_ src * y) by (apply N.mul_le_mono_r; lia).
    fold pitch. lia. }
  cbn [ptr_add ptr_buffer ptr_offset] in *. fold pitch in Hpix, Hframe.
  exists b'. split; [|split; [done|split; [|split]]].
  - unfold Clear, GetLocation, GetFormat. cbn [SurfaceLocation_eqb].
    unfold gbind at 1. rewrite (Lock_inside m src 2 b) by done.
    unfold gbind at 1. unfold FillBits. rewrite Hfmt. cbn [ColorFormat_eqb].
    cbn [locked Rect Data Stride span_data]. rewrite Hsize.
    cbn [Width Height]. fold value. rewrite Hfill. reflexivity.
  - intros y x Hy Hx. unfold fill_byte. fold pitch.
    apply Hpix; [lia|done].
  - intros a Ha. apply Hframe. intros y Hy.
    specialize (Ha y ltac:(lia)). unfold fill_byte in Ha. fold pitch in Ha.
    lia.
  - intros Heven y x. unfold fill_byte, rect_byte, lock_begin.
    apply N.even_spec in Heven as [k Hk].
    replace (stride_ src / 2) with k
      by (rewrite Hk, N.mul_comm, N.div_mul; done).
    rewrite Hk. lia.
Qed.

(** X22: [Clear] is implemented for 16-bit pixels only.  On a
    surface of format [R32G32B32A32_FLOAT] in system memory, with a
    rectangle inside the surface that has at least one row ([Top < Bottom])
    and ends at row [2 ^ 31] or before, the lock succeeds and the fill then
    throws [runtime_error]. *)
Theorem Clear_float_not_implemented (src : SoftwareSurface) (srcRect : RectU)
    (color : ColorValue) (m : Memory) (b : list byte) :
  format_ src = R32G32B32A32_FLOAT →
  surface_over m src 16 b →
  rect_inside src srcRect →
  Top srcRect < Bottom srcRect →
  Bottom srcRect ≤ 2 ^ 31 →
  Lock src srcRect m = Returns (locked src 16 srcRect, m) ∧
  Clear src srcRect color m = Throws runtime_error.
Proof.
  intros Hfmt Hso Hin Hrow1 H31.
  pose proof (Lock_inside m src 16 b srcRect Hso Hin Hrow1 H31) as Hlock.
  split; [done|].
  unfold Clear, GetLocation, GetFormat. cbn [SurfaceLocation_eqb].
  unfold gbind at 1. rewrite Hlock.
  unfold gbind at 1. unfold FillBits. rewrite Hfmt. reflexivity.
Qed.

End DeviceContextFacts.

(** ** The graphics properties on sample surfaces *)

Lemma sample_memory_ok : memory_ok sample_memory.
Proof.
  intros b Hb. cbn in *. rewrite !lookup_insert_ne by lia. apply lookup_empty.
Qed.

Lemma sample_surface_0 :
  surface_over sample_memory (sample_surface 0) 2 sample_pixels.
Proof. split; cbn; try done; lia. Qed.

Lemma sample_surface_1 :
  surface_over sample_memory (sample_surface 1) 2 (replicate 24 "000"%byte).
Proof. split; cbn; try done; lia. Qed.

Lemma sample_float_surface_1 :
  surface_over sample_memory sample_float_surface 16 (replicate 24 "000"%byte).
Proof. split; cbn; try done; lia. Qed.

Lemma sample_rect_inside (buffer : N) : rect_inside (sample_surface buffer) sample_rect.
Proof. unfold rect_inside. cbn. lia. Qed.

Lemma CopyBits_copies_witness :
  ∃ db' m',
    CopyBits {| ptr_buffer := 0; ptr_offset := 0 |} 8
      {| ptr_buffer := 1; ptr_offset := 0 |} 8 4 3 sample_memory =
      Returns (tt, m') ∧
    buffers m' !! 1 = Some db' ∧
    db' !! 9%nat = sample_pixels !! 9%nat.
Proof.
  destruct (CopyBits_copies {| ptr_buffer := 0; ptr_offset := 0 |}
              {| ptr_buffer := 1; ptr_offset := 0 |} 8 8 4 3 sample_memory
              sample_pixels (replicate 24 "000"%byte))
    as (db' & Hrun & _ & Hcontent & _).
  - done.
  - reflexivity.
  - reflexivity.
  - cbn. lia.
  - cbn. lia.
  - intros y Hy. cbn. lia.
  - exists db'. eexists. split; [exact Hrun|]. split.
    + cbn. apply lookup_insert_eq.
    + apply (Hcontent ltac:(lia) 1 1); lia.
Defined.

Lemma CopyBits_defined_iff_witness :
  CopyBits {| ptr_buffer := 0; ptr_offset := 0 |} 8
    {| ptr_buffer := 1; ptr_offset := 0 |} 8 4 4 sample_memory =
    UndefinedBehaviour.
Proof.
  apply (proj2 (CopyBits_defined_iff {| ptr_buffer := 0; ptr_offset := 0 |}
                  {| ptr_buffer := 1; ptr_offset := 0 |} 8 8 4 4 sample_memory
                  sample_pixels (replicate 24 "000"%byte)
                  ltac:(done) eq_refl eq_refl ltac:(cbn; lia) ltac:(cbn; lia)
                  ltac:(lia) ltac:(lia))).
  exists 3. split; [lia|]. left. cbn. lia.
Defined.

Lemma SoftwareSurface_new_spec_witness :
  ∃ surface m',
    SoftwareSurface_new B5G6R5_UNORM {| Width := 4; Height := 3 |}
      sample_memory = Returns (surface, m') ∧
    stride_ surface = 8 ∧ span_size_bytes (data_ surface) = 24.
Proof.
  destruct (SoftwareSurface_new_spec B5G6R5_UNORM {| Width := 4; Height := 3 |}
              2 sample_memory sample_memory_ok eq_refl)
    as (surface & m' & zeros & Hrun & _ & _ & Hstride & Hsize & _).
  - cbn. lia.
  - cbn. lia.
  - exists surface, m'. split; [exact Hrun|]. split; [exact Hstride|exact Hsize].
Defined.

Lemma Lock_inside_spec_witness :
  Lock (sample_surface 0) sample_rect sample_memory =
    Returns ({| Data := {| span_data := {| ptr_buffer := 0; ptr_offset := 10 |};
                           span_size_bytes := 12 |};
                Stride := 8; Rect := sample_rect |}, sample_memory).
Proof.
  refine (proj1 (proj1 (Lock_inside_spec sample_memory (sample_surface 0) 2
                          sample_pixels sample_rect sample_surface_0
                          (sample_rect_inside 0) _) _)).
  - cbn. lia.
  - cbn. lia.
Defined.

Lemma Lock_whole_new_surface_witness :
  (∃ surface m',
     SoftwareSurface_new B5G6R5_UNORM {| Width := 4; Height := 0 |}
       sample_memory = Returns (surface, m') ∧
     Lock surface {| Left := 0; Top := 0; Right := 4; Bottom := 0 |} m' =
       Returns ({| Data := data_ surface; Stride := stride_ surface;
                   Rect := {| Left := 0; Top := 0; Right := 4; Bottom := 0 |} |},
                m')) ∧
  (∃ surface m',
     SoftwareSurface_new B5G6R5_UNORM {| Width := 1; Height := 2 ^ 31 + 1 |}
       sample_memory = Returns (surface, m') ∧
     Lock surface {| Left := 0; Top := 0; Right := 1; Bottom := 2 ^ 31 + 1 |} m' =
       Throws out_of_range).
Proof.
  split.
  - destruct (Lock_whole_new_surface B5G6R5_UNORM {| Width := 4; Height := 0 |}
                2 sample_memory sample_memory_ok eq_refl
                ltac:(cbn; lia) ltac:(cbn; lia))
      as (surface & m' & Hnew & Hlock & _).
    exists surface, m'. split; [exact Hnew|]. apply Hlock. cbn. lia.
  - destruct (Lock_whole_new_surface B5G6R5_UNORM
                {| Width := 1; Height := 2 ^ 31 + 1 |}
                2 sample_memory sample_memory_ok eq_refl
                ltac:(cbn; lia) ltac:(cbn; lia))
      as (surface & m' & Hnew & _ & Hlock).
    exists surface, m'. split; [exact Hnew|]. apply Hlock; cbn; lia.
Defined.

Lemma SoftwareSurface_from_copy_witness :
  ∃ surface m' db,
    SoftwareSurface_from B5G6R5_UNORM {| Width := 2; Height := 2 |}
      (locked (sample_surface 0) 2 sample_rect) true sample_memory =
      Returns (surface, m') ∧
    buffers m' !! ptr_buffer (span_data (data_ surface)) = Some db ∧
    db !! 5%nat = sample_pixels !! 19%nat.
Proof.
  destruct (SoftwareSurface_from_copy B5G6R5_UNORM {| Width := 2; Height := 2 |}
              (locked (sample_surface 0) 2 sample_rect) 2 sample_memory
              sample_pixels sample_memory_ok eq_refl)
    as (surface & m' & db & Hrun & _ & _ & _ & _ & _ & _ & Hbuf & _ &
        Hcontent & _).
  - cbn. lia.
  - reflexivity.
  - cbn. lia.
  - cbn. lia.
  - intros y Hy. cbn in *. unfold lock_begin. cbn. lia.
  - exists surface, m', db. split; [exact Hrun|]. split.
    + rewrite Hbuf. apply lookup_insert_eq.
    + apply (Hcontent 1 1); cbn; lia.
Defined.

Lemma CopySubresource_copies_witness :
  ∃ db' m',
    @CopySubresource sample_display (sample_surface 0) (sample_surface 1)
      sample_rect {| X := 0; Y := 0 |} sample_memory = Returns (tt, m') ∧
    buffers m' !! 1 = Some db' ∧
    db' !! 9%nat = sample_pixels !! 19%nat.
Proof.
  destruct (CopySubresource_copies (display := sample_display)
              (sample_surface 0) (sample_surface 1) sample_rect
              {| X := 0; Y := 0 |} 2 sample_memory sample_pixels
              (replicate 24 "000"%byte))
    as (db' & Hrun & _ & Hcontent & _).
  - reflexivity.
  - reflexivity.
  - reflexivity.
  - reflexivity.
  - done.
  - apply sample_surface_0.
  - apply sample_surface_1.
  - apply sample_rect_inside.
  - unfold rect_inside. repeat split; by vm_compute.
  - by vm_compute.
  - by vm_compute.
  - by vm_compute.
  - exists db'. eexists. split; [exact Hrun|]. split.
    + cbn. apply lookup_insert_eq.
    + apply (Hcontent 1 1); cbn; lia.
Defined.

Lemma Clear_fills_witness :
  ∃ b' m',
    @Clear sample_display (sample_surface 0) sample_rect 4660 sample_memory =
      Returns (tt, m') ∧
    buffers m' !! 0 = Some b' ∧
    b' !! 10%nat = Some "052"%byte ∧ b' !! 11%nat = Some "018"%byte.
Proof.
  destruct (Clear_fills (display := sample_display) (sample_surface 0)
              sample_rect 4660 sample_memory sample_pixels)
    as (b' & Hrun & _ & Hpix & _).
  - reflexivity.
  - reflexivity.
  - apply sample_surface_0.
  - apply sample_rect_inside.
  - by vm_compute.
  - by vm_compute.
  - exists b'. eexists. split; [exact Hrun|]. split.
    + cbn. apply lookup_insert_eq.
    + apply (Hpix 0 0); cbn; lia.
Defined.

Lemma Clear_float_not_implemented_witness :
  @Clear sample_display sample_float_surface
    {| Left := 0; Top := 0; Right := 1; Bottom := 1 |} 0 sample_memory =
    Throws runtime_error.
Proof.
  refine (proj2 (Clear_float_not_implemented (display := sample_display)
                   sample_float_surface
                   {| Left := 0; Top := 0; Right := 1; Bottom := 1 |} 0
                   sample_memory (replicate 24 "000"%byte) eq_refl
                   sample_float_surface_1 _ _ _)).
  - unfold rect_inside. cbn. lia.
  - cbn. lia.
  - cbn. lia.
Defined.
